(** * PageRank: a shallow embedding of [pagerank.py]

    The code of [src/pagerank/pagerank.py] ([main], [crawl],
    [transition_model], [sample_pagerank], [iterate_pagerank], [get_sum])
    is transcribed once, generically over the arithmetic it uses ([PyNum]),
    and run at two instances:

    - [Qc], exact rational arithmetic, in which the general theorems are
      stated and proved;
    - [float], IEEE 754 binary64 as Python's [float], at which the concrete
      scenarios are evaluated bit for bit.

    Python's insertion-ordered [dict] is an association list with distinct
    keys, a [set] of page names is a [gset string], exceptions are values of
    [exn] threaded through the [result] monad, the [while] loop of
    [iterate_pagerank] is run on fuel, and the generator behind
    [random.choices] is a stream [u : nat -> R] of variates of
    [random.random()], the [i]-th draw consuming [u i]. Python's [int] and
    [float] values share the one number type [R]: the code only ever mixes
    small integers (counts, the loop index, the literals 0 and 1) into
    float arithmetic, where they convert exactly.

    Of the libraries the code calls, [random.choices] with its bisection,
    [re.findall] on the one pattern of [crawl], [sorted] and the format
    [.4f] are transcribed too. A directory is the list of its names, each
    with what opening and reading it gives, a text or an exception; a
    [str] is a [string] of code points below 256. *)

From Stdlib Require Import ZArith QArith Qcanon Qabs Qcabs Qround Floats Lia Lqa.
From stdpp Require Import base numbers option list gmap sets strings pretty sorting.

Set Warnings "-inexact-float".
Local Open Scope string_scope.
Local Open Scope list_scope.

(** ** The Python runtime the code relies on *)

(** The exceptions the ranking functions can raise. *)
Inductive exn : Type :=
  | KeyError (key : string)
  | IndexError
  | ZeroDivisionError
  | ValueError.

Inductive result (A : Type) : Type :=
  | Ok (a : A)
  | Raise (e : exn).
Arguments Ok {A} a.
Arguments Raise {A} e.

#[global] Instance result_ret : MRet result := fun A a => Ok a.
#[global] Instance result_bind : MBind result := fun A B f m =>
  match m with
  | Ok a => f a
  | Raise e => Raise e
  end.

(** [for x in xs: s = body(s, x)], stopping at the first exception. *)
Fixpoint for_each {A S : Type} (xs : list A) (s : S) (body : S -> A -> result S)
  : result S :=
  match xs with
  | [] => Ok s
  | x :: xs' =>
      match body s x with
      | Ok s' => for_each xs' s' body
      | Raise e => Raise e
      end
  end.

(** An insertion-ordered dictionary keyed by page name. *)
Definition dict (V : Type) : Type := list (string * V).

Definition keys {V} (d : dict V) : list string := d.*1.
Definition values {V} (d : dict V) : list V := d.*2.

(** [d[k]] *)
Fixpoint dict_get {V} (d : dict V) (k : string) : result V :=
  match d with
  | [] => Raise (KeyError k)
  | (k', v) :: d' => if decide (k' = k) then Ok v else dict_get d' k
  end.

(** [d[k] = v]: an existing key keeps its position, a new one is appended. *)
Fixpoint dict_set {V} (d : dict V) (k : string) (v : V) : dict V :=
  match d with
  | [] => [(k, v)]
  | (k', v') :: d' =>
      if decide (k' = k) then (k', v) :: d' else (k', v') :: dict_set d' k v
  end.

(** [{}.fromkeys(ks, v)] *)
Definition fromkeys {V} (ks : list string) (v : V) : dict V :=
  foldl (fun d k => dict_set d k v) [] ks.

(** [l[i]] for a Python integer [i]: negative indices count from the end. *)
Definition py_index {A} (l : list A) (i : Z) : result A :=
  let n := Z.of_nat (length l) in
  let j := if (i <? 0)%Z then (n + i)%Z else i in
  if (j <? 0)%Z then Raise IndexError
  else match l !! Z.to_nat j with
       | Some x => Ok x
       | None => Raise IndexError
       end.

(** [itertools.accumulate(ws)] under addition. *)
Fixpoint accumulate_from {R} (add : R -> R -> R) (acc : R) (ws : list R) : list R :=
  match ws with
  | [] => []
  | w :: ws' => let acc' := add acc w in acc' :: accumulate_from add acc' ws'
  end.

Definition accumulate {R} (add : R -> R -> R) (ws : list R) : list R :=
  match ws with
  | [] => []
  | w :: ws' => w :: accumulate_from add w ws'
  end.

(** ** The arithmetic of the code *)

Class PyNum (R : Type) : Type := {
  of_nat : nat -> R;            (* an [int] used as a number *)
  lit_0_001 : R;                (* the literal [0.001] *)
  add : R -> R -> R;
  sub : R -> R -> R;
  mul : R -> R -> R;
  div : R -> R -> R;            (* [/] on a non-zero divisor *)
  absn : R -> R;                (* [abs] *)
  ltb : R -> R -> bool;         (* [<] *)
  leb : R -> R -> bool;         (* [<=] *)
  is_zero : R -> bool;          (* [== 0] *)
  isfinite : R -> bool;         (* [math.isfinite] *)
  floor : R -> Z                (* [math.floor] *)
}.

(** Exact rationals. *)
#[global] Instance Qc_num : PyNum Qc := {|
  of_nat n := Qc_of_Z (Z.of_nat n);
  lit_0_001 := Q2Qc (1 # 1000);
  add := Qcplus;
  sub := Qcminus;
  mul := Qcmult;
  div := Qcdiv;
  absn := Qcabs;
  ltb x y := match (x ?= y)%Qc with Lt => true | _ => false end;
  leb x y := match (x ?= y)%Qc with Gt => false | _ => true end;
  is_zero x := Qc_eq_bool x (Q2Qc 0);
  isfinite _ := true;
  floor x := Qfloor x
|}.

(** [math.floor] of a binary64 value, read off its sign, mantissa and
    exponent. *)
Definition float_floor (x : float) : Z :=
  match Prim2SF x with
  | S754_finite s m e =>
      if (0 <=? e)%Z then
        let v := (Z.pos m * 2 ^ e)%Z in if s then (- v)%Z else v
      else
        let k := (2 ^ (- e))%Z in
        if s then (- ((Z.pos m + k - 1) / k))%Z else (Z.pos m / k)%Z
  | _ => 0%Z
  end.

(** Binary64, the arithmetic Python runs the code in. *)
#[global] Instance float_num : PyNum float := {|
  of_nat n := PrimFloat.of_uint63 (Uint63.of_Z (Z.of_nat n));
  lit_0_001 := 0.001%float;
  add := PrimFloat.add;
  sub := PrimFloat.sub;
  mul := PrimFloat.mul;
  div := PrimFloat.div;
  absn := PrimFloat.abs;
  ltb := PrimFloat.ltb;
  leb := PrimFloat.leb;
  is_zero x := PrimFloat.eqb x 0%float;
  isfinite := PrimFloat.is_finite;
  floor := float_floor
|}.

Section Program.
Context {R : Type} `{PyNum R}.

(** [x / y]: Python raises where the divisor is zero. *)
Definition py_div (x y : R) : result R :=
  if is_zero y then Raise ZeroDivisionError else Ok (div x y).

(** [x > y] *)
Definition gtb (x y : R) : bool := ltb y x.

(** ** [random.choices] (Lib/random.py, Lib/bisect.py) *)

(** [bisect.bisect_right(a, x, lo, hi)]: the loop
    [while lo < hi: mid = (lo + hi) // 2; if x < a[mid]: hi = mid else: lo = mid + 1]
    runs at most [hi - lo] times. *)
Fixpoint bisect_loop (fuel : nat) (a : list R) (x : R) (lo hi : nat) : nat :=
  match fuel with
  | O => lo
  | S fuel' =>
      if (lo <? hi)%nat then
        let mid := ((lo + hi) / 2)%nat in
        if ltb x (nth mid a (of_nat 0))
        then bisect_loop fuel' a x lo mid
        else bisect_loop fuel' a x (mid + 1) hi
      else lo
  end.

Definition bisect (a : list R) (x : R) (lo hi : nat) : nat :=
  bisect_loop (hi - lo) a x lo hi.

(** [random.choices(population)[0]], the generator yielding [u]:
    [population[floor(random() * n)]]. *)
Definition choices_uniform (population : list string) (u : R) : result string :=
  let n := of_nat (length population) in
  py_index population (floor (mul u n)).

(** [random.choices(population, weights=weights, k=1)[0]], the generator
    yielding [u], as in CPython 3.9 and later: the cumulative weights, the
    checks that their total is positive and finite, and the bisection of
    [random() * total]. *)
Definition choices_weighted (population : list string) (weights : list R) (u : R)
  : result string :=
  let n := length population in
  let cum_weights := accumulate add weights in
  if negb (length cum_weights =? n)%nat then Raise ValueError
  else
    last_w ← py_index cum_weights (-1);
    let total := add last_w (of_nat 0) in
    if leb total (of_nat 0) then Raise ValueError
    else if negb (isfinite total) then Raise ValueError
    else
      let hi := (n - 1)%nat in
      py_index population (Z.of_nat (bisect cum_weights (mul u total) 0 hi)).

(** ** The ranking code *)

Definition corpus_t : Type := dict (gset string).

(** [transition_model(corpus, page, damping_factor)]. The set [links] is
    iterated in the order of [elements]; the pages of a set being distinct,
    the dictionary built does not depend on that order ([add_links_loop]). *)
Definition transition_model (corpus : corpus_t) (page : string) (damping_factor : R)
  : result (dict R) :=
  let d : dict R := [] in
  links ← dict_get corpus page;
  let num_pages := length corpus in
  let num_links := size links in
  if bool_decide (links ≠ ∅) then
    d ← for_each (keys corpus) d (fun d key =>
           v ← py_div (sub (of_nat 1) damping_factor) (of_nat num_pages);
           Ok (dict_set d key v));
    for_each (elements links) d (fun d key =>
      old ← dict_get d key;
      inc ← py_div damping_factor (of_nat num_links);
      Ok (dict_set d key (add old inc)))
  else
    for_each (keys corpus) d (fun d key =>
      v ← py_div (of_nat 1) (of_nat num_pages);
      Ok (dict_set d key v)).

(** The running-average update of the accumulator at step [i]:
    [for _page in d: d[_page] = (((i - 1) * d[_page]) + current_dist[_page]) / i]. *)
Definition update_average (d current_dist : dict R) (i : nat) : result (dict R) :=
  for_each (keys d) d (fun d _page =>
    old ← dict_get d _page;
    cur ← dict_get current_dist _page;
    v ← py_div (add (mul (of_nat (i - 1)) old) cur) (of_nat i);
    Ok (dict_set d _page v)).

(** One pass of the body of [for i in range(1, n)] in [sample_pagerank];
    the state is the accumulator [d] and the current [page]. *)
Definition sample_step (corpus : corpus_t) (damping_factor : R) (u : nat -> R)
    (st : dict R * string) (i : nat) : result (dict R * string) :=
  let '(d, page) := st in
  current_dist ← transition_model corpus page damping_factor;
  d ← update_average d current_dist i;
  page ← choices_weighted (keys d) (values d) (u i);
  Ok (d, page).

(** [sample_pagerank(corpus, damping_factor, n)] *)
Definition sample_pagerank (corpus : corpus_t) (damping_factor : R) (n : nat)
    (u : nat -> R) : result (dict R) :=
  let d := fromkeys (keys corpus) (of_nat 0) in
  page ← choices_uniform (keys corpus) (u 0%nat);
  st ← for_each (seq 1 (n - 1)) (d, page) (sample_step corpus damping_factor u);
  Ok st.1.

(** [get_sum(corpus, distribution, page)] *)
Definition get_sum (corpus : corpus_t) (distribution : dict R) (page : string)
  : result R :=
  for_each (keys corpus) (of_nat 0) (fun result p =>
    links ← dict_get corpus p;
    if bool_decide (page ∈ links) then
      dp ← dict_get distribution p;
      q ← py_div dp (of_nat (size links));
      Ok (add result q)
    else Ok result).

(** The body of [for page in corpus] in [iterate_pagerank]; the state is
    the distribution being updated in place and the [change] flag. *)
Definition sweep_step (corpus : corpus_t) (damping_factor : R) (total_pages : nat)
    (old_distribution : dict R) (st : dict R * bool) (page : string)
  : result (dict R * bool) :=
  let '(distribution, change) := st in
  base ← py_div (sub (of_nat 1) damping_factor) (of_nat total_pages);
  s ← get_sum corpus distribution page;
  let distribution := dict_set distribution page (add base (mul damping_factor s)) in
  change ← (if change then Ok true
            else
              o ← dict_get old_distribution page;
              n ← dict_get distribution page;
              Ok (gtb (absn (sub o n)) lit_0_001));
  Ok (distribution, change).

(** One pass of the body of [while change]. *)
Definition sweep (corpus : corpus_t) (damping_factor : R) (total_pages : nat)
    (distribution : dict R) : result (dict R * bool) :=
  let change := false in
  let old_distribution := distribution in
  for_each (keys corpus) (distribution, change)
    (sweep_step corpus damping_factor total_pages old_distribution).

(** [while change: ...] on fuel: [None] when the fuel runs out before the
    loop exits. *)
Fixpoint iterate_loop (fuel : nat) (corpus : corpus_t) (damping_factor : R)
    (total_pages : nat) (distribution : dict R) : option (result (dict R)) :=
  match fuel with
  | O => None
  | S fuel' =>
      match sweep corpus damping_factor total_pages distribution with
      | Raise e => Some (Raise e)
      | Ok (distribution', change) =>
          if change
          then iterate_loop fuel' corpus damping_factor total_pages distribution'
          else Some (Ok distribution')
      end
  end.

(** [iterate_pagerank(corpus, damping_factor)] *)
Definition iterate_pagerank (fuel : nat) (corpus : corpus_t) (damping_factor : R)
  : option (result (dict R)) :=
  let total_pages := length corpus in
  match py_div (of_nat 1) (of_nat total_pages) with
  | Raise e => Some (Raise e)
  | Ok init =>
      iterate_loop fuel corpus damping_factor total_pages
        (fromkeys (keys corpus) init)
  end.

End Program.

(** ** The loader *)

(** The double quote and the closing angle bracket. *)
Definition quote : Ascii.ascii := Ascii.ascii_of_nat 34.
Definition gt_char : Ascii.ascii := Ascii.ascii_of_nat 62.

(** [\s] on a character: the white space of [str.isspace] among the code
    points below 256 (tab to carriage return, the separators 28 to 31,
    space, next line, no-break space). A [string] stands for a Python
    [str] of such code points. *)
Definition is_space (c : Ascii.ascii) : bool :=
  let n := Ascii.nat_of_ascii c in
  ((9 <=? n)%nat && (n <=? 13)%nat) || ((28 <=? n)%nat && (n <=? 32)%nat)
  || (n =? 133)%nat || (n =? 160)%nat.

(** The regular expressions the loader needs: literal text, a repeated
    character class ([cls*] and [cls+], greedy or lazy), the capturing group
    and concatenation. *)
Inductive regex : Type :=
  | Lit (text : string)
  | Rep (cls : Ascii.ascii → bool) (least : nat) (greedy : bool)
  | Grp (r : regex)
  | Cat (r1 r2 : regex).

(** The backtracking matcher of [re], in continuation-passing style: [k]
    is what remains to be matched after the expression at hand. *)
Section Matcher.
Context {X : Type}.

Fixpoint lit (text s : string) (k : string → option X) : option X :=
  match text with
  | String.EmptyString => k s
  | String.String c text' =>
      match s with
      | String.String c' s' => if Ascii.eqb c c' then lit text' s' k else None
      | String.EmptyString => None
      end
  end.

Fixpoint rep_least (cls : Ascii.ascii → bool) (n : nat) (s : string) (k : string → option X)
  : option X :=
  match n with
  | O => k s
  | S n' =>
      match s with
      | String.String c s' => if cls c then rep_least cls n' s' k else None
      | String.EmptyString => None
      end
  end.

(** Greedy: the longest run first, then shorter ones. *)
Fixpoint rep_greedy (cls : Ascii.ascii → bool) (s : string) (k : string → option X) : option X :=
  match s with
  | String.String c s' =>
      if cls c then
        match rep_greedy cls s' k with
        | Some x => Some x
        | None => k s
        end
      else k s
  | String.EmptyString => k s
  end.

(** Lazy: the shortest run first, then longer ones. *)
Fixpoint rep_lazy (cls : Ascii.ascii → bool) (s : string) (k : string → option X) : option X :=
  match k s with
  | Some x => Some x
  | None =>
      match s with
      | String.String c s' => if cls c then rep_lazy cls s' k else None
      | String.EmptyString => None
      end
  end.

Fixpoint run (r : regex) (s : string) (cap : option string)
    (k : string → option string → option X) : option X :=
  match r with
  | Lit text => lit text s (fun rest => k rest cap)
  | Rep cls least greedy =>
      rep_least cls least s (fun s1 =>
        (if greedy then rep_greedy else rep_lazy) cls s1 (fun rest => k rest cap))
  | Grp r' =>
      run r' s cap (fun rest _ =>
        k rest (Some (String.substring 0 (String.length s - String.length rest) s)))
  | Cat r1 r2 => run r1 s cap (fun s1 cap1 => run r2 s1 cap1 k)
  end.

End Matcher.

(** [re.findall(r, s)] for an expression with one group: the group of each
    match, the matches found from left to right without overlap. *)
Fixpoint findall_loop (fuel : nat) (r : regex) (s : string) : list string :=
  match fuel with
  | O => []
  | S fuel' =>
      let next :=
        match s with
        | String.String _ s' => findall_loop fuel' r s'
        | String.EmptyString => []
        end in
      match run r s None (fun rest cap => Some (rest, cap)) with
      | Some (rest, cap) =>
          let whole := String.substring 0 (String.length s - String.length rest) s in
          default whole cap ::
            (if (String.length rest <? String.length s)%nat
             then findall_loop fuel' r rest else next)
      | None => next
      end
  end.

Definition findall (r : regex) (s : string) : list string :=
  findall_loop (S (String.length s)) r s.

(** The pattern of [crawl]: [<a\s+(?:[^>]*?)href=Q], the capturing group
    of [[^Q]*] and a closing [Q], with [Q] the double quote. That is an
    opening [<a], white space, as few characters other than [>] as
    possible, [href=], and the quoted target, captured. *)
Definition href_pattern : regex :=
  Cat (Lit "<a")
   (Cat (Rep is_space 1 true)
    (Cat (Rep (fun c => negb (Ascii.eqb c gt_char)) 0 false)
     (Cat (Lit ("href=" ++ String.String quote ""))
      (Cat (Grp (Rep (fun c => negb (Ascii.eqb c quote)) 0 true))
           (Lit (String.String quote "")))))).

(** [s.endswith(suffix)] *)
Definition endswith (s suffix : string) : bool :=
  let n := String.length s in
  let m := String.length suffix in
  (m <=? n)%nat && String.eqb (String.substring (n - m) m s) suffix.

(** The exceptions [open(path)] and [f.read()] raise on an entry that is
    not a text file they can read: a directory, a file without read
    permission, a name that is gone, bytes that are no text in the
    encoding, any other failure of the system. *)
Inductive read_exn : Type :=
  | IsADirectoryError
  | PermissionError
  | FileNotFoundError
  | UnicodeDecodeError
  | OSError.

(** An entry of the directory, as [open] and [f.read()] find it: the text
    read, or the exception raised. *)
Inductive file : Type :=
  | Text (contents : string)
  | Unreadable (e : read_exn).

(** How a call that reads files ends: with its value, with an exception of
    the kind the ranking functions raise, or with the exception of the
    entry that could not be read. *)
Inductive loaded (A : Type) : Type :=
  | Loaded (a : A)
  | Faulted (e : exn)
  | ReadFailed (filename : string) (e : read_exn).
Arguments Loaded {A} a.
Arguments Faulted {A} e.
Arguments ReadFailed {A} filename e.

(** The body of the first loop of [crawl], past [os.listdir]: [filename]
    is a name of the directory; a name that does not end in [.html] is
    passed over unopened, any other is opened and read. *)
Definition crawl_read_step (pages : corpus_t) (entry : string * file)
  : loaded corpus_t :=
  let '(filename, f) := entry in
  if negb (endswith filename ".html") then Loaded pages
  else
    match f with
    | Unreadable e => ReadFailed filename e
    | Text contents =>
        let links := findall href_pattern contents in
        Loaded (dict_set pages filename (list_to_set links ∖ {[filename]}))
    end.

(** The first loop of [crawl], stopping at the first exception. *)
Fixpoint crawl_read (listing : list (string * file)) (pages : corpus_t)
  : loaded corpus_t :=
  match listing with
  | [] => Loaded pages
  | entry :: rest =>
      match crawl_read_step pages entry with
      | Loaded pages' => crawl_read rest pages'
      | stopped => stopped
      end
  end.

(** The body of the second loop of [crawl]. *)
Definition crawl_filter_step (pages : corpus_t) (filename : string) : result corpus_t :=
  links ← dict_get pages filename;
  Ok (dict_set pages filename (filter (fun link => link ∈ keys pages) links)).

(** [crawl(directory)], on what the directory holds: the names
    [os.listdir] yields, each with what opening and reading it gives. *)
Definition crawl (listing : list (string * file)) : loaded corpus_t :=
  match crawl_read listing [] with
  | Loaded pages =>
      match for_each (keys pages) pages crawl_filter_step with
      | Ok corpus => Loaded corpus
      | Raise e => Faulted e
      end
  | stopped => stopped
  end.

(** ** Notions the properties are stated with *)

(** The pages that come before [p] in the order [ks]. *)
Fixpoint before (ks : list string) (p : string) : list string :=
  match ks with
  | nil => nil
  | k :: ks' => if decide (k = p) then nil else k :: before ks' p
  end.

(** The examples of the specification. *)
Definition corpus_A : corpus_t := [("A", ∅)].
Definition corpus_AB : corpus_t := [("A", {["B"]}); ("B", ∅)].
Definition corpus_cycle : corpus_t := [("A", {["B"]}); ("B", {["A"]})].
Definition corpus_3 : corpus_t := [("A", {["B"]}); ("B", {["A"]}); ("C", {["A"]})].
Definition damping_Q : Qc := Q2Qc (17 # 20).
Definition damping_F : float := 0.85%float.

(** [SAMPLES], the sample count [main] passes. *)
Definition SAMPLES : nat := Z.to_nat 10000.

(** [crawl] can read the entry: it is a text, or its name does not end in
    [.html] and it is never opened. A listing is readable when every entry
    is. *)
Definition opens (entry : string * file) : bool :=
  match entry.2 with
  | Text _ => true
  | Unreadable _ => negb (endswith entry.1 ".html")
  end.

Definition readable (listing : list (string * file)) : Prop :=
  Forall (fun entry => opens entry = true) listing.

(** What the first loop of [crawl] has recorded for the name [p] once the
    listing is read: the targets found under the last [.html] entry of that
    name, the name itself excluded. *)
Fixpoint recorded (listing : list (string * file)) (p : string) : option (gset string) :=
  match listing with
  | [] => None
  | (name, f) :: rest =>
      match recorded rest p with
      | Some links => Some links
      | None =>
          match f with
          | Text contents =>
              if bool_decide (name = p) && endswith name ".html"
              then Some (list_to_set (findall href_pattern contents) ∖ {[name]})
              else None
          | Unreadable _ => None
          end
      end
  end.

(** Every character of [w] is in the class [cls]. *)
Fixpoint all_chars (cls : Ascii.ascii → bool) (w : string) : bool :=
  match w with
  | String.EmptyString => true
  | String.String c w' => cls c && all_chars cls w'
  end.

(** What an expression matches, declaratively: [matches r w cap cap'] says
    that [r] matches exactly the text [w], the group holding [cap] before
    and [cap'] after. *)
Inductive matches : regex → string → option string → option string → Prop :=
  | matches_lit text cap : matches (Lit text) text cap cap
  | matches_rep cls least greedy w cap :
      (least ≤ String.length w)%nat → all_chars cls w = true →
      matches (Rep cls least greedy) w cap cap
  | matches_grp r w cap cap' :
      matches r w cap cap' → matches (Grp r) w cap (Some w)
  | matches_cat r1 r2 w1 w2 cap cap1 cap2 :
      matches r1 w1 cap cap1 → matches r2 w2 cap1 cap2 →
      matches (Cat r1 r2) (w1 +:+ w2) cap cap2.

(** The text [s] holds an anchor with the target [t]: an opening [<a],
    white space, characters other than [>], [href=] and [t] between double
    quotes, [t] itself without a double quote. *)
Definition anchor_in (s t : string) : Prop :=
  ∃ pre ws mid post,
    s = pre +:+ "<a" +:+ ws +:+ mid +:+ "href=" +:+ String.String quote t
          +:+ String.String quote post
    ∧ ws ≠ ""
    ∧ all_chars is_space ws = true
    ∧ all_chars (fun c => negb (Ascii.eqb c gt_char)) mid = true
    ∧ all_chars (fun c => negb (Ascii.eqb c quote)) t = true.

(** A small site for the examples: an anchor to [target] as HTML text; a
    directory of two pages, a file that is not a page and a subdirectory;
    and the same with a subdirectory whose name ends in [.html]. *)
Definition anchor (target : string) : string :=
  "<a href=" +:+ String.String quote (target +:+ String.String quote ">link</a>").
Definition site_sample : list (string * file) :=
  [("1.html", Text (anchor "2.html" +:+ anchor "1.html" +:+ anchor "x.html"));
   ("2.html", Text ("<p>" +:+ anchor "1.html"));
   ("notes.txt", Text (anchor "1.html"));
   ("images", Unreadable IsADirectoryError)].
Definition site_broken : list (string * file) :=
  [("1.html", Text (anchor "2.html"));
   ("d.html", Unreadable IsADirectoryError);
   ("2.html", Text (anchor "1.html"))].

(** ** The command line *)

(** [round(num / den)] to the nearest integer, ties to the even one, for
    [0 <= num] and [0 < den]: the rounding of Python's float formatting. *)
Definition round_half_even (num den : Z) : Z :=
  let q := (num / den)%Z in
  let r := (num mod den)%Z in
  if (2 * r <? den)%Z then q
  else if (den <? 2 * r)%Z then (q + 1)%Z
  else if Z.even q then q else (q + 1)%Z.

(** The digits of a value given in ten-thousandths, with its sign: the
    integer part, a point and four decimals. *)
Definition fixed_4 (negative : bool) (z : Z) : string :=
  (if negative then "-" else "")
  +:+ pretty (z / 10000)%Z +:+ "."
  +:+ String.substring 1 4 (pretty (10000 + z mod 10000)%Z).

(** What [main] needs of the numbers beside their arithmetic: the literal
    [0.85] of [DAMPING] and the format [{x:.4f}]. *)
Class PyText (R : Type) : Type := {
  lit_0_85 : R;
  format_4f : R → string
}.

(** A binary64 value is formatted from its exact value, correctly rounded
    to four decimals; a zero keeps its sign. *)
#[global] Instance float_text : PyText float := {|
  lit_0_85 := damping_F;
  format_4f x :=
    match Prim2SF x with
    | S754_zero s => fixed_4 s 0
    | S754_infinity s => if s then "-inf" else "inf"
    | S754_nan => "nan"
    | S754_finite s m e =>
        fixed_4 s
          (if (0 <=? e)%Z then (Z.pos m * 2 ^ e * 10000)%Z
           else round_half_even (Z.pos m * 10000) (2 ^ (- e)))
    end
|}.

(** The same format on an exact rational. *)
#[global] Instance Qc_text : PyText Qc := {|
  lit_0_85 := damping_Q;
  format_4f x :=
    fixed_4 (Qnum x <? 0)%Z (round_half_even (Z.abs (Qnum x) * 10000) (Z.pos (Qden x)))
|}.

(** [a <= b] on strings, compared code point by code point. *)
Definition str_le (a b : string) : Prop := String.leb a b = true.

#[global] Instance str_le_dec a b : Decision (str_le a b) :=
  decide (String.leb a b = true).

(** [sorted(ranks)]: the keys in ascending order. *)
Definition sorted (l : list string) : list string := merge_sort str_le l.

(** How a run of [main] ends: it returns, [sys.exit] is called with a
    message, or an exception is left uncaught. *)
Inductive ending : Type :=
  | Returned
  | SystemExit (msg : string)
  | Uncaught (e : exn)
  | UncaughtRead (filename : string) (e : read_exn).

(** The two headings [main] prints, and a line of ranks. *)
Definition sampling_heading : string :=
  "PageRank Results from Sampling (n = " +:+ pretty SAMPLES +:+ ")".
Definition iteration_heading : string := "PageRank Results from Iteration".
Definition usage : string := "Usage: python pagerank.py corpus".

Section Main.
Context {R : Type} `{PyNum R} `{PyText R}.

(** [f"  {page}: {x:.4f}"] *)
Definition rank_line (page : string) (x : R) : string :=
  "  " +:+ page +:+ ": " +:+ format_4f x.

(** [for page in sorted(ranks): print(f"  {page}: {ranks[page]:.4f}")],
    after the lines [out] printed so far. *)
Fixpoint print_ranks (pages : list string) (ranks : dict R) (out : list string)
  : list string * ending :=
  match pages with
  | [] => (out, Returned)
  | page :: pages' =>
      match dict_get ranks page with
      | Ok x => print_ranks pages' ranks (out ++ [rank_line page x])
      | Raise e => (out, Uncaught e)
      end
  end.

(** [main()], for a directory that can be listed: [argv] is [sys.argv],
    [listdir] gives what a directory holds, [u] is the stream of random
    variates and [fuel] bounds the sweeps of the iteration. The result is
    the lines printed and how the run ends. *)
Definition main (argv : list string) (listdir : string → list (string * file))
    (u : nat → R) (fuel : nat) : option (list string * ending) :=
  if negb (length argv =? 2)%nat
  then Some ([], SystemExit usage)
  else
    match py_index argv 1 with
    | Raise e => Some ([], Uncaught e)
    | Ok directory =>
    match crawl (listdir directory) with
    | Faulted e => Some ([], Uncaught e)
    | ReadFailed filename e => Some ([], UncaughtRead filename e)
    | Loaded corpus =>
    match sample_pagerank corpus lit_0_85 SAMPLES u with
    | Raise e => Some ([], Uncaught e)
    | Ok ranks =>
        match print_ranks (sorted (keys ranks)) ranks [sampling_heading] with
        | (out, Returned) =>
            match iterate_pagerank fuel corpus lit_0_85 with
            | None => None
            | Some (Raise e) => Some (out, Uncaught e)
            | Some (Ok ranks) =>
                Some (print_ranks (sorted (keys ranks)) ranks
                        (out ++ [iteration_heading]))
            end
        | stopped => Some stopped
        end
    end end end.

End Main.

Local Open Scope Qc_scope.

(** The sum of a list of rationals, and the total mass of a distribution. *)
Fixpoint sumQc (l : list Qc) : Qc :=
  match l with
  | nil => 0
  | x :: l' => x + sumQc l'
  end.
Definition total (d : dict Qc) : Qc := sumQc (values d).

(** A corpus as the loader builds it: a dictionary (distinct keys) in which
    every link target is itself a page of the corpus. *)
Definition is_dict {V} (d : dict V) : Prop := NoDup (keys d).
Definition closed (corpus : corpus_t) : Prop :=
  ∀ p links, (p, links) ∈ corpus → ∀ q, q ∈ links → q ∈ keys corpus.
Definition no_dangling (corpus : corpus_t) : Prop :=
  ∀ p links, (p, links) ∈ corpus → links ≠ ∅.

(** The value a distribution holds for a page ([0] where it has none). *)
Definition val (d : dict Qc) (k : string) : Qc :=
  match dict_get d k with
  | Ok v => v
  | Raise _ => 0
  end.

(** [sum over pages q whose link set contains p of x(q) / |links(q)|] *)
Definition link_sum (corpus : corpus_t) (x : string → Qc) (p : string) : Qc :=
  sumQc (map (fun '(q, links) =>
               if bool_decide (p ∈ links) then x q / Qc_of_Z (Z.of_nat (size links))
               else 0) corpus).

(** The share of its rank that the page of the entry [pl] passes to [p]. *)
Definition share (pl : string * gset string) (p : string) : Qc :=
  if bool_decide (p ∈ pl.2) then 1 / Qc_of_Z (Z.of_nat (size pl.2)) else 0.

(** The part of its rank that a page passes, within one in-place sweep, to
    pages processed after it ([early]: they read its new rank) and to pages
    processed before it or to itself ([late]: they read its old rank). *)
Definition early (corpus : corpus_t) (pl : string * gset string) : Qc :=
  sumQc (map (fun p => if bool_decide (pl.1 ∈ before (keys corpus) p)
                       then share pl p else 0) (keys corpus)).
Definition late (corpus : corpus_t) (pl : string * gset string) : Qc :=
  sumQc (map (fun p => if bool_decide (pl.1 ∈ before (keys corpus) p)
                       then 0 else share pl p) (keys corpus)).

(** The weighted distance in which an in-place sweep contracts. *)
Definition wnorm (corpus : corpus_t) (damping : Qc) (a : string → Qc) : Qc :=
  sumQc (map (fun pl : string * gset string =>
                (1 - damping * early corpus pl) * a pl.1) corpus).

(** How far a page's rank moved between two distributions. *)
Definition move (x y : dict Qc) (q : string) : Qc := Qcabs (val y q - val x q).

(** The faults the propagation policy wants converted at the boundary. *)
Definition low_level_fault (e : exn) : Prop :=
  match e with
  | KeyError _ | IndexError | ZeroDivisionError => True
  | ValueError => False
  end.

(** The convergence threshold, the literal [0.001]. *)
Definition eps : Qc := Q2Qc (1 # 1000).

(** The number of pages as a rational, and the base mass [(1 - damping) / N]. *)
Definition Qc_of_nat (n : nat) : Qc := Qc_of_Z (Z.of_nat n).
Definition base_mass (corpus : corpus_t) (damping : Qc) : Qc :=
  (1 - damping) / Qc_of_nat (length corpus).

(** The distribution after [k] passes of the body of [while change],
    whatever the [change] flag says. *)
Fixpoint sweeps (k : nat) (corpus : corpus_t) (damping : Qc) (distribution : dict Qc)
  : result (dict Qc) :=
  match k with
  | O => Ok distribution
  | S k' =>
      match sweep corpus damping (length corpus) distribution with
      | Ok (distribution', _) => sweeps k' corpus damping distribution'
      | Raise e => Raise e
      end
  end.

(** The loop body of [sample_pagerank] as the specification words it: the
    next page is drawn from [current_dist], the latest transition
    distribution. *)
Definition sample_step_spec (corpus : corpus_t) (damping_factor : Qc) (u : nat → Qc)
    (st : dict Qc * string) (i : nat) : result (dict Qc * string) :=
  let '(d, page) := st in
  current_dist ← transition_model corpus page damping_factor;
  d ← update_average d current_dist i;
  page ← choices_weighted (keys current_dist) (values current_dist) (u i);
  Ok (d, page).

Definition sample_pagerank_spec (corpus : corpus_t) (damping_factor : Qc) (n : nat)
    (u : nat → Qc) : result (dict Qc) :=
  let d := fromkeys (keys corpus) (of_nat 0) in
  page ← choices_uniform (keys corpus) (u 0%nat);
  st ← for_each (seq 1 (n - 1)) (d, page) (sample_step_spec corpus damping_factor u);
  Ok st.1.

(** A run of the generator: [0] for the start page, [0.6] at every step. *)
Definition draws : nat → Qc :=
  fun i => match i with O => 0 | S _ => Q2Qc (3 # 5) end.

(** Rational values read as plain fractions, for evaluation. *)
Definition dict_Q (d : dict Qc) : dict Q := map (fun kv => (kv.1, this kv.2)) d.
Definition result_Q (r : result (dict Qc)) : result (dict Q) :=
  match r with
  | Ok d => Ok (dict_Q d)
  | Raise e => Raise e
  end.
Definition outcome_Q (o : option (result (dict Qc))) : option (result (dict Q)) :=
  option_map result_Q o.

(** ** Dictionaries and loops *)

Section Dict.
Context {V : Type}.
Implicit Types (d : dict V) (k : string) (v : V).

Lemma keys_dict_set_in d k v : k ∈ keys d → keys (dict_set d k v) = keys d.
Proof.
  induction d as [|[k' v'] d IH]; cbn.
  - by intros ?%elem_of_nil.
  - intros Hin. case_decide; [done|]. cbn. f_equal. apply IH.
    apply elem_of_cons in Hin as [->|]; done.
Qed.

Lemma dict_set_fresh d k v : k ∉ keys d → dict_set d k v = d ++ [(k, v)].
Proof.
  induction d as [|[k' v'] d IH]; cbn; [done|].
  intros Hnin. case_decide as Hk.
  - subst. exfalso. apply Hnin. left.
  - f_equal. apply IH. intros ?. apply Hnin. by right.
Qed.

Lemma dict_get_set_eq d k v : dict_get (dict_set d k v) k = Ok v.
Proof.
  induction d as [|[k' v'] d IH]; cbn.
  - by rewrite decide_True.
  - case_decide; cbn; [by rewrite decide_True|by rewrite decide_False].
Qed.

Lemma dict_get_set_ne d k k' v : k ≠ k' → dict_get (dict_set d k v) k' = dict_get d k'.
Proof.
  intros Hne. induction d as [|[k0 v0] d IH]; cbn.
  - by rewrite decide_False.
  - case_decide; cbn.
    + subst. by rewrite !decide_False.
    + case_decide; [done|apply IH].
Qed.

Lemma dict_get_in d k : k ∈ keys d → ∃ v, dict_get d k = Ok v ∧ (k, v) ∈ d.
Proof.
  induction d as [|[k' v'] d IH]; cbn.
  - by intros ?%elem_of_nil.
  - intros Hin. case_decide as Hk.
    + subst. eexists. split; [done|left].
    + apply elem_of_cons in Hin as [->|Hin]; [done|].
      destruct (IH Hin) as (v & ? & ?). exists v. split; [done|by right].
Qed.

Lemma dict_get_elem d k v : is_dict d → (k, v) ∈ d → dict_get d k = Ok v.
Proof.
  unfold is_dict. induction d as [|[k' v'] d IH]; cbn.
  - by intros _ ?%elem_of_nil.
  - intros [Hnin Hnd]%NoDup_cons Hin. apply elem_of_cons in Hin as [Heq|Hin].
    + simplify_eq. by rewrite decide_True.
    + rewrite decide_False; [by apply IH|].
      intros ->. apply Hnin. apply list_elem_of_fmap. by exists (k, v).
Qed.

Lemma fromkeys_is_map ks v : NoDup ks → fromkeys ks v = map (fun k => (k, v)) ks.
Proof.
  unfold fromkeys. intros Hnd.
  enough (Hgen : ∀ acc : dict V, NoDup (keys acc ++ ks) →
            foldl (fun d k => dict_set d k v) acc ks = acc ++ map (fun k => (k, v)) ks)
    by (apply (Hgen []); done).
  clear Hnd. induction ks as [|k ks IH]; intros acc Hnd; cbn.
  - by rewrite app_nil_r.
  - apply NoDup_app in Hnd as Hnd'. destruct Hnd' as (_ & Hdisj & _).
    rewrite dict_set_fresh by (intros Hin; apply (Hdisj _ Hin); left).
    rewrite IH.
    + by rewrite <-app_assoc.
    + unfold keys in *. rewrite fmap_app. cbn. by rewrite <-app_assoc.
Qed.

End Dict.

#[local] Disable Notation "[ q ]" : Qc_scope.

(** ** Rational arithmetic *)

Lemma Qc_eq_Qeq (x y : Qc) : x = y ↔ (this x == this y)%Q.
Proof. split; [by intros ->|apply Qc_is_canon]. Qed.

(** Goals over [Qc] read over [Q], where [lra] and [nra] decide them. *)
Ltac qc_to_q :=
  repeat match goal with
  | H : @eq Qc _ _ |- _ => apply Qc_eq_Qeq in H
  | H : ¬ @eq Qc _ _ |- _ => rewrite Qc_eq_Qeq in H
  | |- @eq Qc _ _ => apply Qc_eq_Qeq
  | |- ¬ @eq Qc _ _ => rewrite Qc_eq_Qeq
  end;
  unfold Qcle, Qclt, Qcminus, Qcdiv, Qcplus, Qcmult, Qcopp, Q2Qc in *;
  cbn [this] in *;
  rewrite ?Qred_correct in *.

Lemma Qc_of_nat_0 : Qc_of_nat 0 = 0.
Proof. apply Z2Qc_inj_0. Qed.

Lemma Qc_of_nat_S n : Qc_of_nat (S n) = 1 + Qc_of_nat n.
Proof.
  unfold Qc_of_nat. rewrite Nat2Z.inj_succ, <-Z.add_1_l, Z2Qc_inj_add.
  by rewrite Z2Qc_inj_1.
Qed.

Lemma Qc_of_nat_pos n : (0 < n)%nat → 0 < Qc_of_nat n.
Proof.
  intros Hn. unfold Qc_of_nat. rewrite <-Z2Qc_inj_0. apply (proj1 (Z2Qc_inj_lt _ _)). lia.
Qed.

Lemma Qc_of_nat_nonneg n : 0 ≤ Qc_of_nat n.
Proof.
  unfold Qc_of_nat. rewrite <-Z2Qc_inj_0. apply (proj1 (Z2Qc_inj_le _ _)). lia.
Qed.

Lemma Qc_of_nat_ne_0 n : (0 < n)%nat → Qc_of_nat n ≠ 0.
Proof.
  intros Hn%Qc_of_nat_pos Heq. rewrite Heq in Hn. by apply Qclt_not_eq in Hn.
Qed.

Lemma Qcdiv_pos x y : 0 < x → 0 < y → 0 < x / y.
Proof. intros ??. apply Qcmult_pos_pos; [done|by apply Qcinv_pos]. Qed.

Lemma Qcdiv_nonneg x y : 0 ≤ x → 0 < y → 0 ≤ x / y.
Proof.
  intros ? ?%Qcinv_pos. apply Qcmult_nonneg_nonneg; [done|by apply Qclt_le_weak].
Qed.

Lemma is_zero_of_nat n : (0 < n)%nat → is_zero (of_nat n : Qc) = false.
Proof.
  intros Hn. cbn. destruct (Qc_eq_bool _ _) eqn:Heq; [|done].
  apply Qc_eq_bool_correct in Heq. by apply Qc_of_nat_ne_0 in Heq.
Qed.

Lemma py_div_of_nat (x : Qc) n :
  (0 < n)%nat → py_div x (of_nat n) = Ok (x / Qc_of_nat n).
Proof. intros Hn. unfold py_div. by rewrite is_zero_of_nat. Qed.

(** ** Sums *)

Lemma sumQc_const {A} (l : list A) c : sumQc (map (fun _ => c) l) = Qc_of_nat (length l) * c.
Proof.
  induction l as [|x l IH]; cbn -[Qc_of_nat].
  - rewrite Qc_of_nat_0. ring.
  - rewrite IH, Qc_of_nat_S. ring.
Qed.

Lemma sumQc_plus {A} (f g : A → Qc) l :
  sumQc (map (fun x => f x + g x) l) = sumQc (map f l) + sumQc (map g l).
Proof. induction l as [|x l IH]; cbn; [ring|rewrite IH; ring]. Qed.

Lemma sumQc_scale {A} (f : A → Qc) c l :
  sumQc (map (fun x => c * f x) l) = c * sumQc (map f l).
Proof. induction l as [|x l IH]; cbn; [ring|rewrite IH; ring]. Qed.

Lemma sumQc_ext {A} (f g : A → Qc) l :
  (∀ x, x ∈ l → f x = g x) → sumQc (map f l) = sumQc (map g l).
Proof.
  induction l as [|x l IH]; cbn; [done|]. intros Hfg.
  rewrite Hfg by left. f_equal. apply IH. intros ??. apply Hfg. by right.
Qed.

Lemma sumQc_le {A} (f g : A → Qc) l :
  (∀ x, x ∈ l → f x ≤ g x) → sumQc (map f l) ≤ sumQc (map g l).
Proof.
  induction l as [|x l IH]; cbn; [done|]. intros Hfg.
  apply Qcplus_le_compat; [apply Hfg; left|]. apply IH. intros ??. apply Hfg. by right.
Qed.

Lemma sumQc_nonneg {A} (f : A → Qc) l :
  (∀ x, x ∈ l → 0 ≤ f x) → 0 ≤ sumQc (map f l).
Proof.
  induction l as [|x l IH]; cbn; [done|]. intros Hf.
  apply Qcplus_nonneg_nonneg; [apply Hf; left|]. apply IH. intros ??. apply Hf. by right.
Qed.

(** Exchanging two finite sums. *)
Lemma sumQc_exchange {A B} (f : A → B → Qc) (la : list A) (lb : list B) :
  sumQc (map (fun a => sumQc (map (fun b => f a b) lb)) la) =
  sumQc (map (fun b => sumQc (map (fun a => f a b) la)) lb).
Proof.
  induction la as [|a la IH]; cbn.
  - induction lb as [|b lb IHb]; cbn; [done|]. rewrite <-IHb. ring.
  - rewrite IH. by rewrite <-sumQc_plus.
Qed.

(** The pages of a dictionary that lie in a set [L] of its keys are as many
    as [L] has elements. *)
Lemma length_filter_links (ks : list string) (L : gset string) :
  NoDup ks → (∀ q, q ∈ L → q ∈ ks) →
  length (filter (fun k => k ∈ L) ks) = size L.
Proof.
  intros Hnd Hsub. unfold size, set_size. cbn -[elements filter]. apply Permutation_length.
  apply NoDup_Permutation.
  - by apply NoDup_filter.
  - apply NoDup_elements.
  - intros k. rewrite list_elem_of_filter, elem_of_elements.
    split; [by intros [? _]|intros ?; split; [done|by apply Hsub]].
Qed.

Lemma sumQc_indicator {A} (P : A → Prop) `{∀ x, Decision (P x)} (f : A → Qc) l :
  sumQc (map (fun x => if bool_decide (P x) then f x else 0) l) =
  sumQc (map f (filter P l)).
Proof.
  induction l as [|x l IH]; [done|]. rewrite filter_cons. cbn. rewrite IH.
  case_bool_decide.
  - by rewrite decide_True.
  - rewrite decide_False by done. ring.
Qed.

Lemma total_val (d : dict Qc) : is_dict d → total d = sumQc (map (val d) (keys d)).
Proof.
  unfold is_dict, total, values, keys. induction d as [|[k v] d IH]; cbn; [done|].
  intros [Hnin Hnd]%NoDup_cons. unfold val at 1. cbn. rewrite decide_True by done.
  f_equal. rewrite IH by done. apply sumQc_ext. intros k' Hk'.
  unfold val. cbn. rewrite decide_False; [done|]. by intros ->.
Qed.

(** ** Deciding the well-formedness of a corpus *)

Lemma closed_alt (corpus : corpus_t) :
  closed corpus ↔
  Forall (fun pl => pl.2 ⊆ (list_to_set (keys corpus) : gset string)) corpus.
Proof.
  rewrite Forall_forall. unfold closed. split.
  - intros Hc [p links] Hin q Hq. cbn in *. apply elem_of_list_to_set. by eapply Hc.
  - intros Hall p links Hin q Hq. apply (Hall _ Hin) in Hq.
    by apply elem_of_list_to_set in Hq.
Qed.

#[global] Instance closed_dec (corpus : corpus_t) : Decision (closed corpus).
Proof.
  refine (cast_if (decide (Forall (fun pl => pl.2 ⊆ (list_to_set (keys corpus) : gset string))
                             corpus)));
    by rewrite closed_alt.
Defined.

Lemma no_dangling_alt (corpus : corpus_t) :
  no_dangling corpus ↔ Forall (fun pl => pl.2 ≠ (∅ : gset string)) corpus.
Proof.
  rewrite Forall_forall. unfold no_dangling. split.
  - intros Hc [p links] Hin. cbn. by eapply Hc.
  - intros Hall p links Hin. apply (Hall _ Hin).
Qed.

#[global] Instance no_dangling_dec (corpus : corpus_t) : Decision (no_dangling corpus).
Proof.
  refine (cast_if (decide (Forall (fun pl => pl.2 ≠ (∅ : gset string)) corpus)));
    by rewrite no_dangling_alt.
Defined.

#[global] Instance is_dict_dec {V} (d : dict V) : Decision (is_dict d).
Proof. unfold is_dict. apply _. Defined.

(** Closed side conditions on an enumerated corpus are decided by evaluation. *)
Ltac decide_by_eval := apply (bool_decide_unpack _); vm_compute; exact I.

(** ** Lookups in distributions *)

Lemma dict_get_val (d : dict Qc) k : k ∈ keys d → dict_get d k = Ok (val d k).
Proof. intros (v & Hv & _)%dict_get_in. unfold val. by rewrite Hv. Qed.

Lemma val_set_eq (d : dict Qc) k v : val (dict_set d k v) k = v.
Proof. unfold val. by rewrite dict_get_set_eq. Qed.

Lemma val_set_ne (d : dict Qc) k k' v : k ≠ k' → val (dict_set d k v) k' = val d k'.
Proof. intros Hne. unfold val. by rewrite dict_get_set_ne. Qed.

Lemma val_const ks (c : Qc) k : k ∈ ks → val (map (fun k => (k, c)) ks) k = c.
Proof.
  unfold val. induction ks as [|k' ks IH]; cbn.
  - by intros ?%elem_of_nil.
  - intros Hin. case_decide; [done|]. apply IH.
    apply elem_of_cons in Hin as [->|]; done.
Qed.

Lemma elem_of_corpus_keys (corpus : corpus_t) p links :
  (p, links) ∈ corpus → p ∈ keys corpus.
Proof. intros Hin. apply list_elem_of_fmap. by exists (p, links). Qed.

(** ** The transition model *)

(** [for key in corpus: d[key] = x / n] *)
Lemma set_all_loop ks (acc : dict Qc) (x : Qc) n :
  (0 < n)%nat →
  for_each ks acc (fun d key => v ← py_div x (of_nat n); Ok (dict_set d key v)) =
  Ok (foldl (fun d k => dict_set d k (x / Qc_of_nat n)) acc ks).
Proof.
  intros Hn. rewrite py_div_of_nat by done. cbn.
  revert acc. induction ks as [|k ks IH]; intros acc; cbn; [done|apply IH].
Qed.

(** [for key in links: d[key] += x / n] *)
Lemma add_links_loop ls (d : dict Qc) (x : Qc) n :
  (0 < n)%nat → NoDup ls → (∀ k, k ∈ ls → k ∈ keys d) →
  ∃ d', for_each ls d (fun d key =>
          old ← dict_get d key;
          inc ← py_div x (of_nat n);
          Ok (dict_set d key (add old inc))) = Ok d'
    ∧ keys d' = keys d
    ∧ ∀ k, val d' k = if bool_decide (k ∈ ls) then val d k + x / Qc_of_nat n else val d k.
Proof.
  intros Hn. rewrite py_div_of_nat by done. cbn.
  revert d. induction ls as [|key ls IH]; intros d Hnd Hsub.
  - exists d. split_and!; [done..|]. intros k. by rewrite bool_decide_false by apply not_elem_of_nil.
  - apply NoDup_cons in Hnd as [Hnin Hnd].
    assert (Hkey : key ∈ keys d) by (apply Hsub; left).
    destruct (IH (dict_set d key (val d key + x / Qc_of_nat n)) Hnd)
      as (d' & Hrun & Hkeys & Hval).
    { intros k Hk. rewrite keys_dict_set_in by done. apply Hsub. by right. }
    exists d'. split_and!.
    + cbn. rewrite dict_get_val by done. cbn. apply Hrun.
    + by rewrite Hkeys, keys_dict_set_in.
    + intros k. rewrite Hval. destruct (decide (k = key)) as [->|Hne].
      * rewrite bool_decide_false by done. rewrite val_set_eq.
        by rewrite bool_decide_true by left.
      * rewrite val_set_ne by done.
        rewrite (bool_decide_ext (k ∈ key :: ls) (k ∈ ls)); [done|].
        rewrite elem_of_cons. split; [by intros [?|?]|by right].
Qed.

Lemma length_corpus_pos (corpus : corpus_t) p links :
  (p, links) ∈ corpus → (0 < length corpus)%nat.
Proof. destruct corpus; [by intros ?%elem_of_nil|cbn; lia]. Qed.

Lemma size_links_pos (links : gset string) : links ≠ ∅ → (0 < size links)%nat.
Proof.
  intros Hne. destruct (decide (size links = 0%nat)) as [Hz|]; [|lia].
  apply size_empty_iff in Hz. by apply leibniz_equiv in Hz.
Qed.

Lemma of_nat_1 : (of_nat 1 : Qc) = 1.
Proof. apply Z2Qc_inj_1. Qed.

(** The distribution [transition_model] builds for a page with links. *)
Lemma transition_model_linked_spec (corpus : corpus_t) page links (damping : Qc) :
  is_dict corpus → closed corpus → (page, links) ∈ corpus → links ≠ ∅ →
  ∃ dist, transition_model corpus page damping = Ok dist
    ∧ keys dist = keys corpus
    ∧ ∀ k, k ∈ keys corpus →
        val dist k = if bool_decide (k ∈ links)
                     then base_mass corpus damping + damping / Qc_of_nat (size links)
                     else base_mass corpus damping.
Proof.
  intros Hdict Hclosed Hpage Hlinks.
  pose proof (length_corpus_pos _ _ _ Hpage) as HN.
  pose proof (size_links_pos _ Hlinks) as HL.
  unfold transition_model. rewrite (dict_get_elem _ _ _ Hdict Hpage). cbn -[of_nat].
  rewrite bool_decide_true by done.
  rewrite set_all_loop by done. cbn -[of_nat].
  change (foldl _ [] (keys corpus))
    with (fromkeys (keys corpus) (sub (of_nat 1) damping / Qc_of_nat (length corpus))).
  rewrite fromkeys_is_map by done. rewrite of_nat_1. cbn -[of_nat].
  fold (base_mass corpus damping).
  set (d0 := map (fun k => (k, base_mass corpus damping)) (keys corpus)).
  assert (Hk0 : keys d0 = keys corpus).
  { unfold d0, keys. rewrite <-list_fmap_compose. apply list_fmap_id. }
  destruct (add_links_loop (elements links) d0 damping (size links) HL)
    as (dist & Hrun & Hkeys & Hval).
  { apply NoDup_elements. }
  { intros k Hk%elem_of_elements. rewrite Hk0. by eapply Hclosed. }
  exists dist. split_and!; [done|congruence|].
  intros k Hk. rewrite Hval. unfold d0. rewrite val_const by done.
  apply (f_equal (fun b : bool => if b then _ else _)).
  apply bool_decide_ext, elem_of_elements.
Qed.

(** The distribution [transition_model] builds for a dangling page. *)
Lemma transition_model_dangling_spec (corpus : corpus_t) page (damping : Qc) :
  is_dict corpus → (page, ∅) ∈ corpus →
  transition_model corpus page damping =
  Ok (map (fun k => (k, 1 / Qc_of_nat (length corpus))) (keys corpus)).
Proof.
  intros Hdict Hpage.
  pose proof (length_corpus_pos _ _ _ Hpage) as HN.
  unfold transition_model. rewrite (dict_get_elem _ _ _ Hdict Hpage). cbn -[of_nat].
  rewrite bool_decide_false by (by intros []).
  rewrite set_all_loop by done. rewrite of_nat_1.
  change (foldl _ [] (keys corpus))
    with (fromkeys (keys corpus) (1 / Qc_of_nat (length corpus))).
  by rewrite fromkeys_is_map.
Qed.

Lemma closed_links_in_keys (corpus : corpus_t) p links :
  closed corpus → (p, links) ∈ corpus → ∀ q, q ∈ links → q ∈ keys corpus.
Proof. intros Hc Hin. by apply (Hc p links). Qed.

(** The mass a page with links spreads: the base mass on all [N] pages and
    [damping / |links|] on each linked page, [1] in all. *)
Lemma sum_linked (corpus : corpus_t) (links : gset string) (damping : Qc) :
  is_dict corpus → (0 < length corpus)%nat → links ≠ ∅ →
  (∀ q, q ∈ links → q ∈ keys corpus) →
  sumQc (map (fun k => if bool_decide (k ∈ links)
                       then base_mass corpus damping + damping / Qc_of_nat (size links)
                       else base_mass corpus damping) (keys corpus)) = 1.
Proof.
  intros Hdict HN Hlinks Hsub.
  rewrite (sumQc_ext _ (fun k => base_mass corpus damping +
             (if bool_decide (k ∈ links) then damping / Qc_of_nat (size links) else 0))).
  2: { intros k _. case_bool_decide; ring. }
  rewrite sumQc_plus, sumQc_const.
  rewrite (sumQc_indicator (fun k => k ∈ links)), sumQc_const.
  rewrite length_filter_links by done.
  unfold keys at 1. rewrite length_fmap. unfold base_mass.
  apply Qc_of_nat_ne_0 in HN. apply size_links_pos, Qc_of_nat_ne_0 in Hlinks.
  by field.
Qed.

(** The same distribution in any arithmetic in which the two counts are not
    zero as numbers: what each page gets, as the arithmetic computes it. *)
Section AnyArithmetic.
Context {R : Type} `{PyNum R}.

Lemma dict_get_const {V} ks (c : V) k :
  k ∈ ks → dict_get (map (fun k => (k, c)) ks) k = Ok c.
Proof.
  induction ks as [|k' ks IH]; cbn.
  - by intros ?%elem_of_nil.
  - intros Hin. case_decide; [done|]. apply IH.
    apply elem_of_cons in Hin as [->|]; done.
Qed.

Lemma set_all_loop_any ks (acc : dict R) (x : R) n :
  is_zero (of_nat n : R) = false →
  for_each ks acc (fun d key => v ← py_div x (of_nat n); Ok (dict_set d key v)) =
  Ok (foldl (fun d k => dict_set d k (div x (of_nat n))) acc ks).
Proof.
  intros Hn. unfold py_div. rewrite Hn. cbn.
  revert acc. induction ks as [|k ks IH]; intros acc; cbn; [done|apply IH].
Qed.

Lemma add_links_loop_any ls (d : dict R) (x : R) n :
  is_zero (of_nat n : R) = false → NoDup ls → (∀ k, k ∈ ls → k ∈ keys d) →
  ∃ d', for_each ls d (fun d key =>
          old ← dict_get d key;
          inc ← py_div x (of_nat n);
          Ok (dict_set d key (add old inc))) = Ok d'
    ∧ keys d' = keys d
    ∧ ∀ k v, dict_get d k = Ok v →
        dict_get d' k = Ok (if bool_decide (k ∈ ls) then add v (div x (of_nat n)) else v).
Proof.
  intros Hn. unfold py_div. rewrite Hn. cbn.
  revert d. induction ls as [|key ls IH]; intros d Hnd Hsub.
  - exists d. split_and!; [done..|]. intros k v Hv.
    by rewrite bool_decide_false by apply not_elem_of_nil.
  - apply NoDup_cons in Hnd as [Hnin Hnd].
    assert (Hkey : key ∈ keys d) by (apply Hsub; left).
    destruct (dict_get_in d key Hkey) as (old & Hold & _).
    destruct (IH (dict_set d key (add old (div x (of_nat n)))) Hnd)
      as (d' & Hrun & Hkeys & Hval).
    { intros k Hk. rewrite keys_dict_set_in by done. apply Hsub. by right. }
    exists d'. split_and!.
    + cbn. rewrite Hold. cbn. apply Hrun.
    + by rewrite Hkeys, keys_dict_set_in.
    + intros k v Hv. destruct (decide (k = key)) as [->|Hne].
      * rewrite (Hval key (add old (div x (of_nat n)))) by apply dict_get_set_eq.
        rewrite bool_decide_false by done. rewrite bool_decide_true by left.
        congruence.
      * rewrite (Hval k v) by (by rewrite dict_get_set_ne).
        rewrite (bool_decide_ext (k ∈ key :: ls) (k ∈ ls)); [done|].
        rewrite elem_of_cons. split; [by intros [?|?]|by right].
Qed.

Lemma transition_model_linked_any (corpus : corpus_t) page links (damping : R) :
  is_dict corpus → closed corpus → (page, links) ∈ corpus → links ≠ ∅ →
  is_zero (of_nat (length corpus) : R) = false →
  is_zero (of_nat (size links) : R) = false →
  ∃ dist, transition_model corpus page damping = Ok dist
    ∧ keys dist = keys corpus
    ∧ ∀ q, q ∈ keys corpus →
        dict_get dist q =
        Ok (if bool_decide (q ∈ links)
            then add (div (sub (of_nat 1) damping) (of_nat (length corpus)))
                     (div damping (of_nat (size links)))
            else div (sub (of_nat 1) damping) (of_nat (length corpus))).
Proof.
  intros Hdict Hclosed Hpage Hlinks HN HL.
  unfold transition_model. rewrite (dict_get_elem _ _ _ Hdict Hpage). cbn -[of_nat].
  rewrite bool_decide_true by done.
  rewrite set_all_loop_any by done. cbn -[of_nat].
  change (foldl _ [] (keys corpus))
    with (fromkeys (keys corpus) (div (sub (of_nat 1) damping) (of_nat (length corpus)))).
  rewrite fromkeys_is_map by done.
  set (base := div (sub (of_nat 1) damping) (of_nat (length corpus))).
  set (d0 := map (fun k => (k, base)) (keys corpus)).
  assert (Hk0 : keys d0 = keys corpus).
  { unfold d0, keys. rewrite <-list_fmap_compose. apply list_fmap_id. }
  destruct (add_links_loop_any (elements links) d0 damping (size links) HL)
    as (dist & Hrun & Hkeys & Hval).
  { apply NoDup_elements. }
  { intros k Hk%elem_of_elements. rewrite Hk0. by eapply Hclosed. }
  exists dist. split_and!; [done|congruence|].
  intros q Hq. rewrite (Hval q base) by (by apply dict_get_const).
  f_equal. apply (f_equal (fun b : bool => if b then _ else _)).
  apply bool_decide_ext, elem_of_elements.
Qed.

End AnyArithmetic.

(** C5 (as the code has it). For a corpus as the loader builds it and a
    page of it with at least one link, [transition_model] returns a
    distribution over exactly the corpus's pages, in which every page
    without a link from the page has the value of [(1 - damping)/N] and
    every linked page the value of [(1 - damping)/N + damping/|links|], each
    as the arithmetic in use computes it: so in binary64, every operation
    rounded, and in any arithmetic in which the two counts are not zero as
    numbers. In exact rational arithmetic, for a damping factor in (0,1),
    the values sum to 1 (so within 1e-9 of it) and a linked page has
    strictly more than [(1 - damping)/N]. *)
Theorem transition_model_linked (corpus : corpus_t) page links :
  is_dict corpus → closed corpus → (page, links) ∈ corpus → links ≠ ∅ →
  (∀ (R : Type) (num : PyNum R) (damping : R),
     is_zero (of_nat (length corpus) : R) = false →
     is_zero (of_nat (size links) : R) = false →
     ∃ dist, transition_model corpus page damping = Ok dist
       ∧ keys dist = keys corpus
       ∧ (∀ q, q ∈ links →
            dict_get dist q =
            Ok (add (div (sub (of_nat 1) damping) (of_nat (length corpus)))
                    (div damping (of_nat (size links)))))
       ∧ (∀ q, q ∈ keys corpus → q ∉ links →
            dict_get dist q =
            Ok (div (sub (of_nat 1) damping) (of_nat (length corpus)))))
  ∧ (∀ damping : Qc, 0 < damping < 1 →
     ∃ dist, transition_model corpus page damping = Ok dist
       ∧ keys dist = keys corpus
       ∧ total dist = 1
       ∧ Qcabs (total dist - 1) ≤ Q2Qc (1 # 1000000000)
       ∧ (∀ q, q ∈ links →
            dict_get dist q =
              Ok ((1 - damping) / Qc_of_nat (length corpus)
                  + damping / Qc_of_nat (size links))
            ∧ (1 - damping) / Qc_of_nat (length corpus) <
              (1 - damping) / Qc_of_nat (length corpus)
              + damping / Qc_of_nat (size links))
       ∧ (∀ q, q ∈ keys corpus → q ∉ links →
            dict_get dist q = Ok ((1 - damping) / Qc_of_nat (length corpus)))).
Proof.
  intros Hdict Hclosed Hpage Hlinks.
  pose proof (closed_links_in_keys _ _ _ Hclosed Hpage) as Hsub. split.
  - intros R num damping HN HL.
    destruct (transition_model_linked_any corpus page links damping)
      as (dist & Hrun & Hkeys & Hval); [done..|].
    exists dist. split_and!; [done..| |].
    + intros q Hq. rewrite Hval by (by apply Hsub). by rewrite bool_decide_true.
    + intros q Hq Hnot. rewrite Hval by done. by rewrite bool_decide_false.
  - intros damping [Hd0 Hd1].
    destruct (transition_model_linked_spec corpus page links damping)
      as (dist & Hrun & Hkeys & Hval); [done..|].
    assert (Htotal : total dist = 1).
    { rewrite total_val by (unfold is_dict; by rewrite Hkeys).
      rewrite Hkeys, (sumQc_ext _ _ _ Hval).
      apply sum_linked; [done|by eapply length_corpus_pos|done..]. }
    exists dist. split_and!; [done..| | |].
    + rewrite Htotal. by vm_compute.
    + intros q Hq. split.
      * rewrite dict_get_val by (rewrite Hkeys; by apply Hsub).
        rewrite Hval by (by apply Hsub). by rewrite bool_decide_true.
      * rewrite <-(Qcplus_0_r ((1 - damping) / _)) at 1.
        apply Qcplus_lt_mono_l, Qcdiv_pos; [done|].
        by apply Qc_of_nat_pos, size_links_pos.
    + intros q Hq Hnot. rewrite dict_get_val by (by rewrite Hkeys).
      rewrite Hval by done. by rewrite bool_decide_false.
Qed.

(** The scenario of the specification in binary64: the page [A] of
    [{A: {B}, B: {}}] goes to [B] with the base mass plus the whole damping
    (0.075 and 0.925 to the nearest doubles), and the two add up to exactly
    1.0. *)
Example transition_model_linked_float :
  transition_model corpus_AB "A" damping_F =
    Ok (("A", 0.075000000000000011%float) :: ("B", 0.92500000000000004%float) :: nil)
  ∧ (0.075000000000000011 + 0.92500000000000004 =? 1)%float = true
  ∧ (0.075000000000000011 <? 0.92500000000000004)%float = true.
Proof. split_and!; vm_compute; reflexivity. Qed.

(** In binary64 the two counts of [{A: {B}, B: {}}] at the page [A] are
    not zero, so for every damping factor, whatever double it is, the
    linked page [B] gets the rounded sum of the two rounded quotients and
    the page [A] the first quotient. *)
Example transition_model_linked_binary64 (damping : float) :
  ∃ dist, transition_model corpus_AB "A" damping = Ok dist
    ∧ dict_get dist "B" = Ok (PrimFloat.add (PrimFloat.div (PrimFloat.sub 1 damping) 2)
                                (PrimFloat.div damping 1))
    ∧ dict_get dist "A" = Ok (PrimFloat.div (PrimFloat.sub 1 damping) 2).
Proof.
  destruct (transition_model_linked_any corpus_AB "A" {["B"]} damping)
    as (dist & Hrun & _ & Hval); [decide_by_eval|decide_by_eval|left|decide_by_eval|done..|].
  exists dist. split_and!; [done| |].
  - by rewrite (Hval "B") by decide_by_eval.
  - by rewrite (Hval "A") by decide_by_eval.
Qed.

(** The theorem at the page [A] of [{A: {B}, B: {}}]. *)
Lemma transition_model_linked_witness :
  (∀ (R : Type) (num : PyNum R) (damping : R),
     is_zero (of_nat (length corpus_AB) : R) = false →
     is_zero (of_nat (size ({["B"]} : gset string)) : R) = false →
     ∃ dist, transition_model corpus_AB "A" damping = Ok dist
       ∧ keys dist = keys corpus_AB
       ∧ (∀ q, q ∈ ({["B"]} : gset string) →
            dict_get dist q =
            Ok (add (div (sub (of_nat 1) damping) (of_nat (length corpus_AB)))
                    (div damping (of_nat (size ({["B"]} : gset string))))))
       ∧ (∀ q, q ∈ keys corpus_AB → q ∉ ({["B"]} : gset string) →
            dict_get dist q =
            Ok (div (sub (of_nat 1) damping) (of_nat (length corpus_AB)))))
  ∧ (∀ damping : Qc, 0 < damping < 1 →
     ∃ dist, transition_model corpus_AB "A" damping = Ok dist
       ∧ keys dist = keys corpus_AB
       ∧ total dist = 1
       ∧ Qcabs (total dist - 1) ≤ Q2Qc (1 # 1000000000)
       ∧ (∀ q, q ∈ ({["B"]} : gset string) →
            dict_get dist q =
              Ok ((1 - damping) / Qc_of_nat (length corpus_AB)
                  + damping / Qc_of_nat (size ({["B"]} : gset string)))
            ∧ (1 - damping) / Qc_of_nat (length corpus_AB) <
              (1 - damping) / Qc_of_nat (length corpus_AB)
              + damping / Qc_of_nat (size ({["B"]} : gset string)))
       ∧ (∀ q, q ∈ keys corpus_AB → q ∉ ({["B"]} : gset string) →
            dict_get dist q = Ok ((1 - damping) / Qc_of_nat (length corpus_AB)))).
Proof.
  apply (transition_model_linked corpus_AB "A" {["B"]}).
  - decide_by_eval.
  - decide_by_eval.
  - left.
  - decide_by_eval.
Defined.

(** C5 (as the claim has it) fails in binary64: a damping factor in (0,1)
    can be so small that adding [damping/|links|] to [(1 - damping)/N]
    changes nothing. At damping 1e-20 the page [A] of [{A: {B}, B: {}}]
    gives [{A: 0.5, B: 0.5}]: the linked page [B] has exactly the value of
    [(1 - damping)/N], not more. *)
Lemma transition_model_linked_not_strict :
  (0 <? 1e-20)%float = true ∧ (1e-20 <? 1)%float = true
  ∧ transition_model corpus_AB "A" 1e-20%float =
    Ok (("A", 0.5%float) :: ("B", 0.5%float) :: nil)
  ∧ div (sub (of_nat 1) 1e-20%float) (of_nat (length corpus_AB)) = 0.5%float
  ∧ ¬ (∀ damping : float,
         ltb (of_nat 0) damping = true → ltb damping (of_nat 1) = true →
         ∀ dist v, transition_model corpus_AB "A" damping = Ok dist →
           dict_get dist "B" = Ok v →
           ltb (div (sub (of_nat 1) damping) (of_nat (length corpus_AB))) v = true).
Proof.
  split_and!; try (vm_compute; reflexivity).
  intros Hall.
  specialize (Hall 1e-20%float eq_refl eq_refl
                (("A", 0.5%float) :: ("B", 0.5%float) :: nil) 0.5%float eq_refl eq_refl).
  vm_compute in Hall. discriminate Hall.
Qed.

(** ** Evaluating the rational instance *)

Lemma dict_Q_inj d1 d2 : dict_Q d1 = dict_Q d2 → d1 = d2.
Proof.
  revert d2. induction d1 as [|[k1 v1] d1 IH]; intros [|[k2 v2] d2]; cbn; try done.
  intros Heq. injection Heq as -> Hv Hd. f_equal; [|by apply IH].
  f_equal. apply Qc_is_canon. by rewrite Hv.
Qed.

Lemma result_Q_inj r1 r2 : result_Q r1 = result_Q r2 → r1 = r2.
Proof.
  destruct r1, r2; cbn; try done; intros Heq; simplify_eq; [|done].
  f_equal. by apply dict_Q_inj.
Qed.

Lemma outcome_Q_inj o1 o2 : outcome_Q o1 = outcome_Q o2 → o1 = o2.
Proof.
  destruct o1, o2; cbn; try done. intros Heq. simplify_eq.
  f_equal. by apply result_Q_inj.
Qed.

(** Closed equations between rational runs are decided by evaluation. *)
Ltac run_Q :=
  first [apply outcome_Q_inj | apply result_Q_inj | apply dict_Q_inj | apply Qc_is_canon];
  vm_compute; reflexivity.

(** C6. For a page of the corpus without links, [transition_model] returns
    the uniform distribution, [1/N] on every page of the corpus, whatever the
    damping factor; for the corpus [{A: {B}, B: {}}] and damping 0.85 the
    distribution of [B] is [{A: 0.5, B: 0.5}], in rational arithmetic and in
    binary64 alike. *)
Theorem transition_model_dangling :
  (∀ (corpus : corpus_t) page (damping : Qc),
     is_dict corpus → (page, ∅) ∈ corpus →
     transition_model corpus page damping =
     Ok (map (fun k => (k, 1 / Qc_of_nat (length corpus))) (keys corpus)))
  ∧ transition_model corpus_AB "B" damping_Q =
    Ok (("A", Q2Qc (1 # 2)) :: ("B", Q2Qc (1 # 2)) :: nil)
  ∧ transition_model corpus_AB "B" damping_F =
    Ok (("A", 0.5%float) :: ("B", 0.5%float) :: nil).
Proof.
  split_and!.
  - apply transition_model_dangling_spec.
  - rewrite transition_model_dangling_spec; [|decide_by_eval|right; left].
    run_Q.
  - vm_compute. reflexivity.
Qed.

(** The general part at the page [B] of [{A: {B}, B: {}}], damping 1/3. *)
Lemma transition_model_dangling_witness :
  transition_model corpus_AB "B" (Q2Qc (1 # 3)) =
  Ok (map (fun k => (k, 1 / Qc_of_nat (length corpus_AB))) (keys corpus_AB)).
Proof.
  apply (proj1 transition_model_dangling corpus_AB "B" (Q2Qc (1 # 3))).
  - decide_by_eval.
  - right; left.
Defined.

(** ** The sampling estimator *)

Lemma py_index_nil {A} (i : Z) : py_index (@nil A) i = Raise IndexError.
Proof. unfold py_index. rewrite lookup_nil. by case_match. Qed.

Lemma py_index_in_range {A} (l : list A) (i : Z) :
  (0 ≤ i < Z.of_nat (length l))%Z → ∃ x, py_index l i = Ok x ∧ x ∈ l.
Proof.
  intros [Hlo Hhi]. unfold py_index.
  rewrite (proj2 (Z.ltb_ge i 0)) by done. rewrite (proj2 (Z.ltb_ge i 0)) by done.
  destruct (lookup_lt_is_Some_2 l (Z.to_nat i)) as [x Hx]; [lia|].
  exists x. rewrite Hx. split; [done|]. by eapply list_elem_of_lookup_2.
Qed.

(** The uniform draw succeeds on a non-empty population, the variate being
    one of [random.random()], in [[0, 1)]. *)
Lemma choices_uniform_ok (population : list string) (u : Qc) :
  population ≠ [] → 0 ≤ u < 1 →
  ∃ page, choices_uniform population u = Ok page ∧ page ∈ population.
Proof.
  intros Hne [Hu0 Hu1]. unfold choices_uniform. apply py_index_in_range.
  assert (Hn : (0 < length population)%nat) by (destruct population; [done|cbn; lia]).
  cbn -[Qc_of_Z]. fold (Qc_of_nat (length population)).
  pose proof (Qc_of_nat_pos _ Hn) as Hpos.
  set (x := u * Qc_of_nat (length population)).
  assert (Hx0 : 0 ≤ x) by (apply Qcmult_nonneg_nonneg; [done|by apply Qclt_le_weak]).
  assert (Hx1 : x < Qc_of_nat (length population)).
  { unfold x. rewrite <-(Qcmult_1_l (Qc_of_nat _)) at 2.
    by apply Qcmult_lt_mono_pos_r. }
  split.
  - change 0%Z with (Qfloor 0). by apply Qfloor_resp_le.
  - pose proof (Qfloor_le x) as Hfl.
    apply Z2Qc_inj_lt. unfold Qc_of_nat in Hx1. unfold Qclt, Qcle in *.
    cbn [this Qc_of_Z] in *. by eapply Qle_lt_trans.
Qed.

(** C8. For a non-empty corpus and any damping factor, [sample_pagerank]
    with [n = 1] draws the start page, runs the loop body no time, and
    returns the initial accumulator: every page of the corpus at 0. The
    variate consumed by the start draw is one of [random.random()]. *)
Theorem sample_pagerank_one (corpus : corpus_t) (damping : Qc) (u : nat → Qc) :
  is_dict corpus → corpus ≠ [] → 0 ≤ u 0%nat < 1 →
  sample_pagerank corpus damping 1 u = Ok (map (fun k => (k, 0)) (keys corpus)).
Proof.
  intros Hdict Hne Hu. unfold sample_pagerank.
  destruct (choices_uniform_ok (keys corpus) (u 0%nat)) as (page & -> & _); [|done|].
  { destruct corpus; [done|by cbn]. }
  cbn -[fromkeys of_nat]. rewrite fromkeys_is_map by done.
  change (@of_nat Qc _ 0) with (Qc_of_Z 0). by rewrite Z2Qc_inj_0.
Qed.

(** The theorem on [{A: {B}, B: {A}}], damping 0.85. *)
Lemma sample_pagerank_one_witness :
  sample_pagerank corpus_cycle damping_Q 1 draws =
  Ok (map (fun k => (k, 0)) (keys corpus_cycle)).
Proof.
  apply (sample_pagerank_one corpus_cycle damping_Q draws).
  - decide_by_eval.
  - discriminate.
  - split; reflexivity || discriminate.
Defined.

(** The same call in binary64, the start page drawn on the variate 0.6. *)
Example sample_pagerank_one_float :
  sample_pagerank corpus_cycle damping_F 1 (fun _ => 0.6%float) =
  Ok (("A", 0%float) :: ("B", 0%float) :: nil).
Proof. vm_compute. reflexivity. Qed.

(** C1. At step [i = 2] of a walk on [{A: {B}, B: {A}}] with damping 0.85,
    the accumulator is [{A: 1/2, B: 1/2}] while the latest transition
    distribution is that of [B], [{A: 37/40, B: 3/40}]. On the variate 0.6
    the code, which hands [random.choices] the accumulator [d], draws [B];
    drawn from [current_dist] as the specification says, the page is [A].
    With [n = 4] the returned estimates differ accordingly. *)
Theorem sample_step_draws_from_accumulator :
  let acc1 := (("A", Q2Qc (3 # 40)) :: ("B", Q2Qc (37 # 40)) :: nil) in
  result_Q (transition_model corpus_cycle "B" damping_Q) =
    Ok (("A", 37 # 40) :: ("B", 3 # 40) :: nil)%Q
  ∧ result_Q (st ← sample_step corpus_cycle damping_Q draws (acc1, "B") 2; Ok st.1) =
    Ok (("A", 1 # 2) :: ("B", 1 # 2) :: nil)%Q
  ∧ (st ← sample_step corpus_cycle damping_Q draws (acc1, "B") 2; Ok st.2) = Ok "B"
  ∧ (st ← sample_step_spec corpus_cycle damping_Q draws (acc1, "B") 2; Ok st.2) = Ok "A"
  ∧ result_Q (sample_pagerank corpus_cycle damping_Q 4 draws) =
    Ok (("A", 77 # 120) :: ("B", 43 # 120) :: nil)%Q
  ∧ result_Q (sample_pagerank_spec corpus_cycle damping_Q 4 draws) =
    Ok (("A", 43 # 120) :: ("B", 77 # 120) :: nil)%Q.
Proof. cbv zeta. split_and!; vm_compute; reflexivity. Qed.

(** The same walk in binary64. *)
Example sample_pagerank_float :
  sample_pagerank corpus_cycle damping_F 4
    (fun i => match i with O => 0%float | S _ => 0.6%float end) =
  Ok (("A", 0.64166666666666672%float) :: ("B", 0.35833333333333334%float) :: nil).
Proof. vm_compute. reflexivity. Qed.

(** On the first pass the accumulator is the transition distribution itself,
    so that draw is the one the specification describes. *)
Lemma update_average_first (d current_dist : dict Qc) :
  is_dict d → keys current_dist = keys d →
  ∃ d', update_average d current_dist 1 = Ok d'
    ∧ keys d' = keys d ∧ ∀ k, k ∈ keys d → val d' k = val current_dist k.
Proof.
  intros Hdict Hkeys. unfold update_average.
  enough (Hgen : ∀ ks acc, keys acc = keys d → (∀ k, k ∈ ks → k ∈ keys d) →
            ∃ d', for_each ks acc (fun d _page =>
                    old ← dict_get d _page;
                    cur ← dict_get current_dist _page;
                    v ← py_div (add (mul (of_nat (1 - 1)) old) cur) (of_nat 1);
                    Ok (dict_set d _page v)) = Ok d'
              ∧ keys d' = keys d
              ∧ ∀ k, val d' k = if bool_decide (k ∈ ks) then val current_dist k
                                else val acc k).
  { destruct (Hgen (keys d) d) as (d' & Hrun & Hk & Hv); [done..|].
    exists d'. split_and!; [done..|]. intros k Hin. by rewrite Hv, bool_decide_true. }
  induction ks as [|key ks IH]; intros acc Hacc Hsub.
  - exists acc. split_and!; [done..|]. intros k.
    by rewrite bool_decide_false by apply not_elem_of_nil.
  - assert (Hkey : key ∈ keys d) by (apply Hsub; left).
    destruct (IH (dict_set acc key (val current_dist key))) as (d' & Hrun & Hk & Hv).
    { rewrite keys_dict_set_in; [done|by rewrite Hacc]. }
    { intros k ?. apply Hsub. by right. }
    exists d'. split_and!; [|done|].
    + cbn -[of_nat]. rewrite (dict_get_val acc key) by (by rewrite Hacc). cbn -[of_nat].
      rewrite (dict_get_val current_dist key) by (by rewrite Hkeys). cbn -[of_nat].
      rewrite py_div_of_nat by lia. cbn -[of_nat Qc_of_nat].
      replace ((of_nat 0 * val acc key + val current_dist key) / Qc_of_nat 1)
        with (val current_dist key); [done|].
      change (@of_nat Qc _ 0) with (Qc_of_nat 0). rewrite Qc_of_nat_0.
      change (Qc_of_nat 1) with (Qc_of_Z 1). rewrite Z2Qc_inj_1.
      rewrite Qcmult_0_l, Qcplus_0_l. symmetry. apply (right_id 1 Qcdiv).
    + intros k. rewrite Hv. destruct (decide (k = key)) as [->|Hne].
      * rewrite (bool_decide_true (key ∈ key :: ks)) by left.
        case_bool_decide; [done|]. by rewrite val_set_eq.
      * rewrite val_set_ne by done.
        rewrite (bool_decide_ext (k ∈ key :: ks) (k ∈ ks)); [done|].
        rewrite elem_of_cons. split; [by intros [?|?]|by right].
Qed.

Lemma dict_val_ext (d1 d2 : dict Qc) :
  is_dict d1 → keys d1 = keys d2 → (∀ k, k ∈ keys d1 → val d1 k = val d2 k) → d1 = d2.
Proof.
  unfold is_dict. revert d2.
  induction d1 as [|[k1 v1] d1 IH]; intros [|[k2 v2] d2]; cbn; try done.
  intros [Hnin Hnd]%NoDup_cons Hkeys Hval. injection Hkeys as -> Hkeys.
  f_equal.
  - f_equal. specialize (Hval k2 ltac:(left)). unfold val in Hval. cbn in Hval.
    by rewrite !decide_True in Hval.
  - apply IH; [done..|]. intros k Hk. specialize (Hval k ltac:(by right)).
    unfold val in *. cbn in Hval. rewrite !decide_False in Hval; [done|..];
      by intros ->.
Qed.

(** At [i = 1] the code's draw is the specification's: the accumulator it
    draws from has just become [current_dist]. *)
Lemma sample_step_first (corpus : corpus_t) (damping : Qc) u (d : dict Qc) page :
  is_dict d →
  (∀ dist, transition_model corpus page damping = Ok dist → keys dist = keys d) →
  sample_step corpus damping u (d, page) 1 = sample_step_spec corpus damping u (d, page) 1.
Proof.
  intros Hdict Hkeys. unfold sample_step, sample_step_spec.
  destruct (transition_model corpus page damping) as [dist|e] eqn:Hrun; [|done].
  cbn -[update_average]. specialize (Hkeys dist eq_refl).
  destruct (update_average_first d dist Hdict Hkeys) as (d' & -> & Hk & Hv).
  cbn. replace d' with dist; [done|]. symmetry. apply dict_val_ext.
  - unfold is_dict. by rewrite Hk.
  - congruence.
  - intros k Hin. apply Hv. by rewrite <-Hk.
Qed.

Lemma empty_corpus_faults_aux :
  (∀ (R : Type) (num : PyNum R) (damping : R) (n : nat) (u : nat → R),
     sample_pagerank [] damping n u = Raise IndexError)
  ∧ (∀ fuel (damping : Qc),
       iterate_pagerank fuel [] damping = Some (Raise ZeroDivisionError))
  ∧ (∀ fuel (damping : float),
       iterate_pagerank fuel [] damping = Some (Raise ZeroDivisionError)).
Proof.
  split_and!.
  - intros R num damping n u. unfold sample_pagerank, choices_uniform, keys.
    rewrite fmap_nil. by rewrite py_index_nil.
  - intros fuel damping. reflexivity.
  - intros fuel damping. reflexivity.
Qed.

(** C7 (as the code has it). On the empty corpus [sample_pagerank] fails at
    the start-page draw, [random.choices] indexing an empty list, with the
    [IndexError] raised there, and [iterate_pagerank] fails at [1.0 / 0] with
    [ZeroDivisionError]: both faults leave the ranking functions as they
    arose, in any arithmetic for the first and in rational and binary64
    arithmetic for the second. *)
Theorem empty_corpus_faults :
  (∀ (R : Type) (num : PyNum R) (damping : R) (n : nat) (u : nat → R),
     sample_pagerank [] damping n u = Raise IndexError)
  ∧ (∀ fuel (damping : Qc),
       iterate_pagerank fuel [] damping = Some (Raise ZeroDivisionError))
  ∧ (∀ fuel (damping : float),
       iterate_pagerank fuel [] damping = Some (Raise ZeroDivisionError)).
Proof. exact empty_corpus_faults_aux. Qed.

(** C7 (as the claim has it) fails: the failure of [sample_pagerank] on the
    empty corpus is not converted, it is the indexing fault itself. *)
Lemma empty_corpus_not_converted :
  ¬ (∃ e, sample_pagerank [] damping_Q SAMPLES draws = Raise e ∧ ¬ low_level_fault e).
Proof.
  intros (e & He & Hlow). apply Hlow.
  rewrite (proj1 empty_corpus_faults_aux) in He. by simplify_eq.
Qed.

(** ** The iterative estimator *)

Lemma link_sum_ext (corpus : corpus_t) (x y : string → Qc) p :
  (∀ q, q ∈ keys corpus → x q = y q) → link_sum corpus x p = link_sum corpus y p.
Proof.
  intros Hxy. unfold link_sum. apply sumQc_ext. intros [q links] Hin.
  case_bool_decide; [|done]. rewrite Hxy; [done|]. by eapply elem_of_corpus_keys.
Qed.

Lemma link_sum_le (corpus : corpus_t) (x y : string → Qc) p :
  (∀ q, q ∈ keys corpus → x q ≤ y q) → link_sum corpus x p ≤ link_sum corpus y p.
Proof.
  intros Hxy. unfold link_sum. apply sumQc_le. intros [q links] Hin.
  case_bool_decide as Hp; [|done].
  apply Qcmult_le_mono_nonneg_r; [|apply Hxy; by eapply elem_of_corpus_keys].
  apply Qclt_le_weak, Qcinv_pos, Qc_of_nat_pos, size_links_pos. by intros ->.
Qed.

Lemma link_sum_nonneg (corpus : corpus_t) (x : string → Qc) p :
  (∀ q, q ∈ keys corpus → 0 ≤ x q) → 0 ≤ link_sum corpus x p.
Proof.
  intros Hx. unfold link_sum. apply sumQc_nonneg. intros [q links] Hin.
  case_bool_decide as Hp; [|done].
  apply Qcdiv_nonneg; [apply Hx; by eapply elem_of_corpus_keys|].
  apply Qc_of_nat_pos, size_links_pos. by intros ->.
Qed.

(** [get_sum] computes the link sum of the distribution it is handed. *)
Lemma get_sum_spec (corpus : corpus_t) (distribution : dict Qc) page :
  is_dict corpus → (∀ q, q ∈ keys corpus → q ∈ keys distribution) →
  get_sum corpus distribution page = Ok (link_sum corpus (val distribution) page).
Proof.
  intros Hdict Hkeys. unfold get_sum, link_sum.
  enough (Hgen : ∀ (part : list (string * gset string)) (acc : Qc),
            (∀ pl, pl ∈ part → pl ∈ corpus) →
            for_each (keys part) acc (fun result p =>
              links ← dict_get corpus p;
              if bool_decide (page ∈ links) then
                dp ← dict_get distribution p;
                q ← py_div dp (of_nat (size links));
                Ok (add result q)
              else Ok result) =
            Ok (acc + sumQc (map (fun '(q, links) =>
                  if bool_decide (page ∈ links)
                  then val distribution q / Qc_of_Z (Z.of_nat (size links))
                  else 0) part))).
  { rewrite Hgen by done. f_equal. change (@of_nat Qc _ 0) with (Qc_of_nat 0).
    rewrite Qc_of_nat_0. ring. }
  induction part as [|[p links] part IH]; intros acc Hsub.
  - cbn. f_equal. ring.
  - assert (Hp : (p, links) ∈ corpus) by (apply Hsub; left).
    cbn -[of_nat]. rewrite (dict_get_elem _ _ _ Hdict Hp). cbn -[of_nat].
    case_bool_decide as Hpage.
    + rewrite dict_get_val by (apply Hkeys; by eapply elem_of_corpus_keys).
      cbn -[of_nat]. rewrite py_div_of_nat by (apply size_links_pos; by intros ->).
      cbn. rewrite IH by (intros ??; apply Hsub; by right).
      f_equal. unfold Qc_of_nat. ring.
    + rewrite IH by (intros ??; apply Hsub; by right). f_equal. ring.
Qed.

Lemma for_each_app {A S} (xs ys : list A) (s : S) (body : S → A → result S) :
  for_each (xs ++ ys) s body = s' ← for_each xs s body; for_each ys s' body.
Proof.
  revert s. induction xs as [|x xs IH]; intros s; cbn; [done|].
  destruct (body s x); [apply IH|done].
Qed.

Lemma gtb_Qc (x y : Qc) : gtb x y = bool_decide (y < x).
Proof.
  unfold gtb. cbn. destruct (y ?= x) eqn:Hc.
  - rewrite bool_decide_false; [done|]. apply Qceq_alt in Hc as ->.
    apply (irreflexivity Qclt).
  - rewrite bool_decide_true; [done|]. by apply Qclt_alt.
  - rewrite bool_decide_false; [done|]. apply Qcgt_alt in Hc.
    apply Qcle_not_lt. by apply Qclt_le_weak.
Qed.

(** One pass of the body of [for page in corpus]. *)
Lemma sweep_step_spec (corpus : corpus_t) (damping : Qc) (dist cur : dict Qc) flag p :
  is_dict corpus → keys dist = keys corpus → keys cur = keys corpus →
  p ∈ keys corpus →
  sweep_step corpus damping (length corpus) dist (cur, flag) p =
  Ok (dict_set cur p (base_mass corpus damping + damping * link_sum corpus (val cur) p),
      flag || bool_decide
                (eps < Qcabs (val dist p -
                   (base_mass corpus damping + damping * link_sum corpus (val cur) p)))).
Proof.
  intros Hdict Hdist Hcur Hp. unfold sweep_step.
  assert (HN : (0 < length corpus)%nat).
  { destruct corpus; [by apply elem_of_nil in Hp|cbn; lia]. }
  rewrite py_div_of_nat by done. rewrite of_nat_1. cbn -[get_sum].
  fold (base_mass corpus damping).
  rewrite get_sum_spec by (done || by rewrite Hcur). cbn.
  destruct flag; cbn; [done|].
  rewrite (dict_get_val dist p) by (by rewrite Hdist). cbn.
  rewrite dict_get_set_eq. cbn. do 2 f_equal.
  apply (gtb_Qc (Qcabs (val dist p - _)) eps).
Qed.

(** The in-place sweep, pass by pass: after the pages [ks] have been
    processed, the pages outside [ks] still hold their old ranks, each page
    [p] of [ks] holds the base mass plus the damped link sum over the ranks
    as they stood when [p] was processed (new for the pages before [p], old
    for the others), and the flag tells whether a processed page moved by
    more than the threshold. *)
Lemma sweep_prefix (corpus : corpus_t) (damping : Qc) (dist : dict Qc) :
  is_dict corpus → keys dist = keys corpus →
  ∀ ks, NoDup ks → (∀ k, k ∈ ks → k ∈ keys corpus) →
  ∃ cur flag,
    for_each ks (dist, false) (sweep_step corpus damping (length corpus) dist)
      = Ok (cur, flag)
    ∧ keys cur = keys corpus
    ∧ (∀ q, q ∉ ks → val cur q = val dist q)
    ∧ (∀ pre p post, ks = pre ++ p :: post →
         val cur p = base_mass corpus damping + damping *
           link_sum corpus (fun q => if bool_decide (q ∈ pre) then val cur q
                                     else val dist q) p)
    ∧ (flag = false ↔ ∀ p, p ∈ ks → Qcabs (val dist p - val cur p) ≤ eps).
Proof.
  intros Hdict Hdist ks. induction ks as [|p ks IH] using rev_ind; intros Hnd Hsub.
  - exists dist, false. split_and!; [done..| |].
    + intros pre p post Heq. by destruct pre.
    + split; [|done]. by intros _ p ?%elem_of_nil.
  - apply NoDup_app in Hnd as (Hnd & Hdisj & _).
    assert (Hp : p ∉ ks) by (intros Hin; apply (Hdisj _ Hin); left).
    destruct IH as (cur & flag & Hrun & Hcur & Hout & Hin & Hflag); [done| |].
    { intros k Hk. apply Hsub, elem_of_app. by left. }
    assert (Hpk : p ∈ keys corpus) by (apply Hsub, elem_of_app; right; left).
    set (new := base_mass corpus damping + damping * link_sum corpus (val cur) p).
    exists (dict_set cur p new), (flag || bool_decide (eps < Qcabs (val dist p - new))).
    split_and!.
    + rewrite for_each_app, Hrun. cbn -[sweep_step].
      by rewrite sweep_step_spec.
    + rewrite keys_dict_set_in; [done|by rewrite Hcur].
    + intros q Hq. rewrite val_set_ne; [apply Hout|]; intros ?; apply Hq, elem_of_app.
      * by left.
      * right. subst. left.
    + intros pre p' post Heq. destruct post as [|z post _] using rev_ind.
      * apply app_inj_tail in Heq as [-> ->]. rewrite val_set_eq. unfold new.
        do 2 f_equal. apply link_sum_ext. intros q _. case_bool_decide as Hq.
        -- rewrite val_set_ne; [done|]. by intros ->.
        -- by apply Hout.
      * rewrite app_comm_cons, app_assoc in Heq. apply app_inj_tail in Heq as [-> ->].
        assert (Hne : z ≠ p').
        { intros ->. apply Hp. apply elem_of_app. right. left. }
        rewrite val_set_ne by done. rewrite (Hin pre p' post eq_refl).
        do 2 f_equal. apply link_sum_ext. intros q _. case_bool_decide as Hq; [|done].
        rewrite val_set_ne; [done|]. intros ->. apply Hp, elem_of_app. by left.
    + rewrite orb_false_iff, bool_decide_eq_false, Hflag. split.
      * intros [Hks Hnew] q [Hq|Hq%list_elem_of_singleton]%elem_of_app.
        -- rewrite val_set_ne; [by apply Hks|]. by intros ->.
        -- subst q. rewrite val_set_eq. by apply Qcnot_lt_le.
      * intros Hall. split.
        -- intros q Hq. specialize (Hall q ltac:(apply elem_of_app; by left)).
           rewrite val_set_ne in Hall; [done|]. by intros ->.
        -- specialize (Hall p ltac:(apply elem_of_app; right; left)).
           rewrite val_set_eq in Hall. by apply Qcle_not_lt.
Qed.

(** One pass of the body of [while change], on a distribution over the
    corpus's pages. *)
Lemma sweep_spec (corpus : corpus_t) (damping : Qc) (dist : dict Qc) :
  is_dict corpus → keys dist = keys corpus →
  ∃ dist' change,
    sweep corpus damping (length corpus) dist = Ok (dist', change)
    ∧ keys dist' = keys corpus
    ∧ (∀ pre p post, keys corpus = pre ++ p :: post →
         val dist' p = base_mass corpus damping + damping *
           link_sum corpus (fun q => if bool_decide (q ∈ pre) then val dist' q
                                     else val dist q) p)
    ∧ (change = false ↔
       ∀ p, p ∈ keys corpus → Qcabs (val dist p - val dist' p) ≤ eps).
Proof.
  intros Hdict Hdist.
  destruct (sweep_prefix corpus damping dist Hdict Hdist (keys corpus))
    as (cur & flag & Hrun & Hcur & _ & Hin & Hflag); [done..|].
  exists cur, flag. split_and!; [done|done| |done].
  intros pre p post Heq. by apply (Hin pre p post).
Qed.

Lemma base_mass_pos (corpus : corpus_t) (damping : Qc) :
  corpus ≠ [] → damping < 1 → 0 < base_mass corpus damping.
Proof.
  intros Hne Hd. apply Qcdiv_pos.
  - qc_to_q. lra.
  - apply Qc_of_nat_pos. destruct corpus; [done|cbn; lia].
Qed.

(** A sweep of non-negative ranks leaves every page at the base mass or
    above. *)
Lemma sweep_lower_bound (corpus : corpus_t) (damping : Qc) (dist dist' : dict Qc) change :
  is_dict corpus → keys dist = keys corpus → corpus ≠ [] → 0 ≤ damping < 1 →
  (∀ q, q ∈ keys corpus → 0 ≤ val dist q) →
  sweep corpus damping (length corpus) dist = Ok (dist', change) →
  keys dist' = keys corpus ∧
  ∀ p, p ∈ keys corpus → base_mass corpus damping ≤ val dist' p.
Proof.
  intros Hdict Hdist Hne [Hd0 Hd1] Hnonneg Hrun.
  destruct (sweep_spec corpus damping dist Hdict Hdist)
    as (dist'' & change' & Hrun' & Hkeys & Hval & _).
  rewrite Hrun in Hrun'. simplify_eq. split; [done|].
  pose proof (base_mass_pos corpus damping Hne Hd1) as Hbase.
  assert (Hpos : ∀ n pre p post, length pre = n → keys corpus = pre ++ p :: post →
                 base_mass corpus damping ≤ val dist'' p).
  { induction n as [n IH] using lt_wf_ind. intros pre p post Hlen Heq.
    rewrite (Hval pre p post Heq).
    rewrite <-(Qcplus_0_r (base_mass corpus damping)) at 1.
    apply Qcplus_le_mono_l, Qcmult_nonneg_nonneg; [done|].
    apply link_sum_nonneg. intros q Hq. case_bool_decide as Hpre; [|by apply Hnonneg].
    apply list_elem_of_split in Hpre as (l1 & l2 & ->).
    apply Qclt_le_weak, (Qclt_le_trans _ _ _ Hbase).
    apply (IH (length l1)) with l1 (l2 ++ p :: post); [|done|].
    - rewrite <-Hlen, length_app. cbn. lia.
    - rewrite Heq. by rewrite <-app_assoc. }
  intros p Hp. apply list_elem_of_split in Hp as (pre & post & Heq).
  by apply (Hpos (length pre) pre p post).
Qed.

(** A run of the loop that ends has made at least one sweep, and returns
    what that many sweeps leave. *)
Lemma iterate_loop_sweeps fuel (corpus : corpus_t) (damping : Qc) (x : dict Qc) r :
  iterate_loop fuel corpus damping (length corpus) x = Some r →
  ∃ k, (0 < k ≤ fuel)%nat ∧ sweeps k corpus damping x = r.
Proof.
  revert x. induction fuel as [|fuel IH]; intros x; cbn; [done|].
  destruct (sweep corpus damping (length corpus) x) as [[x' change]|e] eqn:Hsweep.
  - destruct change.
    + intros (k & Hk & Hrun)%IH. exists (S k). split; [lia|]. cbn. by rewrite Hsweep.
    + intros [= <-]. exists 1%nat. split; [lia|]. cbn. by rewrite Hsweep.
  - intros [= <-]. exists 1%nat. split; [lia|]. cbn. by rewrite Hsweep.
Qed.

(** The last sweep of a run that returns found no page moving by more than
    the threshold. *)
Lemma iterate_loop_last fuel (corpus : corpus_t) (damping : Qc) (x dist : dict Qc) :
  iterate_loop fuel corpus damping (length corpus) x = Some (Ok dist) →
  ∃ k prev, sweeps k corpus damping x = Ok prev
    ∧ sweep corpus damping (length corpus) prev = Ok (dist, false).
Proof.
  revert x. induction fuel as [|fuel IH]; intros x; cbn; [done|].
  destruct (sweep corpus damping (length corpus) x) as [[x' change]|e] eqn:Hsweep; [|done].
  destruct change.
  - intros (k & prev & Hk & Hlast)%IH. exists (S k), prev. cbn. by rewrite Hsweep.
  - intros [= <-]. by exists 0%nat, x.
Qed.

(** The invariant of the sweeps: the pages are the corpus's and no rank is
    negative. *)
Lemma sweeps_invariant k (corpus : corpus_t) (damping : Qc) (x : dict Qc) :
  is_dict corpus → corpus ≠ [] → 0 ≤ damping < 1 →
  keys x = keys corpus → (∀ q, q ∈ keys corpus → 0 ≤ val x q) →
  ∃ dist, sweeps k corpus damping x = Ok dist
    ∧ keys dist = keys corpus
    ∧ (∀ q, q ∈ keys corpus → 0 ≤ val dist q)
    ∧ ((0 < k)%nat → ∀ q, q ∈ keys corpus → base_mass corpus damping ≤ val dist q).
Proof.
  intros Hdict Hne Hd. revert x. induction k as [|k IH]; intros x Hkeys Hnonneg.
  - exists x. split_and!; [done..|lia].
  - cbn. destruct (sweep_spec corpus damping x Hdict Hkeys) as (x' & change & Hrun & _).
    rewrite Hrun.
    destruct (sweep_lower_bound _ _ _ _ _ Hdict Hkeys Hne Hd Hnonneg Hrun) as [Hk' Hlow].
    assert (Hnonneg' : ∀ q, q ∈ keys corpus → 0 ≤ val x' q).
    { intros q Hq. apply Qclt_le_weak, (Qclt_le_trans _ (base_mass corpus damping)).
      - apply base_mass_pos; [done|apply Hd].
      - by apply Hlow. }
    destruct (IH x' Hk' Hnonneg') as (dist & Hdist & Hkd & Hnn & Hlb).
    exists dist. split_and!; [done..|]. intros _ q Hq.
    destruct k as [|k]; [|apply Hlb; [lia|done]].
    cbn in Hdist. simplify_eq. by apply Hlow.
Qed.

(** The initial distribution, [1/N] on every page. *)
Lemma iterate_pagerank_start fuel (corpus : corpus_t) (damping : Qc) :
  is_dict corpus → corpus ≠ [] →
  iterate_pagerank fuel corpus damping =
    iterate_loop fuel corpus damping (length corpus)
      (map (fun k => (k, 1 / Qc_of_nat (length corpus))) (keys corpus)).
Proof.
  intros Hdict Hne. unfold iterate_pagerank.
  rewrite py_div_of_nat by (destruct corpus; [done|cbn; lia]).
  rewrite of_nat_1. by rewrite fromkeys_is_map.
Qed.

Lemma initial_invariant (corpus : corpus_t) :
  corpus ≠ [] →
  let x := map (fun k => (k, 1 / Qc_of_nat (length corpus))) (keys corpus) in
  keys x = keys corpus ∧ ∀ q, q ∈ keys corpus → 0 ≤ val x q.
Proof.
  intros Hne. cbn. split.
  - unfold keys. rewrite <-list_fmap_compose. apply list_fmap_id.
  - intros q Hq. rewrite val_const by done. apply Qcdiv_nonneg; [done|].
    apply Qc_of_nat_pos. destruct corpus; [done|cbn; lia].
Qed.

(** Closed equations and disequations between rational values are decided
    by evaluation. *)
Ltac qc_eq :=
  repeat match goal with
  | |- @eq Qc _ _ => apply Qc_is_canon; reflexivity
  | |- _ => reflexivity
  | |- _ => progress f_equal
  end.
Ltac qc_eval := vm_compute; qc_eq.
Ltac qc_neq :=
  let H := fresh in intros H; apply Qc_eq_Qeq in H; vm_compute in H; discriminate H.

Lemma keys_app {V} (d1 d2 : dict V) : keys (d1 ++ d2) = keys d1 ++ keys d2.
Proof. unfold keys. apply fmap_app. Qed.

(** C2 (as the code has it). A sweep of [iterate_pagerank] updates the
    distribution in place, page by page in the order of the corpus: the new
    rank of a page [p] is [(1 - damping)/N] plus [damping] times the link
    sum over the ranks as they stand when [p] is reached, the new ranks for
    the pages before [p] and the ranks from the start of the sweep for [p]
    and the pages after it. The snapshot taken at the start of the sweep
    enters the convergence test only: [change] ends false exactly when no
    page has moved from its snapshot value by more than 0.001. *)
Theorem sweep_in_place (corpus : corpus_t) (damping : Qc) (old : dict Qc) :
  is_dict corpus → keys old = keys corpus →
  ∃ new change,
    sweep corpus damping (length corpus) old = Ok (new, change)
    ∧ keys new = keys corpus
    ∧ (∀ pre p links post, corpus = pre ++ (p, links) :: post →
         dict_get new p =
         Ok ((1 - damping) / Qc_of_nat (length corpus) + damping *
               link_sum corpus (fun q => if bool_decide (q ∈ keys pre) then val new q
                                         else val old q) p))
    ∧ (change = false ↔
       ∀ p, p ∈ keys corpus → Qcabs (val old p - val new p) ≤ eps).
Proof.
  intros Hdict Hold.
  destruct (sweep_spec corpus damping old Hdict Hold)
    as (new & change & Hrun & Hkeys & Hval & Hflag).
  exists new, change. split_and!; [done..| |done].
  intros pre p links post Heq. rewrite dict_get_val.
  - f_equal. apply (Hval (keys pre) p (keys post)). rewrite Heq at 1.
    by rewrite keys_app.
  - rewrite Hkeys, Heq, keys_app. apply elem_of_app. right. left.
Qed.

(** The theorem at the first sweep on [{A: {B}, B: {}}], damping 0.85. *)
Lemma sweep_in_place_witness :
  ∃ new change,
    sweep corpus_AB damping_Q (length corpus_AB)
      (fromkeys (keys corpus_AB) (Q2Qc (1 # 2))) = Ok (new, change)
    ∧ keys new = keys corpus_AB
    ∧ (∀ pre p links post, corpus_AB = pre ++ (p, links) :: post →
         dict_get new p =
         Ok ((1 - damping_Q) / Qc_of_nat (length corpus_AB) + damping_Q *
               link_sum corpus_AB
                 (fun q => if bool_decide (q ∈ keys pre) then val new q
                           else val (fromkeys (keys corpus_AB) (Q2Qc (1 # 2))) q) p))
    ∧ (change = false ↔
       ∀ p, p ∈ keys corpus_AB →
         Qcabs (val (fromkeys (keys corpus_AB) (Q2Qc (1 # 2))) p - val new p) ≤ eps).
Proof.
  apply (sweep_in_place corpus_AB damping_Q (fromkeys (keys corpus_AB) (Q2Qc (1 # 2)))).
  - decide_by_eval.
  - reflexivity.
Defined.

(** C2 (as the claim has it) fails: in the first sweep on [{A: {B}, B: {}}]
    with damping 0.85, starting from [{A: 1/2, B: 1/2}], the page [B] gets
    [0.075 + 0.85 * 0.075 = 111/800], computed from the rank [A] has just
    been given, and not the [0.075 + 0.85 * 0.5 = 1/2] of the snapshot. *)
Lemma sweep_not_synchronous :
  ∃ new change,
    sweep corpus_AB damping_Q (length corpus_AB)
      (fromkeys (keys corpus_AB) (Q2Qc (1 # 2))) = Ok (new, change)
    ∧ val new "B" = Q2Qc (111 # 800)
    ∧ base_mass corpus_AB damping_Q + damping_Q *
        link_sum corpus_AB (val (fromkeys (keys corpus_AB) (Q2Qc (1 # 2)))) "B"
      = Q2Qc (1 # 2)
    ∧ val new "B" ≠
      base_mass corpus_AB damping_Q + damping_Q *
        link_sum corpus_AB (val (fromkeys (keys corpus_AB) (Q2Qc (1 # 2)))) "B".
Proof.
  exists (("A", Q2Qc (3 # 40)) :: ("B", Q2Qc (111 # 800)) :: nil), true.
  split_and!; [qc_eval..|qc_neq].
Qed.

(** The same sweep in binary64. *)
Example sweep_float :
  sweep corpus_AB damping_F 2 (("A", 0.5%float) :: ("B", 0.5%float) :: nil) =
  Ok (("A", 0.075000000000000011%float) :: ("B", 0.13875000000000001%float) :: nil, true).
Proof. vm_compute. reflexivity. Qed.

(** C3 (the code at the failing input). On the single-page corpus
    [{A: {}}] with damping 0.85 the initial [{A: 1.0}] is not a fixed point
    of the code: [get_sum] gives a page without links no share in any rank,
    unlike [transition_model], which spreads such a page over the corpus.
    So the first sweep takes the page to [(1 - 0.85)/1], a move of 0.85,
    and only the second sweep finds nothing moving. One sweep does not end
    the loop; with two or more, [iterate_pagerank] returns [{A: 3/20}] in
    rational arithmetic and [{A: 0.15000000000000002}] in binary64, a
    ranking that sums to 0.15 where the docstring of the function promises
    values that sum to 1. *)
Theorem iterate_pagerank_single_page :
  iterate_pagerank 1 corpus_A damping_Q = None
  ∧ (∀ fuel, iterate_pagerank (S (S fuel)) corpus_A damping_Q =
             Some (Ok (("A", Q2Qc (3 # 20)) :: nil)))
  ∧ iterate_pagerank 1 corpus_A damping_F = None
  ∧ (∀ fuel, iterate_pagerank (S (S fuel)) corpus_A damping_F =
             Some (Ok (("A", 0.15000000000000002%float) :: nil))).
Proof.
  split_and!.
  - reflexivity.
  - intros fuel. apply outcome_Q_inj. vm_compute. reflexivity.
  - reflexivity.
  - intros fuel. vm_compute. reflexivity.
Qed.

(** Whatever the number of sweeps allowed, [iterate_pagerank] does not
    return [{A: 1.0}] on [{A: {}}]. *)
Lemma iterate_pagerank_single_page_not_one :
  ¬ (∃ fuel, iterate_pagerank fuel corpus_A damping_Q =
             Some (Ok (("A", Q2Qc 1) :: nil)))
  ∧ ¬ (∃ fuel, iterate_pagerank fuel corpus_A damping_F =
               Some (Ok (("A", 1%float) :: nil))).
Proof.
  split.
  - intros [[|[|fuel]] Hrun]; apply (f_equal outcome_Q) in Hrun;
      vm_compute in Hrun; discriminate Hrun.
  - intros [[|[|fuel]] Hrun]; vm_compute in Hrun; discriminate Hrun.
Qed.

(** More fuel does not change what a run that ended returned. *)
Lemma iterate_loop_mono {R} `{PyNum R} fuel fuel' (corpus : corpus_t) (damping : R)
    total_pages distribution r :
  (fuel ≤ fuel')%nat →
  iterate_loop fuel corpus damping total_pages distribution = Some r →
  iterate_loop fuel' corpus damping total_pages distribution = Some r.
Proof.
  revert fuel' distribution. induction fuel as [|fuel IH]; intros fuel' x Hle; [done|].
  destruct fuel' as [|fuel']; [lia|]. cbn.
  destruct (sweep corpus damping total_pages x) as [[x' change]|e]; [|done].
  destruct change; [|done]. apply IH. lia.
Qed.

(** ** The total mass of the returned distribution *)

Lemma Qcdiv_mult_cancel (x y : Qc) : y ≠ 0 → x / y * y = x.
Proof. intros Hy. by field. Qed.

Lemma Qcle_div_r (a b c : Qc) : 0 < c → a * c ≤ b → a ≤ b / c.
Proof.
  intros Hc Hab. apply (Qcmult_le_mono_pos_r _ _ c Hc).
  rewrite Qcdiv_mult_cancel; [done|]. by apply Qclt_not_eq in Hc.
Qed.

(** Summed over all target pages, the link sums hand every page with links
    its whole value back: the shares [1/|links|] of a page add up to one
    over its [|links|] targets, all of which are pages of the corpus. *)
Lemma sum_link_sum (corpus : corpus_t) (y : string → Qc) :
  is_dict corpus → closed corpus →
  sumQc (map (link_sum corpus y) (keys corpus)) =
  sumQc (map (fun pl : string * gset string =>
                if bool_decide (pl.2 = ∅) then 0 else y pl.1) corpus).
Proof.
  intros Hdict Hclosed. unfold link_sum.
  rewrite (sumQc_ext _ (fun p => sumQc (map (fun pl : string * gset string =>
             if bool_decide (p ∈ pl.2) then y pl.1 / Qc_of_Z (Z.of_nat (size pl.2))
             else 0) corpus))).
  2: { intros p _. apply sumQc_ext. by intros [q links] _. }
  rewrite (sumQc_exchange
             (fun p (pl : string * gset string) =>
                if bool_decide (p ∈ pl.2) then y pl.1 / Qc_of_Z (Z.of_nat (size pl.2))
                else 0)).
  apply sumQc_ext. intros [q links] Hin. cbn.
  rewrite (sumQc_indicator (fun p => p ∈ links)
             (fun _ => y q / Qc_of_Z (Z.of_nat (size links)))).
  rewrite sumQc_const, length_filter_links; [|done|by eapply Hclosed].
  case_bool_decide as Hempty.
  - subst links. rewrite size_empty, Qc_of_nat_0. ring.
  - fold (Qc_of_nat (size links)). field. by apply Qc_of_nat_ne_0, size_links_pos.
Qed.

Lemma sumQc_keys (corpus : corpus_t) (y : string → Qc) :
  sumQc (map (fun pl : string * gset string => y pl.1) corpus) =
  sumQc (map y (keys corpus)).
Proof. unfold keys. by rewrite <-(list_fmap_compose fst y). Qed.

(** The last sweep of a run that returned, read as two inequalities on each
    rank: the page's rank is the base mass plus the damped link sum of
    ranks that lie within the threshold of the returned ones. *)
Lemma last_sweep_bounds (corpus : corpus_t) (damping : Qc) (prev dist : dict Qc) :
  is_dict corpus → keys prev = keys corpus → 0 ≤ damping →
  sweep corpus damping (length corpus) prev = Ok (dist, false) →
  keys dist = keys corpus ∧
  ∀ p, p ∈ keys corpus →
    base_mass corpus damping + damping * link_sum corpus (fun q => val dist q - eps) p
      ≤ val dist p
    ∧ val dist p
      ≤ base_mass corpus damping + damping * link_sum corpus (fun q => val dist q + eps) p.
Proof.
  intros Hdict Hprev Hd Hrun.
  destruct (sweep_spec corpus damping prev Hdict Hprev)
    as (dist' & change & Hrun' & Hkeys & Hval & Hflag).
  rewrite Hrun in Hrun'. simplify_eq. split; [done|].
  pose proof (proj1 Hflag eq_refl) as Hclose.
  intros p (pre & post & Heq)%list_elem_of_split.
  rewrite (Hval pre p post Heq).
  assert (Hmix : ∀ q, q ∈ keys corpus →
            val dist' q - eps ≤ (if bool_decide (q ∈ pre) then val dist' q else val prev q)
            ∧ (if bool_decide (q ∈ pre) then val dist' q else val prev q) ≤ val dist' q + eps).
  { intros q Hq. specialize (Hclose q Hq).
    apply Qcabs_diff_Qcle_condition in Hclose as [Hlo Hhi].
    assert (Heps : 0 ≤ eps) by done.
    case_bool_decide; split; qc_to_q; lra. }
  split; apply Qcplus_le_mono_l, Qcmult_le_mono_nonneg_l; try done;
    apply link_sum_le; intros q Hq; by apply Hmix.
Qed.

(** The total mass after a last sweep: what the [N] base masses and the
    damped link sums add up to. *)
Lemma last_sweep_total (corpus : corpus_t) (damping : Qc) (prev dist : dict Qc) :
  is_dict corpus → closed corpus → corpus ≠ [] → 0 ≤ damping < 1 →
  keys prev = keys corpus → (∀ q, q ∈ keys corpus → 0 ≤ val prev q) →
  sweep corpus damping (length corpus) prev = Ok (dist, false) →
  1 - damping ≤ total dist
  ∧ total dist ≤
    (1 - damping) + damping * (total dist + Qc_of_nat (length corpus) * eps)
  ∧ (no_dangling corpus →
     (1 - damping) + damping * (total dist - Qc_of_nat (length corpus) * eps)
     ≤ total dist).
Proof.
  intros Hdict Hclosed Hne Hd Hprev Hnonneg Hrun.
  destruct (last_sweep_bounds corpus damping prev dist Hdict Hprev (proj1 Hd) Hrun)
    as [Hkeys Hbounds].
  destruct (sweep_lower_bound _ _ _ _ _ Hdict Hprev Hne Hd Hnonneg Hrun) as [_ Hlow].
  pose proof (base_mass_pos corpus damping Hne (proj2 Hd)) as Hbase.
  assert (HN : Qc_of_nat (length corpus) ≠ 0).
  { apply Qc_of_nat_ne_0. destruct corpus; [done|cbn; lia]. }
  assert (Hmass : Qc_of_nat (length corpus) * base_mass corpus damping = 1 - damping).
  { unfold base_mass. by field. }
  assert (Hlen : length (keys corpus) = length corpus).
  { unfold keys. apply length_fmap. }
  assert (Htotal : total dist = sumQc (map (val dist) (keys corpus))).
  { rewrite total_val by (unfold is_dict; by rewrite Hkeys). by rewrite Hkeys. }
  assert (Hshift : ∀ c, sumQc (map (fun q => val dist q + c) (keys corpus)) =
                        total dist + Qc_of_nat (length corpus) * c).
  { intros c. by rewrite sumQc_plus, sumQc_const, Hlen, Htotal. }
  split_and!.
  - rewrite <-Hmass, Htotal, <-Hlen, <-sumQc_const. by apply sumQc_le.
  - rewrite Htotal at 1.
    trans (sumQc (map (fun p => base_mass corpus damping + damping *
                         link_sum corpus (fun q => val dist q + eps) p) (keys corpus))).
    { apply sumQc_le. intros p Hp. by apply Hbounds. }
    rewrite sumQc_plus, sumQc_const, Hlen, Hmass.
    apply Qcplus_le_mono_l.
    rewrite (sumQc_scale (link_sum corpus (fun q => val dist q + eps)) damping).
    apply Qcmult_le_mono_nonneg_l; [apply Hd|].
    rewrite sum_link_sum by done. rewrite <-Hshift, <-sumQc_keys.
    apply sumQc_le. intros [q links] Hin. cbn. case_bool_decide; [|done].
    apply Qcplus_nonneg_nonneg; [|done].
    apply Qclt_le_weak, (Qclt_le_trans _ _ _ Hbase), Hlow.
    by eapply elem_of_corpus_keys.
  - intros Hnd. rewrite Htotal at 2.
    trans (sumQc (map (fun p => base_mass corpus damping + damping *
                         link_sum corpus (fun q => val dist q - eps) p) (keys corpus))).
    2: { apply sumQc_le. intros p Hp. by apply Hbounds. }
    rewrite sumQc_plus, sumQc_const, Hlen, Hmass.
    apply Qcplus_le_mono_l.
    rewrite (sumQc_scale (link_sum corpus (fun q => val dist q - eps)) damping).
    apply Qcmult_le_mono_nonneg_l; [apply Hd|].
    rewrite sum_link_sum by done.
    replace (total dist - Qc_of_nat (length corpus) * eps)
      with (total dist + Qc_of_nat (length corpus) * (- eps)) by ring.
    rewrite <-Hshift, <-sumQc_keys.
    apply sumQc_le. intros [q links] Hin. cbn.
    rewrite bool_decide_false by (by eapply Hnd). done.
Qed.

(** The total mass of a returned distribution: at least [1 - damping], at
    most [1 + 0.001 * N * damping / (1 - damping)], and within
    [0.001 * N * damping / (1 - damping)] of 1 where every page has a link. *)
Lemma returned_total (corpus : corpus_t) (damping : Qc) fuel dist :
  is_dict corpus → closed corpus → corpus ≠ [] → 0 < damping < 1 →
  iterate_pagerank fuel corpus damping = Some (Ok dist) →
  1 - damping ≤ total dist
  ∧ total dist ≤ 1 + eps * Qc_of_nat (length corpus) * damping / (1 - damping)
  ∧ (no_dangling corpus →
     Qcabs (total dist - 1) ≤ eps * Qc_of_nat (length corpus) * damping / (1 - damping)).
Proof.
  intros Hdict Hclosed Hne [Hd0 Hd1]. rewrite iterate_pagerank_start by done.
  intros (k & prev & Hprev & Hlast)%iterate_loop_last.
  assert (Hd : 0 ≤ damping < 1) by (split; [by apply Qclt_le_weak|done]).
  destruct (initial_invariant corpus Hne) as [Hk0 Hnn0].
  destruct (sweeps_invariant k corpus damping _ Hdict Hne Hd Hk0 Hnn0)
    as (prev' & Hprev' & Hkeys & Hnonneg & _).
  rewrite Hprev in Hprev'. simplify_eq.
  destruct (last_sweep_total corpus damping prev' dist) as (Hlow & Hup & Hnd); [done..|].
  assert (Hc : 0 < 1 - damping) by (qc_to_q; lra).
  assert (Hupper : total dist ≤
            1 + eps * Qc_of_nat (length corpus) * damping / (1 - damping)).
  { apply (Qcplus_le_mono_r _ _ (-1)).
    replace (1 + eps * Qc_of_nat (length corpus) * damping / (1 - damping) + -1)
      with (eps * Qc_of_nat (length corpus) * damping / (1 - damping)) by ring.
    apply Qcle_div_r; [done|]. qc_to_q. lra. }
  split_and!; [done..|].
  intros Hnodangling. specialize (Hnd Hnodangling).
  assert (Hlower : 1 - total dist ≤
            eps * Qc_of_nat (length corpus) * damping / (1 - damping)).
  { apply Qcle_div_r; [done|]. qc_to_q. lra. }
  set (bound := eps * Qc_of_nat (length corpus) * damping / (1 - damping)) in *.
  apply Qcabs_Qcle_condition. split; qc_to_q; lra.
Qed.

(** ** Termination of the iteration in exact arithmetic *)

Lemma before_split ks p : p ∈ ks → ∃ post, ks = before ks p ++ p :: post.
Proof.
  induction ks as [|k ks IH]; cbn.
  - by intros ?%elem_of_nil.
  - intros Hin. case_decide as Hk.
    + subst. by exists ks.
    + apply elem_of_cons in Hin as [->|Hin]; [done|].
      destruct (IH Hin) as [post Hpost]. exists post. cbn. by f_equal.
Qed.

Lemma sumQc_abs {A} (f : A → Qc) l :
  Qcabs (sumQc (map f l)) ≤ sumQc (map (fun x => Qcabs (f x)) l).
Proof.
  induction l as [|x l IH]; cbn; [done|].
  etrans; [apply Qcabs_triangle|]. by apply Qcplus_le_mono_l.
Qed.

Lemma sumQc_minus {A} (f g : A → Qc) l :
  sumQc (map (fun x => f x - g x) l) = sumQc (map f l) - sumQc (map g l).
Proof. induction l as [|x l IH]; cbn; [ring|rewrite IH; ring]. Qed.

Lemma share_nonneg pl p : 0 ≤ share pl p.
Proof.
  unfold share. case_bool_decide as Hp; [|done].
  apply Qcdiv_nonneg; [done|]. apply Qc_of_nat_pos, size_links_pos. by intros Heq; rewrite Heq in Hp.
Qed.

Lemma link_sum_share (corpus : corpus_t) (x : string → Qc) p :
  link_sum corpus x p =
  sumQc (map (fun pl : string * gset string => share pl p * x pl.1) corpus).
Proof.
  unfold link_sum, share. apply sumQc_ext. intros [q links] _. cbn.
  case_bool_decide; [|ring]. unfold Qcdiv. ring.
Qed.

(** A page passes on at most its whole rank. *)
Lemma early_late (corpus : corpus_t) pl :
  is_dict corpus → closed corpus → pl ∈ corpus →
  0 ≤ early corpus pl ∧ 0 ≤ late corpus pl ∧ early corpus pl + late corpus pl ≤ 1.
Proof.
  intros Hdict Hclosed Hin. unfold early, late. split_and!.
  - apply sumQc_nonneg. intros p _. case_bool_decide; [apply share_nonneg|done].
  - apply sumQc_nonneg. intros p _. case_bool_decide; [done|apply share_nonneg].
  - rewrite <-sumQc_plus.
    rewrite (sumQc_ext _ (share pl)) by (intros p _; case_bool_decide; ring).
    destruct pl as [q links]. unfold share. cbn.
    rewrite (sumQc_indicator (fun p => p ∈ links)
               (fun _ => 1 / Qc_of_Z (Z.of_nat (size links)))).
    rewrite sumQc_const, length_filter_links; [|done|by eapply Hclosed].
    destruct (decide (links = ∅)) as [->|Hne].
    + rewrite size_empty, Qc_of_nat_0. by rewrite Qcmult_0_l.
    + fold (Qc_of_nat (size links)).
      replace (Qc_of_nat (size links) * (1 / Qc_of_nat (size links))) with 1; [done|].
      field. by apply Qc_of_nat_ne_0, size_links_pos.
Qed.

(** Between two consecutive sweeps, the move of a page is at most the
    damped link sum of the moves it reads: this sweep's move for the pages
    before it, the previous sweep's for the others. *)
Lemma sweep_move (corpus : corpus_t) (damping : Qc) (x0 x1 x2 : dict Qc) c1 c2 :
  is_dict corpus → keys x0 = keys corpus → 0 ≤ damping →
  sweep corpus damping (length corpus) x0 = Ok (x1, c1) →
  sweep corpus damping (length corpus) x1 = Ok (x2, c2) →
  ∀ p, p ∈ keys corpus →
    move x1 x2 p ≤ damping *
      link_sum corpus (fun q => if bool_decide (q ∈ before (keys corpus) p)
                                then move x1 x2 q else move x0 x1 q) p.
Proof.
  intros Hdict Hk0 Hd Hrun1 Hrun2 p Hp.
  destruct (sweep_spec corpus damping x0 Hdict Hk0)
    as (x1' & c1' & Hrun1' & Hk1 & Hval1 & _).
  rewrite Hrun1 in Hrun1'. injection Hrun1' as <- <-.
  destruct (sweep_spec corpus damping x1 Hdict Hk1)
    as (x2' & c2' & Hrun2' & Hk2 & Hval2 & _).
  rewrite Hrun2 in Hrun2'. injection Hrun2' as <- <-.
  destruct (before_split _ _ Hp) as [post Hsplit].
  unfold move at 1.
  rewrite (Hval1 _ _ _ Hsplit), (Hval2 _ _ _ Hsplit).
  set (pre := before (keys corpus) p).
  rewrite !link_sum_share.
  match goal with
  | |- Qcabs (?b + damping * ?s2 - (?b + damping * ?s1)) ≤ _ =>
      replace (b + damping * s2 - (b + damping * s1)) with (damping * (s2 - s1)) by ring
  end.
  rewrite Qcabs_Qcmult, (Qcabs_pos damping) by done.
  apply Qcmult_le_mono_nonneg_l; [done|].
  rewrite <-sumQc_minus. etrans; [apply sumQc_abs|].
  apply sumQc_le. intros [q links] _. cbn.
  match goal with
  | |- Qcabs (?s * ?u - ?s * ?v) ≤ _ => replace (s * u - s * v) with (s * (u - v)) by ring
  end.
  rewrite Qcabs_Qcmult, (Qcabs_pos (share _ _)) by apply share_nonneg.
  apply Qcmult_le_mono_nonneg_l; [apply share_nonneg|].
  unfold move. by case_bool_decide.
Qed.

(** The contraction: weighted by what each page still passes on at its old
    rank, the moves of one sweep are at most [damping] times those of the
    sweep before. *)
Lemma sweep_contracts (corpus : corpus_t) (damping : Qc) (a b : string → Qc) :
  is_dict corpus → closed corpus → 0 ≤ damping ≤ 1 →
  (∀ q, q ∈ keys corpus → 0 ≤ b q) →
  (∀ p, p ∈ keys corpus →
     a p ≤ damping *
       link_sum corpus (fun q => if bool_decide (q ∈ before (keys corpus) p)
                                 then a q else b q) p) →
  wnorm corpus damping a ≤ damping * wnorm corpus damping b.
Proof.
  intros Hdict Hclosed [Hd0 Hd1] Hb Hstep.
  set (Sa := sumQc (map (fun pl : string * gset string => a pl.1) corpus)).
  set (Ea := sumQc (map (fun pl : string * gset string => a pl.1 * early corpus pl) corpus)).
  set (Lb := sumQc (map (fun pl : string * gset string => b pl.1 * late corpus pl) corpus)).
  assert (H1 : Sa ≤ damping * (Ea + Lb)).
  { unfold Sa. rewrite sumQc_keys.
    etrans; [apply sumQc_le; intros p Hp; by apply Hstep|].
    rewrite (sumQc_scale (fun p => link_sum corpus _ p)).
    apply Qcmult_le_mono_nonneg_l; [done|].
    rewrite (sumQc_ext _ (fun p => sumQc (map (fun pl : string * gset string =>
               share pl p * (if bool_decide (pl.1 ∈ before (keys corpus) p)
                             then a pl.1 else b pl.1)) corpus)))
      by (intros p _; apply link_sum_share).
    rewrite (sumQc_exchange
               (fun p (pl : string * gset string) =>
                  share pl p * (if bool_decide (pl.1 ∈ before (keys corpus) p)
                                then a pl.1 else b pl.1))).
    unfold Ea, Lb. rewrite <-sumQc_plus. apply reflexive_eq, sumQc_ext.
    intros pl _. unfold early, late. rewrite <-!sumQc_scale, <-sumQc_plus.
    apply sumQc_ext. intros p _. case_bool_decide; ring. }
  assert (H2 : wnorm corpus damping a = Sa - damping * Ea).
  { unfold wnorm, Sa, Ea. rewrite <-sumQc_scale, <-sumQc_minus.
    apply sumQc_ext. intros pl _. ring. }
  assert (H3 : damping * Lb ≤ damping * wnorm corpus damping b).
  { apply Qcmult_le_mono_nonneg_l; [done|]. unfold Lb, wnorm.
    apply sumQc_le. intros pl Hpl.
    destruct (early_late corpus pl Hdict Hclosed Hpl) as (He & Hl & Hel).
    rewrite Qcmult_comm. apply Qcmult_le_mono_nonneg_r.
    - apply Hb. destruct pl. by eapply elem_of_corpus_keys.
    - assert (Hde : damping * early corpus pl ≤ early corpus pl).
      { rewrite <-(Qcmult_1_l (early corpus pl)) at 2.
        by apply Qcmult_le_mono_nonneg_r. }
      qc_to_q. lra. }
  rewrite H2. qc_to_q. lra.
Qed.

Lemma sumQc_term_le {A} (f : A → Qc) l x :
  (∀ y, y ∈ l → 0 ≤ f y) → x ∈ l → f x ≤ sumQc (map f l).
Proof.
  induction l as [|y l IH]; cbn; [by intros _ ?%elem_of_nil|].
  intros Hf [->|Hin]%elem_of_cons.
  - rewrite <-(Qcplus_0_r (f y)) at 1. apply Qcplus_le_mono_l, sumQc_nonneg.
    intros ??. apply Hf. by right.
  - rewrite <-(Qcplus_0_l (f x)). apply Qcplus_le_compat; [apply Hf; left|].
    apply IH; [|done]. intros ??. apply Hf. by right.
Qed.

Lemma weight_lower (corpus : corpus_t) (damping : Qc) pl :
  is_dict corpus → closed corpus → 0 ≤ damping ≤ 1 → pl ∈ corpus →
  1 - damping ≤ 1 - damping * early corpus pl.
Proof.
  intros Hdict Hclosed [Hd0 Hd1] Hpl.
  destruct (early_late corpus pl Hdict Hclosed Hpl) as (He & Hl & Hel).
  assert (Hde : damping * early corpus pl ≤ damping * 1).
  { apply Qcmult_le_mono_nonneg_l; [done|]. qc_to_q. lra. }
  qc_to_q. lra.
Qed.

Lemma wnorm_nonneg (corpus : corpus_t) (damping : Qc) (a : string → Qc) :
  is_dict corpus → closed corpus → 0 ≤ damping ≤ 1 →
  (∀ q, q ∈ keys corpus → 0 ≤ a q) → 0 ≤ wnorm corpus damping a.
Proof.
  intros Hdict Hclosed Hd Ha. apply sumQc_nonneg. intros pl Hpl.
  apply Qcmult_nonneg_nonneg.
  - trans (1 - damping); [|by apply weight_lower]. destruct Hd. qc_to_q. lra.
  - apply Ha. destruct pl. by eapply elem_of_corpus_keys.
Qed.

(** No page moves by more than the weighted distance over [1 - damping]. *)
Lemma move_le_wnorm (corpus : corpus_t) (damping : Qc) (a : string → Qc) q :
  is_dict corpus → closed corpus → 0 ≤ damping ≤ 1 →
  (∀ q, q ∈ keys corpus → 0 ≤ a q) → q ∈ keys corpus →
  (1 - damping) * a q ≤ wnorm corpus damping a.
Proof.
  intros Hdict Hclosed Hd Ha Hq.
  assert (Hw : ∀ pl, pl ∈ corpus →
            0 ≤ a pl.1 ∧ 1 - damping ≤ 1 - damping * early corpus pl).
  { intros pl Hpl. split; [|by apply weight_lower].
    apply Ha. destruct pl. by eapply elem_of_corpus_keys. }
  destruct Hd as [Hd0 Hd1].
  apply list_elem_of_fmap in Hq as ([q' links] & -> & Hpl). cbn.
  trans ((1 - damping * early corpus (q', links)) * a q').
  - apply Qcmult_le_mono_nonneg_r; by apply (Hw (q', links)).
  - unfold wnorm.
    apply (sumQc_term_le (fun pl : string * gset string =>
                            (1 - damping * early corpus pl) * a pl.1)); [|done].
    intros pl Hin. destruct (Hw pl Hin) as [Hapl Hwpl].
    apply Qcmult_nonneg_nonneg; [|done].
    trans (1 - damping); [|done]. qc_to_q. lra.
Qed.

Lemma Qc_archimedean (x : Qc) : ∃ n : nat, x ≤ Qc_of_nat n.
Proof.
  exists (Z.to_nat (Qfloor x + 1)). unfold Qc_of_nat, Qcle. cbn [this Qc_of_Z].
  pose proof (Qlt_floor x) as Hfl. apply Qlt_le_weak, (Qlt_le_trans _ _ _ Hfl).
  rewrite <-Zle_Qle. lia.
Qed.

Lemma Qcpower_nonneg (d : Qc) k : 0 ≤ d → 0 ≤ d ^ k.
Proof.
  intros Hd. induction k as [|k IH]; cbn; [done|]. by apply Qcmult_nonneg_nonneg.
Qed.

(** Bernoulli's inequality, as a bound on the powers of [d < 1]. *)
Lemma Qcpower_bound (d : Qc) k : 0 ≤ d ≤ 1 → d ^ k * (1 + Qc_of_nat k * (1 - d)) ≤ 1.
Proof.
  intros [Hd0 Hd1]. induction k as [|k IH].
  - rewrite Qc_of_nat_0. cbn. by ring_simplify.
  - rewrite Qc_of_nat_S. cbn [Qcpower].
    etrans; [|apply IH].
    replace (d * d ^ k * (1 + (1 + Qc_of_nat k) * (1 - d)))
      with (d ^ k * (d * (1 + (1 + Qc_of_nat k) * (1 - d)))) by ring.
    apply Qcmult_le_mono_nonneg_l; [by apply Qcpower_nonneg|].
    pose proof (Qc_of_nat_nonneg k) as Hk.
    assert (Hsq : 0 ≤ (1 + Qc_of_nat k) * ((1 - d) * (1 - d))).
    { apply Qcmult_nonneg_nonneg.
      - qc_to_q. lra.
      - apply Qcmult_nonneg_nonneg; qc_to_q; lra. }
    apply (Qcplus_le_mono_r _ _ (- (d * (1 + (1 + Qc_of_nat k) * (1 - d))))).
    ring_simplify (d * (1 + (1 + Qc_of_nat k) * (1 - d))
                   + - (d * (1 + (1 + Qc_of_nat k) * (1 - d)))).
    replace (1 + Qc_of_nat k * (1 - d) + - (d * (1 + (1 + Qc_of_nat k) * (1 - d))))
      with ((1 + Qc_of_nat k) * ((1 - d) * (1 - d))) by ring.
    done.
Qed.

(** The powers of a damping factor below 1 get as small as one likes. *)
Lemma Qcpower_small (d C e : Qc) :
  0 ≤ d < 1 → 0 ≤ C → 0 < e → ∃ k, d ^ k * C ≤ e.
Proof.
  intros [Hd0 Hd1] HC He.
  assert (Hc : 0 < (1 - d) * e).
  { apply Qcmult_pos_pos; [|done]. qc_to_q. lra. }
  destruct (Qc_archimedean (C / ((1 - d) * e))) as [k Hk].
  exists k.
  assert (HCk : C ≤ Qc_of_nat k * (1 - d) * e).
  { apply (Qcmult_le_mono_pos_r _ _ ((1 - d) * e) Hc) in Hk.
    rewrite Qcdiv_mult_cancel in Hk.
    - by rewrite Qcmult_assoc in Hk.
    - intros Heq. rewrite Heq in Hc. by apply (irreflexivity Qclt) in Hc. }
  pose proof (Qcpower_nonneg d k Hd0) as Hpow.
  pose proof (Qcpower_bound d k (conj Hd0 (Qclt_le_weak _ _ Hd1))) as Hb.
  trans (d ^ k * ((1 + Qc_of_nat k * (1 - d)) * e)).
  - apply Qcmult_le_mono_nonneg_l; [done|].
    etrans; [apply HCk|]. apply Qcmult_le_mono_nonneg_r; [by apply Qclt_le_weak|].
    qc_to_q. lra.
  - rewrite Qcmult_assoc. rewrite <-(Qcmult_1_l e) at 2.
    apply Qcmult_le_mono_nonneg_r; [by apply Qclt_le_weak|done].
Qed.

Lemma move_nonneg (x y : dict Qc) q : 0 ≤ move x y q.
Proof. apply Qcabs_nonneg. Qed.

(** Once the weighted distance between two consecutive sweeps, shrunk [k]
    more times by [damping], is below the threshold, the loop exits within
    [k + 2] sweeps. *)
Lemma iterate_loop_exits (corpus : corpus_t) (damping : Qc) :
  is_dict corpus → closed corpus → 0 ≤ damping < 1 →
  ∀ k (x x1 : dict Qc) c,
    keys x = keys corpus →
    sweep corpus damping (length corpus) x = Ok (x1, c) →
    damping ^ k * wnorm corpus damping (move x x1) ≤ eps * (1 - damping) →
    ∃ dist, iterate_loop (S (S k)) corpus damping (length corpus) x = Some (Ok dist).
Proof.
  intros Hdict Hclosed [Hd0 Hd1].
  assert (Hd : 0 ≤ damping ≤ 1) by (split; [done|by apply Qclt_le_weak]).
  assert (Hc : 0 < 1 - damping) by (qc_to_q; lra).
  intros k. induction k as [|k IH]; intros x x1 c Hkeys Hrun Hsmall.
  all: cbn [iterate_loop]; rewrite Hrun; destruct c; [|by eexists].
  all: destruct (sweep_spec corpus damping x Hdict Hkeys)
         as (x1' & c' & Hrun' & Hk1 & _); rewrite Hrun in Hrun';
         injection Hrun' as <- <-.
  all: destruct (sweep_spec corpus damping x1 Hdict Hk1)
         as (x2 & c2 & Hrun2 & Hk2 & _ & Hflag).
  all: assert (Hcontr : wnorm corpus damping (move x1 x2)
                        ≤ damping * wnorm corpus damping (move x x1))
         by (apply sweep_contracts; [done..|intros; apply move_nonneg|];
             by eapply sweep_move).
  - rewrite Hrun2. replace c2 with false; [by eexists|]. symmetry. apply Hflag.
    intros p Hp. rewrite Qcabs_Qcminus. fold (move x1 x2 p).
    cbn [Qcpower] in Hsmall. rewrite Qcmult_1_l in Hsmall.
    pose proof (move_le_wnorm corpus damping (move x1 x2) p Hdict Hclosed Hd
                  (fun q _ => move_nonneg x1 x2 q) Hp) as Hp'.
    apply (Qcmult_le_mono_pos_l _ _ (1 - damping) Hc).
    etrans; [apply Hp'|]. etrans; [apply Hcontr|].
    rewrite (Qcmult_comm (1 - damping) eps). etrans; [|apply Hsmall].
    rewrite <-(Qcmult_1_l (wnorm _ _ _)) at 2.
    apply Qcmult_le_mono_nonneg_r; [|apply Hd].
    apply wnorm_nonneg; [done..|]. intros; apply move_nonneg.
  - apply (IH x1 x2 c2 Hk1 Hrun2).
    etrans; [|apply Hsmall]. cbn [Qcpower].
    replace (damping * damping ^ k * wnorm corpus damping (move x x1))
      with (damping ^ k * (damping * wnorm corpus damping (move x x1))) by ring.
    apply Qcmult_le_mono_nonneg_l; [by apply Qcpower_nonneg|done].
Qed.

(** In exact arithmetic the iteration ends: on a non-empty corpus as the
    loader builds it and a damping factor in [[0, 1)], some number of sweeps
    makes [iterate_pagerank] return a distribution. *)
Lemma iterate_pagerank_terminates (corpus : corpus_t) (damping : Qc) :
  is_dict corpus → closed corpus → corpus ≠ [] → 0 ≤ damping < 1 →
  ∃ fuel dist, iterate_pagerank fuel corpus damping = Some (Ok dist).
Proof.
  intros Hdict Hclosed Hne Hd.
  destruct (initial_invariant corpus Hne) as [Hk0 _].
  set (x := map (fun k => (k, 1 / Qc_of_nat (length corpus))) (keys corpus)) in *.
  destruct (sweep_spec corpus damping x Hdict Hk0) as (x1 & c & Hrun & _).
  destruct (Qcpower_small damping (wnorm corpus damping (move x x1))
              (eps * (1 - damping))) as [k Hk]; [done| |..].
  - apply wnorm_nonneg; [done..| |intros; apply move_nonneg].
    split; [apply Hd|apply Qclt_le_weak, Hd].
  - apply Qcmult_pos_pos; [done|]. destruct Hd. qc_to_q. lra.
  - destruct (iterate_loop_exits corpus damping Hdict Hclosed Hd k x x1 c Hk0 Hrun Hk)
      as [dist Hdist].
    exists (S (S k)), dist. by rewrite iterate_pagerank_start.
Qed.

(** ** The returned distribution *)

(** C10. For a non-empty corpus and a damping factor in (0,1), after every
    full sweep of [iterate_pagerank] the distribution is over exactly the
    corpus's pages and every rank is at least [(1 - damping)/N], hence
    positive; the loop raises nothing, what it returns has the same
    properties, and on a corpus as the loader builds it it does return.
    Exact rational arithmetic. *)
Theorem iterate_pagerank_invariant (corpus : corpus_t) (damping : Qc) :
  is_dict corpus → corpus ≠ [] → 0 < damping < 1 →
  (∀ k, (0 < k)%nat →
     ∃ dist,
       sweeps k corpus damping
         (fromkeys (keys corpus) (1 / Qc_of_nat (length corpus))) = Ok dist
       ∧ keys dist = keys corpus
       ∧ ∀ p, p ∈ keys corpus →
           ∃ v, dict_get dist p = Ok v
             ∧ (1 - damping) / Qc_of_nat (length corpus) ≤ v ∧ 0 < v)
  ∧ (∀ fuel r, iterate_pagerank fuel corpus damping = Some r →
       ∃ dist, r = Ok dist
         ∧ keys dist = keys corpus
         ∧ ∀ p, p ∈ keys corpus →
             ∃ v, dict_get dist p = Ok v
               ∧ (1 - damping) / Qc_of_nat (length corpus) ≤ v ∧ 0 < v)
  ∧ (closed corpus →
     ∃ fuel dist, iterate_pagerank fuel corpus damping = Some (Ok dist)).
Proof.
  intros Hdict Hne [Hd0 Hd1].
  destruct (initial_invariant corpus Hne) as [Hk0 Hnn0].
  assert (Hd : 0 ≤ damping < 1) by (split; [by apply Qclt_le_weak|done]).
  pose proof (base_mass_pos corpus damping Hne Hd1) as Hbase.
  assert (Hall : ∀ k, (0 < k)%nat →
            ∃ dist,
              sweeps k corpus damping
                (map (fun k => (k, 1 / Qc_of_nat (length corpus))) (keys corpus)) = Ok dist
              ∧ keys dist = keys corpus
              ∧ ∀ p, p ∈ keys corpus →
                  ∃ v, dict_get dist p = Ok v
                    ∧ (1 - damping) / Qc_of_nat (length corpus) ≤ v ∧ 0 < v).
  { intros k Hk.
    destruct (sweeps_invariant k corpus damping _ Hdict Hne Hd Hk0 Hnn0)
      as (dist & Hrun & Hkeys & _ & Hlow).
    exists dist. split_and!; [done..|]. intros p Hp. exists (val dist p).
    split_and!.
    - apply dict_get_val. by rewrite Hkeys.
    - by apply Hlow.
    - apply (Qclt_le_trans _ _ _ Hbase). by apply Hlow. }
  split_and!.
  - intros k Hk. rewrite fromkeys_is_map by done. by apply Hall.
  - intros fuel r. rewrite iterate_pagerank_start by done.
    intros (k & [Hk _] & Hrun)%iterate_loop_sweeps.
    destruct (Hall k Hk) as (dist & Hrun' & Hrest).
    exists dist. split; [congruence|done].
  - intros Hclosed. by apply iterate_pagerank_terminates.
Qed.

(** The theorem on [{A: {B}, B: {}}], damping 0.85. *)
Lemma iterate_pagerank_invariant_witness :
  (∀ k, (0 < k)%nat →
     ∃ dist,
       sweeps k corpus_AB damping_Q
         (fromkeys (keys corpus_AB) (1 / Qc_of_nat (length corpus_AB))) = Ok dist
       ∧ keys dist = keys corpus_AB
       ∧ ∀ p, p ∈ keys corpus_AB →
           ∃ v, dict_get dist p = Ok v
             ∧ (1 - damping_Q) / Qc_of_nat (length corpus_AB) ≤ v ∧ 0 < v)
  ∧ (∀ fuel r, iterate_pagerank fuel corpus_AB damping_Q = Some r →
       ∃ dist, r = Ok dist
         ∧ keys dist = keys corpus_AB
         ∧ ∀ p, p ∈ keys corpus_AB →
             ∃ v, dict_get dist p = Ok v
               ∧ (1 - damping_Q) / Qc_of_nat (length corpus_AB) ≤ v ∧ 0 < v)
  ∧ (closed corpus_AB →
     ∃ fuel dist, iterate_pagerank fuel corpus_AB damping_Q = Some (Ok dist)).
Proof.
  apply (iterate_pagerank_invariant corpus_AB damping_Q).
  - decide_by_eval.
  - discriminate.
  - split; reflexivity.
Defined.

(** How far from 1 the ranks of the code can sum. For a non-empty corpus
    as the loader builds it and a damping factor in (0,1),
    [iterate_pagerank] returns, and the distribution it returns sums to at
    least [1 - damping] and to at most
    [1 + 0.001 * N * damping / (1 - damping)]; where every page has at least
    one link it sums to 1 within [0.001 * N * damping / (1 - damping)]. The
    loop stops when no rank moved by more than 0.001 in a sweep, which
    bounds the distance of the sum from 1 by that much and no better, and
    the pages without links give their mass to nobody. Exact rational
    arithmetic. *)
Theorem iterate_pagerank_total (corpus : corpus_t) (damping : Qc) :
  is_dict corpus → closed corpus → corpus ≠ [] → 0 < damping < 1 →
  (∃ fuel dist, iterate_pagerank fuel corpus damping = Some (Ok dist))
  ∧ ∀ fuel dist, iterate_pagerank fuel corpus damping = Some (Ok dist) →
      1 - damping ≤ total dist
      ∧ total dist ≤ 1 + eps * Qc_of_nat (length corpus) * damping / (1 - damping)
      ∧ (no_dangling corpus →
         Qcabs (total dist - 1)
         ≤ eps * Qc_of_nat (length corpus) * damping / (1 - damping)).
Proof.
  intros Hdict Hclosed Hne Hd. split.
  - apply iterate_pagerank_terminates; [done..|].
    split; [apply Qclt_le_weak|]; apply Hd.
  - intros fuel dist Hrun. by eapply returned_total.
Qed.

(** The theorem on [{A: {B}, B: {A}}], damping 0.85. *)
Lemma iterate_pagerank_total_witness :
  (∃ fuel dist, iterate_pagerank fuel corpus_cycle damping_Q = Some (Ok dist))
  ∧ ∀ fuel dist, iterate_pagerank fuel corpus_cycle damping_Q = Some (Ok dist) →
      1 - damping_Q ≤ total dist
      ∧ total dist
        ≤ 1 + eps * Qc_of_nat (length corpus_cycle) * damping_Q / (1 - damping_Q)
      ∧ (no_dangling corpus_cycle →
         Qcabs (total dist - 1)
         ≤ eps * Qc_of_nat (length corpus_cycle) * damping_Q / (1 - damping_Q)).
Proof.
  apply (iterate_pagerank_total corpus_cycle damping_Q).
  - decide_by_eval.
  - decide_by_eval.
  - discriminate.
  - split; reflexivity.
Defined.

(** Two runs whose ranks sum to more than 0.001 away from 1. On [{A: {}}]
    with damping 0.85 the returned distribution sums to 0.15: the page has
    no link, and its mass goes nowhere. On [{A: {B}, B: {A}, C: {A}}], where
    every page has a link, the loop stops after 14 sweeps with a sum more
    than 0.001 away from 1 (in binary64 the ranks are 0.48838947837396152,
    0.46513105661786724 and 0.05000000000000001, 1.0035 in all). *)
Lemma iterate_pagerank_total_off :
  (is_dict corpus_A ∧ closed corpus_A ∧ 0 < damping_Q < 1
   ∧ ∃ dist, iterate_pagerank 2 corpus_A damping_Q = Some (Ok dist)
       ∧ total dist = Q2Qc (3 # 20)
       ∧ eps < Qcabs (total dist - 1))
  ∧ (is_dict corpus_3 ∧ closed corpus_3 ∧ no_dangling corpus_3
     ∧ iterate_pagerank 13 corpus_3 damping_Q = None
     ∧ ∃ dist, iterate_pagerank 14 corpus_3 damping_Q = Some (Ok dist)
         ∧ Q2Qc (35 # 10000) < total dist - 1
         ∧ eps < Qcabs (total dist - 1)).
Proof.
  split; split_and!; try decide_by_eval; try reflexivity.
  - eexists. split_and!; [vm_compute; reflexivity| |]; by vm_compute.
  - eexists. split_and!; [vm_compute; reflexivity| |]; by vm_compute.
Qed.

(** C4 (the code at the failing input). On [{A: {B}, B: {}}], a corpus as
    the loader builds it, with damping 0.85, [iterate_pagerank] returns
    after two sweeps the ranks [{A: 3/40, B: 111/800}], which sum to
    171/800 = 0.21375, in binary64 [0.075000000000000011] and
    [0.13875000000000001], 0.21375000000000002 in all: the page [B] has no
    link, [get_sum] passes its rank to nobody, and most of the mass is
    lost, where the docstring of the function promises values that sum
    to 1 and [transition_model] spreads a page without links over the
    corpus. *)
Theorem iterate_pagerank_total_dangling :
  is_dict corpus_AB ∧ closed corpus_AB
  ∧ (∀ fuel, iterate_pagerank (S (S fuel)) corpus_AB damping_Q =
             Some (Ok (("A", Q2Qc (3 # 40)) :: ("B", Q2Qc (111 # 800)) :: nil)))
  ∧ total (("A", Q2Qc (3 # 40)) :: ("B", Q2Qc (111 # 800)) :: nil) = Q2Qc (171 # 800)
  ∧ eps < Qcabs (Q2Qc (171 # 800) - 1)
  ∧ (∀ fuel, iterate_pagerank (S (S fuel)) corpus_AB damping_F =
             Some (Ok (("A", 0.075000000000000011%float)
                       :: ("B", 0.13875000000000001%float) :: nil)))
  ∧ (0.075000000000000011 + 0.13875000000000001)%float = 0.21375000000000002%float
  ∧ (0.21375000000000002 <? 0.999)%float = true.
Proof.
  split_and!.
  - decide_by_eval.
  - decide_by_eval.
  - intros fuel. apply outcome_Q_inj. vm_compute. reflexivity.
  - apply Qc_is_canon. reflexivity.
  - reflexivity.
  - intros fuel. vm_compute. reflexivity.
  - vm_compute. reflexivity.
  - reflexivity.
Qed.

(** ** Further properties *)

Lemma dict_get_Ok_elem {V} (d : dict V) k v : dict_get d k = Ok v → (k, v) ∈ d.
Proof.
  induction d as [|[k' v'] d IH]; cbn; [done|].
  case_decide; [intros [= ->]; subst; left|intros ?; right; by apply IH].
Qed.

Lemma transition_model_keys (corpus : corpus_t) page (damping : Qc) dist :
  is_dict corpus → closed corpus →
  transition_model corpus page damping = Ok dist → keys dist = keys corpus.
Proof.
  intros Hdict Hclosed Hrun.
  destruct (dict_get corpus page) as [links|e] eqn:Hget.
  2: { unfold transition_model in Hrun. by rewrite Hget in Hrun. }
  apply dict_get_Ok_elem in Hget. destruct (decide (links = ∅)) as [->|Hne].
  - rewrite transition_model_dangling_spec in Hrun by done. simplify_eq.
    unfold keys. rewrite <-list_fmap_compose. apply list_fmap_id.
  - destruct (transition_model_linked_spec corpus page links damping)
      as (dist' & Hrun' & Hkeys & _); [done..|]. congruence.
Qed.

(** The first pass of the loop of [sample_pagerank] (i = 1) draws the next
    page as the specification says: the accumulator, all zero until then,
    has just become [current_dist], so drawing from it is drawing from the
    transition distribution. Exact rational arithmetic. *)
Theorem first_draw_from_current (corpus : corpus_t) (damping : Qc) (u : nat → Qc) page :
  is_dict corpus → closed corpus →
  sample_step corpus damping u (fromkeys (keys corpus) (of_nat 0), page) 1 =
  sample_step_spec corpus damping u (fromkeys (keys corpus) (of_nat 0), page) 1.
Proof.
  intros Hdict Hclosed. apply sample_step_first.
  - unfold is_dict. rewrite fromkeys_is_map by done. unfold keys.
    rewrite <-list_fmap_compose, list_fmap_id. done.
  - intros dist Hrun. rewrite (transition_model_keys _ _ _ _ Hdict Hclosed Hrun).
    rewrite fromkeys_is_map by done. unfold keys.
    by rewrite <-list_fmap_compose, list_fmap_id.
Qed.

(** The theorem on [{A: {B}, B: {A}}] from the page [A], damping 0.85. *)
Lemma first_draw_from_current_witness :
  sample_step corpus_cycle damping_Q draws
    (fromkeys (keys corpus_cycle) (of_nat 0), "A") 1 =
  sample_step_spec corpus_cycle damping_Q draws
    (fromkeys (keys corpus_cycle) (of_nat 0), "A") 1.
Proof.
  apply (first_draw_from_current corpus_cycle damping_Q draws "A"); decide_by_eval.
Defined.

(** In exact rational arithmetic [iterate_pagerank] terminates: on every
    non-empty corpus as the loader builds it and for every damping factor in
    [[0, 1)], some number of sweeps makes it return a distribution, and any
    larger number returns the same one. Each in-place sweep shrinks the
    weighted distance between successive distributions by the damping
    factor, so it falls below the threshold. *)
Theorem iterate_pagerank_returns (corpus : corpus_t) (damping : Qc) :
  is_dict corpus → closed corpus → corpus ≠ [] → 0 ≤ damping < 1 →
  ∃ fuel dist,
    iterate_pagerank fuel corpus damping = Some (Ok dist)
    ∧ ∀ fuel', (fuel ≤ fuel')%nat →
        iterate_pagerank fuel' corpus damping = Some (Ok dist).
Proof.
  intros Hdict Hclosed Hne Hd.
  destruct (iterate_pagerank_terminates corpus damping) as (fuel & dist & Hrun); [done..|].
  exists fuel, dist. split; [done|]. intros fuel' Hle.
  rewrite iterate_pagerank_start in * by done.
  by apply (iterate_loop_mono fuel fuel').
Qed.

(** The theorem on [{A: {B}, B: {A}, C: {A}}], damping 0.85. *)
Lemma iterate_pagerank_returns_witness :
  ∃ fuel dist,
    iterate_pagerank fuel corpus_3 damping_Q = Some (Ok dist)
    ∧ ∀ fuel', (fuel ≤ fuel')%nat →
        iterate_pagerank fuel' corpus_3 damping_Q = Some (Ok dist).
Proof.
  apply (iterate_pagerank_returns corpus_3 damping_Q).
  - decide_by_eval.
  - decide_by_eval.
  - discriminate.
  - split; [discriminate|reflexivity].
Defined.

(** *** Errors of the transition model *)

Lemma dict_get_not_in {V} (d : dict V) k : k ∉ keys d → dict_get d k = Raise (KeyError k).
Proof.
  induction d as [|[k' v'] d IH]; cbn; [done|].
  intros Hnin. rewrite decide_False.
  - apply IH. intros ?. apply Hnin. by right.
  - intros ->. apply Hnin. left.
Qed.

(** [for key in links: d[key] += x / n] stops with [KeyError] at the first
    link that is no key of [d]. *)
Lemma add_links_loop_fault ls (d : dict Qc) (x : Qc) n :
  (0 < n)%nat → (∃ q, q ∈ ls ∧ q ∉ keys d) →
  ∃ q, q ∈ ls ∧ (q ∉ keys d) ∧
    (for_each ls d (fun d key =>
       old ← dict_get d key;
       inc ← py_div x (of_nat n);
       Ok (dict_set d key (add old inc))) = Raise (KeyError q)).
Proof.
  intros Hn. rewrite py_div_of_nat by done. cbn.
  revert d. induction ls as [|key ls IH]; intros d (q & Hq & Hnin).
  - by apply elem_of_nil in Hq.
  - destruct (decide (key ∈ keys d)) as [Hkey|Hkey].
    + apply elem_of_cons in Hq as [->|Hq]; [done|].
      destruct (IH (dict_set d key (val d key + x / Qc_of_nat n))) as (q' & Hq' & Hnin' & Hrun).
      { exists q. split; [done|]. by rewrite keys_dict_set_in. }
      exists q'. split_and!; [by right|by rewrite keys_dict_set_in in Hnin'|].
      cbn. rewrite dict_get_val by done. cbn. apply Hrun.
    + exists key. split_and!; [left|done|]. cbn. by rewrite dict_get_not_in.
Qed.

(** [transition_model] fails only by [KeyError], and exactly when the data
    model is violated at the page asked for: the page is not in the corpus
    (the key reported), or one of its links is not (a link reported). In
    particular it never divides by zero. Exact rational arithmetic. *)
Theorem transition_model_errors (corpus : corpus_t) page (damping : Qc) :
  is_dict corpus →
  (page ∉ keys corpus → transition_model corpus page damping = Raise (KeyError page))
  ∧ (∀ links, (page, links) ∈ corpus → (∃ q, q ∈ links ∧ q ∉ keys corpus) →
       ∃ q, q ∈ links ∧ (q ∉ keys corpus) ∧
         (transition_model corpus page damping = Raise (KeyError q)))
  ∧ (∀ links, (page, links) ∈ corpus → (∀ q, q ∈ links → q ∈ keys corpus) →
       ∃ dist, transition_model corpus page damping = Ok dist ∧ keys dist = keys corpus).
Proof.
  intros Hdict. split_and!.
  - intros Hnin. unfold transition_model. by rewrite dict_get_not_in.
  - intros links Hpage (q & Hq & Hnin).
    pose proof (length_corpus_pos _ _ _ Hpage) as HN.
    assert (Hne : links ≠ ∅) by (intros ->; by apply not_elem_of_empty in Hq).
    pose proof (size_links_pos _ Hne) as HL.
    unfold transition_model. rewrite (dict_get_elem _ _ _ Hdict Hpage). cbn -[of_nat].
    rewrite bool_decide_true by done. rewrite set_all_loop by done. cbn -[of_nat].
    change (foldl _ [] (keys corpus))
      with (fromkeys (keys corpus) (sub (of_nat 1) damping / Qc_of_nat (length corpus))).
    rewrite fromkeys_is_map by done.
    set (d0 := map _ (keys corpus)).
    assert (Hk0 : keys d0 = keys corpus).
    { unfold d0, keys. rewrite <-list_fmap_compose. apply list_fmap_id. }
    destruct (add_links_loop_fault (elements links) d0 damping (size links) HL)
      as (q' & Hq' & Hnin' & Hrun).
    { exists q. split; [by apply elem_of_elements|by rewrite Hk0]. }
    exists q'. split_and!; [by apply elem_of_elements|by rewrite <-Hk0|done].
  - intros links Hpage Hsub. destruct (decide (links = ∅)) as [->|Hne].
    + rewrite transition_model_dangling_spec by done. eexists. split; [done|].
      unfold keys. rewrite <-list_fmap_compose. apply list_fmap_id.
    + pose proof (length_corpus_pos _ _ _ Hpage) as HN.
      pose proof (size_links_pos _ Hne) as HL.
      unfold transition_model. rewrite (dict_get_elem _ _ _ Hdict Hpage). cbn -[of_nat].
      rewrite bool_decide_true by done. rewrite set_all_loop by done. cbn -[of_nat].
      change (foldl _ [] (keys corpus))
        with (fromkeys (keys corpus) (sub (of_nat 1) damping / Qc_of_nat (length corpus))).
      rewrite fromkeys_is_map by done.
      set (d0 := map _ (keys corpus)).
      assert (Hk0 : keys d0 = keys corpus).
      { unfold d0, keys. rewrite <-list_fmap_compose. apply list_fmap_id. }
      destruct (add_links_loop (elements links) d0 damping (size links) HL)
        as (dist & Hrun & Hkeys & _).
      { apply NoDup_elements. }
      { intros k Hk%elem_of_elements. rewrite Hk0. by apply Hsub. }
      exists dist. split; [done|congruence].
Qed.

(** The theorem on [{A: {B}, B: {}}] at the page [A], damping 0.85. *)
Lemma transition_model_errors_witness :
  ("A" ∉ keys corpus_AB → transition_model corpus_AB "A" damping_Q = Raise (KeyError "A"))
  ∧ (∀ links, ("A", links) ∈ corpus_AB → (∃ q, q ∈ links ∧ q ∉ keys corpus_AB) →
       ∃ q, q ∈ links ∧ (q ∉ keys corpus_AB) ∧
         (transition_model corpus_AB "A" damping_Q = Raise (KeyError q)))
  ∧ (∀ links, ("A", links) ∈ corpus_AB → (∀ q, q ∈ links → q ∈ keys corpus_AB) →
       ∃ dist, transition_model corpus_AB "A" damping_Q = Ok dist
         ∧ keys dist = keys corpus_AB).
Proof.
  apply (transition_model_errors corpus_AB "A" damping_Q). decide_by_eval.
Defined.

(** *** The transition model as a distribution *)

Lemma sum_uniform (corpus : corpus_t) :
  corpus ≠ [] →
  sumQc (map (fun _ : string => 1 / Qc_of_nat (length corpus)) (keys corpus)) = 1.
Proof.
  intros Hne. rewrite sumQc_const. unfold keys. rewrite length_fmap.
  field. apply Qc_of_nat_ne_0. destruct corpus; [done|cbn; lia].
Qed.

Lemma transition_model_ok (corpus : corpus_t) page (damping : Qc) :
  is_dict corpus → closed corpus → page ∈ keys corpus → 0 < damping < 1 →
  ∃ dist, transition_model corpus page damping = Ok dist
    ∧ keys dist = keys corpus
    ∧ total dist = 1
    ∧ ∀ q, q ∈ keys corpus → ∃ v, dict_get dist q = Ok v ∧ 0 < v.
Proof.
  intros Hdict Hclosed Hpage [Hd0 Hd1].
  destruct (dict_get_in corpus page Hpage) as (links & _ & Hin).
  pose proof (length_corpus_pos _ _ _ Hin) as HN.
  assert (Hne : corpus ≠ []) by (intros ->; cbn in HN; lia).
  destruct (decide (links = ∅)) as [->|Hlinks].
  - rewrite transition_model_dangling_spec by done.
    set (dist := map _ (keys corpus)).
    assert (Hkeys : keys dist = keys corpus).
    { unfold dist, keys. rewrite <-list_fmap_compose. apply list_fmap_id. }
    exists dist. split_and!; [done..| |].
    + rewrite total_val by (unfold is_dict; by rewrite Hkeys). rewrite Hkeys.
      rewrite <-(sum_uniform corpus Hne). apply sumQc_ext. intros q Hq.
      unfold dist. by rewrite val_const.
    + intros q Hq. exists (val dist q). split; [apply dict_get_val; by rewrite Hkeys|].
      unfold dist. rewrite val_const by done. apply Qcdiv_pos; [done|].
      by apply Qc_of_nat_pos.
  - destruct (transition_model_linked_spec corpus page links damping)
      as (dist & Hrun & Hkeys & Hval); [done..|].
    exists dist. split_and!; [done..| |].
    + rewrite total_val by (unfold is_dict; by rewrite Hkeys).
      rewrite Hkeys, (sumQc_ext _ _ _ Hval).
      apply sum_linked; [done..|]. by eapply closed_links_in_keys.
    + intros q Hq. exists (val dist q). split; [apply dict_get_val; by rewrite Hkeys|].
      rewrite Hval by done. pose proof (base_mass_pos corpus damping Hne Hd1) as Hb.
      case_bool_decide; [|done]. apply Qcplus_pos_pos; [done|].
      apply Qcdiv_pos; [done|]. by apply Qc_of_nat_pos, size_links_pos.
Qed.

(** For every page of a corpus as the loader builds it, with links or
    without, and a damping factor in (0,1), [transition_model] returns a
    probability distribution over the pages of the corpus: one entry per
    page in the corpus's order, every probability positive, 1 in all. Exact
    rational arithmetic. *)
Theorem transition_model_distribution (corpus : corpus_t) page (damping : Qc) :
  is_dict corpus → closed corpus → page ∈ keys corpus → 0 < damping < 1 →
  ∃ dist, transition_model corpus page damping = Ok dist
    ∧ keys dist = keys corpus
    ∧ total dist = 1
    ∧ ∀ q, q ∈ keys corpus → ∃ v, dict_get dist q = Ok v ∧ 0 < v.
Proof. apply transition_model_ok. Qed.

(** The theorem at the dangling page [B] of [{A: {B}, B: {}}], damping 0.85. *)
Lemma transition_model_distribution_witness :
  ∃ dist, transition_model corpus_AB "B" damping_Q = Ok dist
    ∧ keys dist = keys corpus_AB
    ∧ total dist = 1
    ∧ ∀ q, q ∈ keys corpus_AB → ∃ v, dict_get dist q = Ok v ∧ 0 < v.
Proof.
  apply (transition_model_distribution corpus_AB "B" damping_Q).
  - decide_by_eval.
  - decide_by_eval.
  - decide_by_eval.
  - split; reflexivity.
Defined.

(** *** The sampling estimator returns a distribution *)

Lemma bisect_loop_bounds {R} `{PyNum R} fuel (a : list R) (x : R) lo hi :
  (lo ≤ hi)%nat →
  (lo ≤ bisect_loop fuel a x lo hi ≤ hi)%nat.
Proof.
  revert lo hi. induction fuel as [|fuel IH]; intros lo hi Hle; cbn [bisect_loop]; [lia|].
  destruct (lo <? hi)%nat eqn:Hlt; [|lia]. apply Nat.ltb_lt in Hlt.
  assert (Hmid : (lo ≤ (lo + hi) / 2 < hi)%nat).
  { pose proof (Nat.div_mod_eq (lo + hi) 2) as Hdiv.
    pose proof (Nat.mod_upper_bound (lo + hi) 2) as Hmod. lia. }
  destruct (ltb x _).
  - specialize (IH lo ((lo + hi) / 2)%nat). lia.
  - specialize (IH ((lo + hi) / 2 + 1)%nat hi). lia.
Qed.

Lemma length_accumulate_from (acc : Qc) ws :
  length (accumulate_from Qcplus acc ws) = length ws.
Proof. revert acc. induction ws as [|w ws IH]; intros acc; cbn; [done|]. by rewrite IH. Qed.

Lemma accumulate_from_last (acc : Qc) ws :
  (acc :: accumulate_from Qcplus acc ws) !! length ws = Some (acc + sumQc ws).
Proof.
  revert acc. induction ws as [|w ws IH]; intros acc.
  - cbn. by rewrite Qcplus_0_r.
  - cbn [accumulate_from length sumQc]. rewrite lookup_cons_ne_0 by done.
    cbn [pred]. rewrite (IH (acc + w)). by rewrite Qcplus_assoc.
Qed.

Lemma py_index_minus_1 {A} (l : list A) x : last l = Some x → py_index l (-1) = Ok x.
Proof.
  intros Hlast. unfold py_index. change (-1 <? 0)%Z with true. cbn match.
  rewrite last_lookup in Hlast.
  destruct (Z.ltb_spec (Z.of_nat (length l) + -1) 0) as [Hneg|Hpos].
  - destruct l; [done|cbn in Hneg; lia].
  - replace (Z.to_nat (Z.of_nat (length l) + -1)) with (pred (length l)) by lia.
    by rewrite Hlast.
Qed.

(** The cumulative weights end with the total weight. *)
Lemma accumulate_total (ws : list Qc) :
  ws ≠ [] →
  length (accumulate Qcplus ws) = length ws
  ∧ py_index (accumulate Qcplus ws) (-1) = Ok (sumQc ws).
Proof.
  destruct ws as [|w ws]; [done|]. intros _. cbn [accumulate sumQc]. split.
  - cbn. by rewrite length_accumulate_from.
  - apply py_index_minus_1. rewrite last_lookup. cbn [length pred].
    rewrite length_accumulate_from. apply accumulate_from_last.
Qed.

(** A weighted draw over a non-empty population with a positive total
    weight returns a member of the population, whatever the variate: the
    bisection is confined to the indices of the population. *)
Lemma choices_weighted_ok (population : list string) (weights : list Qc) (u : Qc) :
  population ≠ [] → length weights = length population → 0 < sumQc weights →
  ∃ page, choices_weighted population weights u = Ok page ∧ page ∈ population.
Proof.
  intros Hne Hlen Hpos. unfold choices_weighted.
  assert (Hw : weights ≠ []) by (intros ->; destruct population; done).
  destruct (accumulate_total weights Hw) as [Hlen' Hlast].
  cbn [add Qc_num]. rewrite Hlen', Hlen, Nat.eqb_refl. cbn [negb].
  rewrite Hlast. cbn -[py_index bisect].
  fold (Qc_of_nat 0). rewrite Qc_of_nat_0, Qcplus_0_r.
  apply Qcgt_alt in Hpos. rewrite Hpos.
  apply py_index_in_range. split; [lia|]. unfold bisect.
  pose proof (bisect_loop_bounds (length population - 1 - 0) (accumulate Qcplus weights)
                (u * sumQc weights) 0 (length population - 1)) as Hb.
  destruct population; [done|]. cbn [length] in *. lia.
Qed.

(** The running-average update, entry by entry. *)
Lemma update_average_spec (d current_dist : dict Qc) i :
  is_dict d → keys current_dist = keys d → (0 < i)%nat →
  ∃ d', update_average d current_dist i = Ok d'
    ∧ keys d' = keys d
    ∧ ∀ k, k ∈ keys d →
        val d' k = (Qc_of_nat (i - 1) * val d k + val current_dist k) / Qc_of_nat i.
Proof.
  intros Hdict Hkeys Hi. unfold update_average.
  enough (Hgen : ∀ ks acc, NoDup ks → keys acc = keys d → (∀ k, k ∈ ks → k ∈ keys d) →
            ∃ d', for_each ks acc (fun d _page =>
                    old ← dict_get d _page;
                    cur ← dict_get current_dist _page;
                    v ← py_div (add (mul (of_nat (i - 1)) old) cur) (of_nat i);
                    Ok (dict_set d _page v)) = Ok d'
              ∧ keys d' = keys d
              ∧ ∀ k, val d' k =
                  if bool_decide (k ∈ ks)
                  then (Qc_of_nat (i - 1) * val acc k + val current_dist k) / Qc_of_nat i
                  else val acc k).
  { destruct (Hgen (keys d) d) as (d' & Hrun & Hk & Hv); [done..|].
    exists d'. split_and!; [done..|]. intros k Hin. by rewrite Hv, bool_decide_true. }
  induction ks as [|key ks IH]; intros acc Hnd Hacc Hsub.
  - exists acc. split_and!; [done..|]. intros k.
    by rewrite bool_decide_false by apply not_elem_of_nil.
  - apply NoDup_cons in Hnd as [Hnin Hnd].
    assert (Hkey : key ∈ keys d) by (apply Hsub; left).
    set (v := (Qc_of_nat (i - 1) * val acc key + val current_dist key) / Qc_of_nat i).
    destruct (IH (dict_set acc key v)) as (d' & Hrun & Hk & Hv); [done| | |].
    { rewrite keys_dict_set_in; [done|by rewrite Hacc]. }
    { intros k ?. apply Hsub. by right. }
    exists d'. split_and!; [|done|].
    + cbn -[of_nat]. rewrite (dict_get_val acc key) by (by rewrite Hacc). cbn -[of_nat].
      rewrite (dict_get_val current_dist key) by (by rewrite Hkeys). cbn -[of_nat].
      rewrite py_div_of_nat by done. cbn -[of_nat Qc_of_nat]. apply Hrun.
    + intros k. rewrite Hv. destruct (decide (k = key)) as [->|Hne].
      * rewrite (bool_decide_true (key ∈ key :: ks)) by left.
        rewrite bool_decide_false by done. by rewrite val_set_eq.
      * rewrite val_set_ne by done.
        rewrite (bool_decide_ext (k ∈ key :: ks) (k ∈ ks)); [done|].
        rewrite elem_of_cons. split; [by intros [?|?]|by right].
Qed.

Lemma total_values (d : dict Qc) : total d = sumQc (values d).
Proof. done. Qed.

(** One pass of the loop of [sample_pagerank]: it raises nothing, keeps the
    pages, lands on a page of the corpus, and leaves an accumulator of
    positive entries that sums to 1, provided the accumulator summed to 1
    before, or the pass is the first. *)
Lemma sample_step_ok (corpus : corpus_t) (damping : Qc) u (d : dict Qc) page i :
  is_dict corpus → closed corpus → 0 < damping < 1 → (0 < i)%nat →
  keys d = keys corpus → page ∈ keys corpus →
  (∀ q, q ∈ keys corpus → 0 ≤ val d q) → (i = 1%nat ∨ total d = 1) →
  ∃ d' page', sample_step corpus damping u (d, page) i = Ok (d', page')
    ∧ keys d' = keys corpus ∧ page' ∈ keys corpus
    ∧ total d' = 1 ∧ ∀ q, q ∈ keys corpus → 0 < val d' q.
Proof.
  intros Hdict Hclosed Hd Hi Hkeys Hpage Hnonneg Htot.
  destruct (transition_model_ok corpus page damping)
    as (cur & Hcur & Hkcur & Htcur & Hpcur); [done..|].
  assert (Hdd : is_dict d) by (unfold is_dict; by rewrite Hkeys).
  destruct (update_average_spec d cur i Hdd) as (d' & Hupd & Hk' & Hval); [congruence|done|].
  assert (Hipos : 0 < Qc_of_nat i) by (by apply Qc_of_nat_pos).
  assert (Hpos : ∀ q, q ∈ keys corpus → 0 < val d' q).
  { intros q Hq. rewrite Hval by (by rewrite Hkeys).
    apply Qcdiv_pos; [|done]. apply Qcplus_nonneg_pos.
    - apply Qcmult_nonneg_nonneg; [apply Qc_of_nat_nonneg|by apply Hnonneg].
    - destruct (Hpcur q Hq) as (v & Hv & Hvpos). unfold val. by rewrite Hv. }
  assert (Htotal : total d' = 1).
  { rewrite total_val by (unfold is_dict; by rewrite Hk', Hkeys).
    rewrite Hk', (sumQc_ext _ (fun k => / Qc_of_nat i *
                     (Qc_of_nat (i - 1) * val d k + val cur k))).
    2: { intros k Hk. rewrite Hval by done. unfold Qcdiv. ring. }
    rewrite (sumQc_scale (fun k => Qc_of_nat (i - 1) * val d k + val cur k)).
    rewrite (sumQc_plus (fun k => Qc_of_nat (i - 1) * val d k) (val cur)).
    rewrite (sumQc_scale (val d)).
    rewrite <-(total_val d Hdd).
    assert (Hc : total cur = sumQc (map (val cur) (keys d))).
    { rewrite total_val by (unfold is_dict; by rewrite Hkcur). congruence. }
    rewrite <-Hc, Htcur.
    assert (Hne : Qc_of_nat i ≠ 0) by (by apply Qc_of_nat_ne_0).
    destruct Htot as [-> | ->].
    - cbn [Nat.sub]. rewrite Qc_of_nat_0. change (Qc_of_nat 1) with (Qc_of_Z 1).
      rewrite Z2Qc_inj_1. by field.
    - replace (Qc_of_nat (i - 1) * 1 + 1) with (Qc_of_nat i); [by field|].
      destruct i as [|i]; [lia|]. cbn [Nat.sub]. rewrite Nat.sub_0_r, Qc_of_nat_S. ring. }
  destruct (choices_weighted_ok (keys d') (values d') (u i)) as (page' & Hdraw & Hin).
  - rewrite Hk'. rewrite Hkeys. intros Heq. rewrite Heq in Hpage. by apply elem_of_nil in Hpage.
  - unfold keys, values. by rewrite !length_fmap.
  - rewrite <-total_values, Htotal. done.
  - exists d', page'. split_and!; [|congruence|congruence|done..].
    unfold sample_step. rewrite Hcur. cbn -[update_average choices_weighted].
    rewrite Hupd. cbn -[choices_weighted]. by rewrite Hdraw.
Qed.

Lemma sample_loop_ok (corpus : corpus_t) (damping : Qc) u :
  is_dict corpus → closed corpus → 0 < damping < 1 →
  ∀ len a (d : dict Qc) page,
    (0 < a)%nat → keys d = keys corpus → page ∈ keys corpus →
    (∀ q, q ∈ keys corpus → 0 ≤ val d q) → (a = 1%nat ∨ total d = 1) →
    ∃ d' page',
      for_each (seq a len) (d, page) (sample_step corpus damping u) = Ok (d', page')
      ∧ keys d' = keys corpus ∧ page' ∈ keys corpus
      ∧ ((0 < len)%nat → total d' = 1 ∧ ∀ q, q ∈ keys corpus → 0 < val d' q).
Proof.
  intros Hdict Hclosed Hd len. induction len as [|len IH];
    intros a d page Ha Hkeys Hpage Hnonneg Htot.
  - exists d, page. split_and!; [done..|lia].
  - destruct (sample_step_ok corpus damping u d page a)
      as (d1 & page1 & Hstep & Hk1 & Hp1 & Ht1 & Hpos1); [done..|].
    destruct (IH (S a) d1 page1) as (d' & page' & Hrun & Hk' & Hp' & Hrest);
      [lia|done|done| |by right|].
    { intros q Hq. by apply Qclt_le_weak, Hpos1. }
    exists d', page'. split_and!; [|done..|].
    + cbn [seq for_each]. by rewrite Hstep.
    + intros _. destruct len as [|len]; [|apply Hrest; lia].
      cbn in Hrun. by simplify_eq.
Qed.

Lemma sample_pagerank_ok (corpus : corpus_t) (damping : Qc) n (u : nat → Qc) :
  is_dict corpus → closed corpus → corpus ≠ [] → 0 < damping < 1 →
  0 ≤ u 0%nat < 1 → (2 ≤ n)%nat →
  ∃ dist, sample_pagerank corpus damping n u = Ok dist
    ∧ keys dist = keys corpus
    ∧ total dist = 1
    ∧ ∀ q, q ∈ keys corpus → ∃ v, dict_get dist q = Ok v ∧ 0 < v.
Proof.
  intros Hdict Hclosed Hne Hd Hu Hn. unfold sample_pagerank.
  destruct (choices_uniform_ok (keys corpus) (u 0%nat)) as (page & -> & Hpage); [|done|].
  { destruct corpus; [done|by cbn]. }
  cbn -[fromkeys of_nat for_each]. rewrite fromkeys_is_map by done.
  change (@of_nat Qc _ 0) with (Qc_of_Z 0). rewrite Z2Qc_inj_0.
  set (d0 := map (fun k => (k, 0)) (keys corpus)).
  assert (Hk0 : keys d0 = keys corpus).
  { unfold d0, keys. rewrite <-list_fmap_compose. apply list_fmap_id. }
  destruct (sample_loop_ok corpus damping u Hdict Hclosed Hd (n - 1) 1 d0 page)
    as (d' & page' & Hrun & Hk' & _ & Hrest); [lia|done|done| |by left|].
  { intros q Hq. unfold d0. by rewrite val_const. }
  rewrite Hrun. cbn. destruct Hrest as [Htotal Hpos]; [lia|].
  exists d'. split_and!; [done..|]. intros q Hq. exists (val d' q).
  split; [apply dict_get_val; by rewrite Hk'|by apply Hpos].
Qed.

(** On a non-empty corpus as the loader builds it, with a damping factor in
    (0,1) and at least two samples, [sample_pagerank] raises nothing and
    returns a probability distribution over the pages of the corpus: one
    entry per page, every estimate positive, exactly 1 in all, whatever the
    random draws (the start variate being one of [random.random()]). Exact
    rational arithmetic. *)
Theorem sample_pagerank_distribution (corpus : corpus_t) (damping : Qc) n (u : nat → Qc) :
  is_dict corpus → closed corpus → corpus ≠ [] → 0 < damping < 1 →
  0 ≤ u 0%nat < 1 → (2 ≤ n)%nat →
  ∃ dist, sample_pagerank corpus damping n u = Ok dist
    ∧ keys dist = keys corpus
    ∧ total dist = 1
    ∧ ∀ q, q ∈ keys corpus → ∃ v, dict_get dist q = Ok v ∧ 0 < v.
Proof. apply sample_pagerank_ok. Qed.

(** The theorem on [{A: {B}, B: {}}], damping 0.85, four samples. *)
Lemma sample_pagerank_distribution_witness :
  ∃ dist, sample_pagerank corpus_AB damping_Q 4 draws = Ok dist
    ∧ keys dist = keys corpus_AB
    ∧ total dist = 1
    ∧ ∀ q, q ∈ keys corpus_AB → ∃ v, dict_get dist q = Ok v ∧ 0 < v.
Proof.
  apply (sample_pagerank_distribution corpus_AB damping_Q 4 draws).
  - decide_by_eval.
  - decide_by_eval.
  - discriminate.
  - split; reflexivity.
  - split; [discriminate|reflexivity].
  - lia.
Defined.

(** *** Ranks the iteration fixes exactly *)

Lemma sweeps_keys k (corpus : corpus_t) (damping : Qc) (x y : dict Qc) :
  is_dict corpus → keys x = keys corpus →
  sweeps k corpus damping x = Ok y → keys y = keys corpus.
Proof.
  intros Hdict. revert x. induction k as [|k IH]; intros x Hkeys; cbn.
  - by intros [= <-].
  - destruct (sweep_spec corpus damping x Hdict Hkeys) as (x' & c & -> & Hk' & _).
    by apply IH.
Qed.

Lemma link_sum_none (corpus : corpus_t) (x : string → Qc) p :
  (∀ q links, (q, links) ∈ corpus → p ∉ links) → link_sum corpus x p = 0.
Proof.
  intros Hnone. unfold link_sum.
  rewrite (sumQc_ext _ (fun _ => 0)).
  - rewrite sumQc_const. ring.
  - intros [q links] Hin. rewrite bool_decide_false; [done|]. by eapply Hnone.
Qed.

(** A page no page links to ends with exactly the base mass
    [(1 - damping)/N], the least rank there is: what [iterate_pagerank]
    returns holds that value for it, whatever the damping factor and the
    rest of the graph. Exact rational arithmetic. *)
Theorem rank_without_inlinks (corpus : corpus_t) (damping : Qc) fuel dist p :
  is_dict corpus → p ∈ keys corpus →
  (∀ q links, (q, links) ∈ corpus → p ∉ links) →
  iterate_pagerank fuel corpus damping = Some (Ok dist) →
  dict_get dist p = Ok ((1 - damping) / Qc_of_nat (length corpus)).
Proof.
  intros Hdict Hp Hnone.
  assert (Hne : corpus ≠ []) by (intros ->; by apply elem_of_nil in Hp).
  rewrite iterate_pagerank_start by done.
  intros (k & prev & Hprev & Hlast)%iterate_loop_last.
  destruct (initial_invariant corpus Hne) as [Hk0 _].
  pose proof (sweeps_keys _ _ _ _ _ Hdict Hk0 Hprev) as Hkprev.
  destruct (sweep_spec corpus damping prev Hdict Hkprev)
    as (dist' & c & Hrun & Hkeys & Hval & _).
  rewrite Hlast in Hrun. injection Hrun as <- <-.
  rewrite dict_get_val by (by rewrite Hkeys). f_equal.
  destruct (before_split _ _ Hp) as [post Hsplit].
  rewrite (Hval _ _ _ Hsplit), link_sum_none by done.
  unfold base_mass. ring.
Qed.

(** The theorem at the page [A] of [{A: {B}, B: {}}], damping 0.85. *)
Lemma rank_without_inlinks_witness :
  dict_get (("A", Q2Qc (3 # 40)) :: ("B", Q2Qc (111 # 800)) :: nil) "A" =
  Ok ((1 - damping_Q) / Qc_of_nat (length corpus_AB)).
Proof.
  apply (rank_without_inlinks corpus_AB damping_Q 2).
  - decide_by_eval.
  - decide_by_eval.
  - intros q links Hin.
    apply elem_of_cons in Hin as [Heq|Hin];
      [injection Heq as -> ->; by apply not_elem_of_singleton|].
    apply elem_of_cons in Hin as [Heq|Hin];
      [injection Heq as -> ->; apply not_elem_of_empty|].
    by apply elem_of_nil in Hin.
  - apply outcome_Q_inj. vm_compute. reflexivity.
Defined.

Lemma link_sum_const (corpus : corpus_t) (c : Qc) p :
  link_sum corpus (fun _ => c) p = c * link_sum corpus (fun _ => 1) p.
Proof.
  unfold link_sum. rewrite <-sumQc_scale. apply sumQc_ext. intros [q links] _.
  case_bool_decide; unfold Qcdiv; ring.
Qed.

(** Where the shares coming into every page add up to one (each page gets
    as much as it gives: a cycle, a complete graph), the uniform
    distribution is a fixed point of the sweep, and [iterate_pagerank]
    returns it after a single sweep, [1/N] for every page, whatever the
    damping factor. Exact rational arithmetic. *)
Theorem balanced_corpus_uniform (corpus : corpus_t) (damping : Qc) fuel :
  is_dict corpus → corpus ≠ [] →
  (∀ p, p ∈ keys corpus → link_sum corpus (fun _ => 1) p = 1) →
  iterate_pagerank (S fuel) corpus damping =
  Some (Ok (map (fun k => (k, 1 / Qc_of_nat (length corpus))) (keys corpus))).
Proof.
  intros Hdict Hne Hbal. rewrite iterate_pagerank_start by done.
  destruct (initial_invariant corpus Hne) as [Hk0 _].
  set (x := map (fun k => (k, 1 / Qc_of_nat (length corpus))) (keys corpus)) in *.
  destruct (sweep_spec corpus damping x Hdict Hk0) as (x' & c & Hrun & Hk' & Hval & Hflag).
  assert (HN : Qc_of_nat (length corpus) ≠ 0).
  { apply Qc_of_nat_ne_0. destruct corpus; [done|cbn; lia]. }
  assert (Hsame : ∀ n pre p post, length pre = n → keys corpus = pre ++ p :: post →
                  val x' p = 1 / Qc_of_nat (length corpus)).
  { induction n as [n IH] using lt_wf_ind. intros pre p post Hlen Heq.
    assert (Hp : p ∈ keys corpus) by (rewrite Heq; apply elem_of_app; right; left).
    rewrite (Hval pre p post Heq).
    rewrite (link_sum_ext _ _ (fun _ => 1 / Qc_of_nat (length corpus))).
    - rewrite link_sum_const, (Hbal p Hp). unfold base_mass. by field.
    - intros q Hq. case_bool_decide as Hpre; [|unfold x; by rewrite val_const].
      apply list_elem_of_split in Hpre as (l1 & l2 & ->).
      apply (IH (length l1)) with l1 (l2 ++ p :: post); [|done|].
      + rewrite <-Hlen, length_app. cbn. lia.
      + rewrite Heq. by rewrite <-app_assoc. }
  assert (Hall : ∀ p, p ∈ keys corpus → val x' p = val x p).
  { intros p Hp. unfold x at 1. rewrite val_const by done.
    apply list_elem_of_split in Hp as (pre & post & Heq).
    by apply (Hsame (length pre) pre p post). }
  assert (Heq : x' = x).
  { apply dict_val_ext; [unfold is_dict; by rewrite Hk'|congruence|].
    intros p Hp. apply Hall. by rewrite <-Hk'. }
  assert (Hc : c = false).
  { apply Hflag. intros p Hp. rewrite Hall by done.
    replace (val x p - val x p) with 0 by ring. done. }
  cbn [iterate_loop]. rewrite Hrun, Hc. by rewrite Heq.
Qed.

(** The theorem on the two-page cycle [{A: {B}, B: {A}}], damping 0.85:
    the scenario of the specification, [{A: 0.5, B: 0.5}]. *)
Lemma balanced_corpus_uniform_witness :
  iterate_pagerank 1 corpus_cycle damping_Q =
  Some (Ok (map (fun k => (k, 1 / Qc_of_nat (length corpus_cycle))) (keys corpus_cycle))).
Proof.
  apply (balanced_corpus_uniform corpus_cycle damping_Q 0).
  - decide_by_eval.
  - discriminate.
  - intros p Hp.
    repeat (apply elem_of_cons in Hp as [->|Hp]; [apply Qc_is_canon; reflexivity|]).
    by apply elem_of_nil in Hp.
Defined.

(** *** The loader builds a well-formed corpus *)

Lemma keys_dict_set {V} (d : dict V) k v :
  keys (dict_set d k v) = if bool_decide (k ∈ keys d) then keys d else keys d ++ [k].
Proof.
  case_bool_decide as Hk.
  - by apply keys_dict_set_in.
  - rewrite dict_set_fresh by done. unfold keys. by rewrite fmap_app.
Qed.

Lemma is_dict_set {V} (d : dict V) k v : is_dict d → is_dict (dict_set d k v).
Proof.
  unfold is_dict. intros Hnd. rewrite keys_dict_set. case_bool_decide as Hk; [done|].
  apply NoDup_app. split_and!; [done| |apply NoDup_singleton].
  intros x Hx ->%list_elem_of_singleton. done.
Qed.

Lemma dict_get_set {V} (d : dict V) k k' v :
  dict_get (dict_set d k v) k' = if decide (k = k') then Ok v else dict_get d k'.
Proof.
  case_decide as Hk; [subst; apply dict_get_set_eq|by apply dict_get_set_ne].
Qed.

Lemma dict_get_keys {V} (d : dict V) k : k ∈ keys d ↔ ∃ v, dict_get d k = Ok v.
Proof.
  split.
  - intros (v & Hv & _)%dict_get_in. by exists v.
  - intros [v Hv]. destruct (decide (k ∈ keys d)) as [|Hnin]; [done|].
    by rewrite dict_get_not_in in Hv.
Qed.

(** The first loop of [crawl] on a listing it can read. *)
Lemma crawl_read_loop (listing : list (string * file)) (acc : corpus_t) :
  readable listing → is_dict acc →
  ∃ pages,
    crawl_read listing acc = Loaded pages
    ∧ is_dict pages
    ∧ keys pages =
        foldl (fun ks name => if bool_decide (name ∈ ks) then ks else ks ++ [name])
          (keys acc) (filter (fun name => endswith name ".html" = true) listing.*1)
    ∧ ∀ p, dict_get pages p =
           match recorded listing p with
           | Some links => Ok links
           | None => dict_get acc p
           end.
Proof.
  revert acc. induction listing as [|[name f] listing IH]; intros acc Hread Hdict.
  - exists acc. by split_and!.
  - apply Forall_cons in Hread as [Hopen Hread]. unfold opens in Hopen. cbn in Hopen.
    cbn [crawl_read recorded crawl_read_step].
    destruct (endswith name ".html") eqn:Hhtml; cbn [negb].
    + destruct f as [text|e]; [|done].
      destruct (IH (dict_set acc name (list_to_set (findall href_pattern text) ∖ {[name]})))
        as (pages & Hrun & Hd & Hkeys & Hget); [done|by apply is_dict_set|].
      exists pages. split_and!; [done|done| |].
      * rewrite Hkeys. cbn [fmap list_fmap fst]. rewrite filter_cons, decide_True by done.
        cbn [foldl]. by rewrite keys_dict_set.
      * intros p. rewrite Hget. destruct (recorded listing p); [done|].
        rewrite dict_get_set, andb_true_r.
        destruct (decide (name = p)) as [->|Hne];
          [by rewrite bool_decide_true|by rewrite bool_decide_false].
    + destruct (IH acc Hread Hdict) as (pages & Hrun & Hd & Hkeys & Hget).
      exists pages. split_and!; [done|done| |].
      * rewrite Hkeys. cbn [fmap list_fmap fst]. rewrite filter_cons, decide_False; [done|].
        by rewrite Hhtml.
      * intros p. rewrite Hget. destruct (recorded listing p); [done|].
        destruct f; [by rewrite andb_false_r|done].
Qed.

(** The first loop of [crawl] stops at the first [.html] entry it cannot
    read, with the exception of that entry. *)
Lemma crawl_read_fails pre name e post (acc : corpus_t) :
  readable pre → endswith name ".html" = true →
  crawl_read (pre ++ (name, Unreadable e) :: post) acc = ReadFailed name e.
Proof.
  revert acc. induction pre as [|[n f] pre IH]; intros acc Hread Hhtml.
  - cbn. by rewrite Hhtml.
  - apply Forall_cons in Hread as [Hopen Hread]. unfold opens in Hopen. cbn in Hopen.
    cbn [app crawl_read crawl_read_step].
    destruct (endswith n ".html"); cbn [negb]; [destruct f; [|done]|]; by apply IH.
Qed.

(** A listing can be read, or has a first [.html] entry that cannot. *)
Lemma readable_or_not (listing : list (string * file)) :
  readable listing
  ∨ ∃ pre name e post,
      listing = pre ++ (name, Unreadable e) :: post
      ∧ readable pre ∧ endswith name ".html" = true.
Proof.
  induction listing as [|[n f] listing IH]; [left; constructor|].
  destruct (opens (n, f)) eqn:Hopen.
  - destruct IH as [Hr|(pre & name & e & post & -> & Hpre & Hhtml)].
    + left. by constructor.
    + right. exists ((n, f) :: pre), name, e, post. split_and!; [done|by constructor|done].
  - right. unfold opens in Hopen. cbn in Hopen. destruct f as [|e]; [done|].
    exists [], n, e, listing. split_and!; [done|constructor|].
    by destruct (endswith n ".html").
Qed.

(** The second loop of [crawl]: every link set is cut down to the pages. *)
Lemma crawl_filter_loop (pages0 : corpus_t) (ks : list string) (pages : corpus_t) :
  keys pages = keys pages0 → (∀ k, k ∈ ks → k ∈ keys pages0) → NoDup ks →
  ∃ pages',
    for_each ks pages crawl_filter_step = Ok pages'
    ∧ keys pages' = keys pages0
    ∧ ∀ p, dict_get pages' p =
           match dict_get pages p with
           | Ok links =>
               Ok (if bool_decide (p ∈ ks)
                   then filter (fun link => link ∈ keys pages0) links else links)
           | Raise e => Raise e
           end.
Proof.
  revert pages. induction ks as [|k ks IH]; intros pages Hkeys Hsub Hnd.
  - exists pages. split_and!; [done..|]. intros p. destruct (dict_get pages p); [|done].
    by rewrite bool_decide_false by apply not_elem_of_nil.
  - apply NoDup_cons in Hnd as [Hk Hnd].
    assert (Hin : k ∈ keys pages) by (rewrite Hkeys; apply Hsub; left).
    destruct (dict_get_in pages k Hin) as (links & Hget & _).
    destruct (IH (dict_set pages k (filter (fun link => link ∈ keys pages) links)))
      as (pages' & Hrun & Hk' & Hget'); [|intros ??; apply Hsub; by right|done|].
    { by rewrite keys_dict_set_in. }
    exists pages'. split_and!; [|done|].
    + cbn [for_each]. unfold crawl_filter_step at 1. rewrite Hget. cbn. apply Hrun.
    + intros p. rewrite Hget', dict_get_set. destruct (decide (k = p)) as [->|Hne].
      * rewrite Hget, bool_decide_false by done.
        rewrite (bool_decide_true (p ∈ p :: ks)) by left. by rewrite Hkeys.
      * destruct (dict_get pages p); [|done].
        rewrite (bool_decide_ext (p ∈ k :: ks) (p ∈ ks)); [done|].
        rewrite elem_of_cons. split; [intros [?|?]; [by subst|done]|by right].
Qed.

(** What [crawl] computes on a listing it can read, entry by entry. *)
Lemma crawl_spec (listing : list (string * file)) :
  readable listing →
  ∃ corpus,
    crawl listing = Loaded corpus
    ∧ is_dict corpus
    ∧ keys corpus =
        foldl (fun ks name => if bool_decide (name ∈ ks) then ks else ks ++ [name])
          [] (filter (fun name => endswith name ".html" = true) listing.*1)
    ∧ ∀ p, dict_get corpus p =
           match recorded listing p with
           | Some links => Ok (filter (fun link => link ∈ keys corpus) links)
           | None => Raise (KeyError p)
           end.
Proof.
  intros Hread.
  destruct (crawl_read_loop listing []) as (pages & Hrun & Hd & Hkeys & Hget);
    [done|apply NoDup_nil_2|].
  destruct (crawl_filter_loop pages (keys pages) pages) as (corpus & Hrun' & Hk' & Hget');
    [done..|].
  exists corpus. split_and!.
  - unfold crawl. by rewrite Hrun, Hrun'.
  - unfold is_dict. by rewrite Hk'.
  - by rewrite Hk', Hkeys.
  - intros p. rewrite Hget', Hget, Hk'. destruct (recorded listing p) as [links|] eqn:Hrec.
    + rewrite bool_decide_true; [done|]. apply dict_get_keys. exists links.
      by rewrite Hget, Hrec.
    + done.
Qed.

Lemma crawl_fails pre name e post :
  readable pre → endswith name ".html" = true →
  crawl (pre ++ (name, Unreadable e) :: post) = ReadFailed name e.
Proof. intros Hread Hhtml. unfold crawl. by rewrite crawl_read_fails. Qed.

Lemma crawl_loaded_readable (listing : list (string * file)) corpus :
  crawl listing = Loaded corpus → readable listing.
Proof.
  intros Hrun.
  destruct (readable_or_not listing) as [|(pre & name & e & post & -> & Hpre & Hhtml)];
    [done|].
  by rewrite crawl_fails in Hrun.
Qed.

Lemma elem_of_dedup_fold (l acc : list string) x :
  x ∈ foldl (fun ks name => if bool_decide (name ∈ ks) then ks else ks ++ [name]) acc l
  ↔ x ∈ acc ∨ x ∈ l.
Proof.
  revert acc. induction l as [|y l IH]; intros acc; cbn [foldl].
  - split; [by left|intros [?|?%elem_of_nil]; done].
  - rewrite IH. case_bool_decide as Hy.
    + rewrite elem_of_cons. split; [intros [?|?]; auto|intros [?|[->|?]]; auto].
    + rewrite elem_of_app, list_elem_of_singleton, elem_of_cons. tauto.
Qed.

Lemma dedup_fold_NoDup (l acc : list string) :
  NoDup (acc ++ l) →
  foldl (fun ks name => if bool_decide (name ∈ ks) then ks else ks ++ [name]) acc l
  = acc ++ l.
Proof.
  revert acc. induction l as [|y l IH]; intros acc Hnd; cbn [foldl].
  - by rewrite app_nil_r.
  - apply NoDup_app in Hnd as Hnd'. destruct Hnd' as (_ & Hdisj & _).
    rewrite bool_decide_false by (intros Hin; apply (Hdisj _ Hin); left).
    rewrite IH; rewrite <-app_assoc; done.
Qed.

Lemma recorded_name listing p links : recorded listing p = Some links → p ∈ listing.*1.
Proof.
  induction listing as [|[name f] listing IH]; cbn [recorded]; [done|].
  rewrite fmap_cons, elem_of_cons. cbn [fst].
  destruct (recorded listing p) as [l|].
  - intros [= <-]. right. by apply IH.
  - destruct f as [text|e]; [|done].
    case_bool_decide as Hn; [|done]. subst. intros _. by left.
Qed.

Lemma recorded_inv listing p links :
  recorded listing p = Some links →
  endswith p ".html" = true ∧
  ∃ contents, (p, Text contents) ∈ listing
    ∧ links = list_to_set (findall href_pattern contents) ∖ {[p]}.
Proof.
  induction listing as [|[name f] listing IH]; cbn [recorded]; [done|].
  destruct (recorded listing p) as [l|].
  - intros [= <-]. destruct (IH eq_refl) as (Hp & contents & Hin & Heq).
    split; [done|]. exists contents. split; [by apply elem_of_cons; right|done].
  - destruct f as [text|e]; [|done].
    case_bool_decide as Hn; [|done]. subst. cbn [andb].
    destruct (endswith p ".html") eqn:Hp; [|done]. intros [= <-].
    split; [done|]. exists text. split; [by apply elem_of_cons; left|done].
Qed.

Lemma recorded_NoDup listing p contents :
  NoDup listing.*1 → (p, Text contents) ∈ listing → endswith p ".html" = true →
  recorded listing p = Some (list_to_set (findall href_pattern contents) ∖ {[p]}).
Proof.
  induction listing as [|[name f] listing IH]; cbn [recorded].
  - by intros _ ?%elem_of_nil.
  - rewrite fmap_cons. cbn [fst].
    intros [Hname Hnd]%NoDup_cons [Heq|Hin]%elem_of_cons Hp.
    + injection Heq as -> <-. destruct (recorded listing name) as [l|] eqn:Hrec.
      * by apply recorded_name in Hrec.
      * by rewrite bool_decide_true, Hp.
    + by rewrite (IH Hnd Hin Hp).
Qed.

(** [crawl] ends in one of two ways, whatever the directory holds. If it
    can read every entry whose name ends in [.html], it returns a corpus
    that satisfies the data model the estimators assume: the pages are
    distinct, they are exactly the names ending in [.html], every link of
    every page is itself a page, and no page links to itself. If not, it
    raises the exception of the first such entry it cannot read, the
    entries after it unread. It raises nothing of its own. *)
Theorem crawl_well_formed (listing : list (string * file)) :
  (readable listing
   ∧ ∃ corpus,
       crawl listing = Loaded corpus
       ∧ is_dict corpus
       ∧ closed corpus
       ∧ (∀ p links, (p, links) ∈ corpus → p ∉ links)
       ∧ (∀ p, p ∈ keys corpus ↔ p ∈ listing.*1 ∧ endswith p ".html" = true))
  ∨ (∃ pre name e post,
       listing = pre ++ (name, Unreadable e) :: post
       ∧ readable pre ∧ endswith name ".html" = true
       ∧ crawl listing = ReadFailed name e).
Proof.
  destruct (readable_or_not listing) as [Hread|(pre & name & e & post & -> & Hpre & Hhtml)].
  2: { right. exists pre, name, e, post. split_and!; [done..|]. by apply crawl_fails. }
  left. split; [done|].
  destruct (crawl_spec listing Hread) as (corpus & Hrun & Hdict & Hkeys & Hget).
  exists corpus. split_and!; [done..| | |].
  - intros p links Hp q Hq. apply (dict_get_elem _ _ _ Hdict) in Hp.
    rewrite Hget in Hp. destruct (recorded listing p); [|done]. simplify_eq.
    by apply elem_of_filter in Hq as [Hq _].
  - intros p links Hp Hself. apply (dict_get_elem _ _ _ Hdict) in Hp.
    rewrite Hget in Hp. destruct (recorded listing p) as [l|] eqn:Hrec; [|done].
    simplify_eq. apply elem_of_filter in Hself as [_ Hself].
    apply recorded_inv in Hrec as (_ & contents & _ & ->).
    apply elem_of_difference in Hself as [_ Hself]. by apply Hself, elem_of_singleton.
  - intros p. rewrite Hkeys, elem_of_dedup_fold, list_elem_of_filter.
    split; [intros [?%elem_of_nil|[? ?]]; done|intros [? ?]; by right].
Qed.

(** The two ways on the sample sites: the subdirectory [images] is never
    opened, the subdirectory [d.html] is, and stops the crawl. *)
Example crawl_sample :
  crawl site_sample = Loaded [("1.html", {["2.html"]}); ("2.html", {["1.html"]})]
  ∧ crawl site_broken = ReadFailed "d.html" IsADirectoryError.
Proof. split; vm_compute; reflexivity. Qed.

(** On a directory whose names are distinct and whose [.html] entries can
    be read, the pages of the corpus are the [.html] names in the order of
    the listing, and the links of a page are exactly the targets the
    pattern finds in its text that are pages of the corpus other than the
    page itself. *)
Theorem crawl_links (listing : list (string * file)) :
  NoDup listing.*1 → readable listing →
  ∃ corpus,
    crawl listing = Loaded corpus
    ∧ keys corpus = filter (fun name => endswith name ".html" = true) listing.*1
    ∧ ∀ p contents, (p, Text contents) ∈ listing → endswith p ".html" = true →
        ∃ links, (p, links) ∈ corpus
          ∧ ∀ l, l ∈ links ↔
                 l ∈ findall href_pattern contents ∧ l ≠ p ∧ l ∈ keys corpus.
Proof.
  intros Hnd Hread.
  destruct (crawl_spec listing Hread) as (corpus & Hrun & Hdict & Hkeys & Hget).
  exists corpus. split_and!; [done| |].
  - rewrite Hkeys. apply (dedup_fold_NoDup _ []). cbn. by apply NoDup_filter.
  - intros p contents Hin Hp. eexists. split.
    + apply dict_get_Ok_elem. rewrite Hget. by rewrite (recorded_NoDup _ _ _ Hnd Hin Hp).
    + intros l. rewrite elem_of_filter, elem_of_difference, elem_of_list_to_set,
        elem_of_singleton. tauto.
Qed.

(** *** The matcher against what the expression means *)

Lemma append_cons (x : Ascii.ascii) (a b : string) :
  String.String x a +:+ b = String.String x (a +:+ b).
Proof. reflexivity. Qed.

Lemma append_nil_l (b : string) : "" +:+ b = b.
Proof. reflexivity. Qed.

Lemma append_assoc (a b c : string) : (a +:+ b) +:+ c = a +:+ (b +:+ c).
Proof. induction a as [|x a IH]; rewrite ?append_cons, ?append_nil_l; [done|by f_equal]. Qed.

Lemma append_nil_r (a : string) : a +:+ "" = a.
Proof. induction a as [|x a IH]; rewrite ?append_cons, ?append_nil_l; [done|by f_equal]. Qed.

Lemma length_append (a b : string) :
  String.length (a +:+ b) = (String.length a + String.length b)%nat.
Proof.
  induction a as [|x a IH]; rewrite ?append_cons, ?append_nil_l; simpl; [done|by f_equal].
Qed.

Lemma substring_all (a : string) : String.substring 0 (String.length a) a = a.
Proof. induction a as [|x a IH]; simpl; [done|by f_equal]. Qed.

Lemma substring_prefix (a b : string) :
  String.substring 0 (String.length (a +:+ b) - String.length b) (a +:+ b) = a.
Proof.
  rewrite length_append. replace (_ + _ - _)%nat with (String.length a) by lia.
  induction a as [|x a IH]; rewrite ?append_cons, ?append_nil_l; simpl;
    [by destruct b|by f_equal].
Qed.

Lemma all_chars_append cls (a b : string) :
  all_chars cls (a +:+ b) = all_chars cls a && all_chars cls b.
Proof.
  induction a as [|x a IH]; rewrite ?append_cons, ?append_nil_l; simpl; [done|].
  by rewrite IH, andb_assoc.
Qed.

Lemma string_split n (w : string) :
  (n ≤ String.length w)%nat → ∃ w1 w2, w = w1 +:+ w2 ∧ String.length w1 = n.
Proof.
  revert w. induction n as [|n IH]; intros w Hle; [by exists "", w|].
  destruct w as [|c w]; cbn in Hle; [lia|].
  destruct (IH w) as (w1 & w2 & -> & <-); [lia|].
  by exists (String.String c w1), w2.
Qed.

Section MatcherSound.
Context {X : Type}.

Lemma lit_sound text s (k : string → option X) x :
  lit text s k = Some x → ∃ rest, s = text +:+ rest ∧ k rest = Some x.
Proof.
  revert s. induction text as [|c text IH]; intros s; cbn [lit].
  - intros Hk. by exists s.
  - destruct s as [|c' s]; [done|]. destruct (Ascii.eqb c c') eqn:Hc; [|done].
    apply Ascii.eqb_eq in Hc as <-. intros (rest & -> & Hk)%IH. by exists rest.
Qed.

Lemma lit_complete text rest (k : string → option X) :
  lit text (text +:+ rest) k = k rest.
Proof.
  induction text as [|c text IH]; rewrite ?append_cons, ?append_nil_l; cbn [lit]; [done|].
  by rewrite Ascii.eqb_refl.
Qed.

Lemma rep_least_sound cls n s (k : string → option X) x :
  rep_least cls n s k = Some x →
  ∃ w rest, s = w +:+ rest ∧ String.length w = n ∧ all_chars cls w = true
            ∧ k rest = Some x.
Proof.
  revert s. induction n as [|n IH]; intros s; cbn [rep_least].
  - intros Hk. by exists "", s.
  - destruct s as [|c s]; [done|]. destruct (cls c) eqn:Hc; [|done].
    intros (w & rest & -> & <- & Hw & Hk)%IH.
    exists (String.String c w), rest. cbn. by rewrite Hc, Hw.
Qed.

Lemma rep_greedy_sound cls s (k : string → option X) x :
  rep_greedy cls s k = Some x →
  ∃ w rest, s = w +:+ rest ∧ all_chars cls w = true ∧ k rest = Some x.
Proof.
  induction s as [|c s IH]; cbn [rep_greedy].
  - intros Hk. by exists "", "".
  - destruct (cls c) eqn:Hc; [|intros Hk; by exists "", (String.String c s)].
    destruct (rep_greedy cls s k) as [y|] eqn:Hrun.
    + intros [= ->]. destruct (IH eq_refl) as (w & rest & -> & Hw & Hk).
      exists (String.String c w), rest. cbn. by rewrite Hc, Hw.
    + intros Hk. by exists "", (String.String c s).
Qed.

Lemma rep_lazy_sound cls s (k : string → option X) x :
  rep_lazy cls s k = Some x →
  ∃ w rest, s = w +:+ rest ∧ all_chars cls w = true ∧ k rest = Some x.
Proof.
  induction s as [|c s IH]; cbn [rep_lazy].
  - destruct (k "") as [y|] eqn:Hk; [|done]. intros [= ->]. by exists "", "".
  - destruct (k (String.String c s)) as [y|] eqn:Hk.
    + intros [= ->]. by exists "", (String.String c s).
    + destruct (cls c) eqn:Hc; [|done].
      intros (w & rest & -> & Hw & Hk')%IH.
      exists (String.String c w), rest. cbn. by rewrite Hc, Hw.
Qed.

Lemma rep_least_complete cls w rest (k : string → option X) :
  all_chars cls w = true →
  rep_least cls (String.length w) (w +:+ rest) k = k rest.
Proof.
  induction w as [|c w IH]; rewrite ?append_cons, ?append_nil_l;
    cbn [all_chars rep_least String.length]; [done|].
  intros [Hc Hw]%andb_prop. rewrite Hc. by apply IH.
Qed.

Lemma rep_greedy_complete cls w rest (k : string → option X) :
  all_chars cls w = true → is_Some (k rest) → is_Some (rep_greedy cls (w +:+ rest) k).
Proof.
  induction w as [|c w IH]; rewrite ?append_cons, ?append_nil_l; cbn [all_chars].
  - intros _ Hk. destruct rest as [|c rest]; cbn [rep_greedy]; [done|].
    destruct (cls c); [|done]. by destruct (rep_greedy cls rest k).
  - intros [Hc Hw]%andb_prop Hk. cbn [rep_greedy]. rewrite Hc.
    destruct (IH Hw Hk) as [y ->]. done.
Qed.

Lemma rep_lazy_complete cls w rest (k : string → option X) :
  all_chars cls w = true → is_Some (k rest) → is_Some (rep_lazy cls (w +:+ rest) k).
Proof.
  induction w as [|c w IH]; rewrite ?append_cons, ?append_nil_l; cbn [all_chars].
  - intros _ [y Hk]. destruct rest as [|c rest]; cbn [rep_lazy]; by rewrite Hk.
  - intros [Hc Hw]%andb_prop Hk. cbn [rep_lazy].
    destruct (k (String.String c (w +:+ rest))); [done|]. rewrite Hc. by apply IH.
Qed.

(** Whatever the matcher accepts, the expression matches: the text splits
    into a part the expression matches and the rest, on which the
    continuation succeeded. *)
Lemma run_sound r s cap (k : string → option string → option X) x :
  run r s cap k = Some x →
  ∃ w rest cap', s = w +:+ rest ∧ matches r w cap cap' ∧ k rest cap' = Some x.
Proof.
  revert s cap k. induction r as [text|cls least greedy|r IH|r1 IH1 r2 IH2];
    intros s cap k; cbn [run].
  - intros (rest & -> & Hk)%lit_sound. exists text, rest, cap.
    split_and!; [done|constructor|done].
  - intros (w1 & s1 & -> & <- & Hw1 & Hrun)%rep_least_sound.
    assert (∃ w2 rest, s1 = w2 +:+ rest ∧ all_chars cls w2 = true ∧ k rest cap = Some x)
      as (w2 & rest & -> & Hw2 & Hk).
    { destruct greedy; [by apply rep_greedy_sound in Hrun|by apply rep_lazy_sound in Hrun]. }
    exists (w1 +:+ w2), rest, cap. split_and!; [by rewrite append_assoc| |done].
    constructor; [rewrite length_append; lia|by rewrite all_chars_append, Hw1, Hw2].
  - intros (w & rest & cap' & -> & Hm & Hk)%IH. rewrite substring_prefix in Hk.
    exists w, rest, (Some w). split_and!; [done|by econstructor|done].
  - intros (w1 & s1 & cap1 & -> & Hm1 & Hrun)%IH1.
    apply IH2 in Hrun as (w2 & rest & cap2 & -> & Hm2 & Hk).
    exists (w1 +:+ w2), rest, cap2. split_and!; [by rewrite append_assoc|by econstructor|done].
Qed.

(** Whatever the expression matches, the matcher finds, this match or one
    it tries before: it gives up only when no split of the text works. *)
Lemma run_complete r w rest cap cap0 (k : string → option string → option X) :
  matches r w cap0 cap → (∀ cap', is_Some (k rest cap')) →
  ∀ cap1, is_Some (run r (w +:+ rest) cap1 k).
Proof.
  intros Hm. revert rest k. induction Hm as
    [text cap|cls least greedy w cap Hle Hw|r w cap cap' Hm IH
    |r1 r2 w1 w2 cap cap1 cap2 Hm1 IH1 Hm2 IH2]; intros rest k Hk c1; cbn [run].
  - rewrite lit_complete. apply Hk.
  - destruct (string_split least w Hle) as (w1 & w2 & Heq & Hlen).
 rewrite Heq in Hw |- *.
    rewrite all_chars_append in Hw. apply andb_prop in Hw as [Hw1 Hw2].
    rewrite append_assoc, <-Hlen, rep_least_complete by done.
    destruct greedy; [apply rep_greedy_complete|apply rep_lazy_complete]; done.
  - apply IH. intros c. apply Hk.
  - rewrite append_assoc. apply IH1. intros c. by apply IH2.
Qed.

End MatcherSound.

Lemma findall_loop_sound fuel r s t :
  t ∈ findall_loop fuel r s →
  ∃ pre w post cap, s = pre +:+ w +:+ post ∧ matches r w None cap ∧ t = default w cap.
Proof.
  revert s. induction fuel as [|fuel IH]; intros s; cbn [findall_loop].
  - by intros ?%elem_of_nil.
  - assert (Hnext : t ∈ match s with
                        | String.String _ s' => findall_loop fuel r s'
                        | String.EmptyString => []
                        end →
      ∃ pre w post cap, s = pre +:+ w +:+ post ∧ matches r w None cap ∧ t = default w cap).
    { destruct s as [|c s]; [by intros ?%elem_of_nil|].
      intros (pre & w & post & cap & -> & Hm & Ht)%IH.
      by exists (String.String c pre), w, post, cap. }
    destruct (run r s None (fun rest cap => Some (rest, cap))) as [[rest cap]|] eqn:Hrun;
      [|done].
    apply run_sound in Hrun as (w & rest' & cap' & -> & Hm & [= <- <-]).
    rewrite substring_prefix. intros [->|Hin]%elem_of_cons.
    + by exists "", w, rest', cap'.
    + destruct (String.length rest' <? String.length (w +:+ rest'))%nat; [|by apply Hnext].
      apply IH in Hin as (pre & w' & post & cap & -> & Hm' & Ht).
      exists (w +:+ pre), w', post, cap. by rewrite append_assoc.
Qed.

Lemma findall_loop_complete fuel r pre w post cap0 cap :
  (String.length pre < fuel)%nat → matches r w cap0 cap →
  findall_loop fuel r (pre +:+ w +:+ post) ≠ [].
Proof.
  intros Hfuel Hm. revert fuel Hfuel. induction pre as [|c pre IH]; intros fuel Hfuel;
    (destruct fuel as [|fuel]; [cbn in Hfuel; lia|]); cbn [findall_loop].
  - rewrite append_nil_l.
    destruct (run_complete r w post cap cap0 (fun rest cap => Some (rest, cap)) Hm
                (fun _ => ltac:(done)) None) as [[rest cap'] ->].
    done.
  - rewrite append_cons.
    destruct (run r _ None _) as [[rest cap']|]; [done|].
    apply IH. cbn in Hfuel. lia.
Qed.

Lemma matches_href w cap0 cap :
  matches href_pattern w cap0 cap ↔
  ∃ ws mid t,
    w = "<a" +:+ ws +:+ mid +:+ "href=" +:+ String.String quote t +:+ String.String quote ""
    ∧ cap = Some t
    ∧ ws ≠ ""
    ∧ all_chars is_space ws = true
    ∧ all_chars (fun c => negb (Ascii.eqb c gt_char)) mid = true
    ∧ all_chars (fun c => negb (Ascii.eqb c quote)) t = true.
Proof.
  unfold href_pattern. split.
  - intros Hm.
    repeat match goal with
           | H : matches (Cat _ _) _ _ _ |- _ => inversion H; subst; clear H
           | H : matches (Lit _) _ _ _ |- _ => inversion H; subst; clear H
           | H : matches (Grp _) _ _ _ |- _ => inversion H; subst; clear H
           | H : matches (Rep _ _ _) _ _ _ |- _ => inversion H; subst; clear H
           end.
    match goal with
    | |- ∃ _ _ _, "<a" +:+ ?ws +:+ ?mid +:+ _ +:+ ?t +:+ _ = _ ∧ _ =>
        exists ws, mid, t
    end.
    split_and!; try done. intros ->. cbn in *. lia.
  - intros (ws & mid & t & -> & -> & Hne & Hws & Hmid & Ht).
    change ("href=" +:+ String.String quote t +:+ String.String quote "")
      with (("href=" +:+ String.String quote "") +:+ t +:+ String.String quote "").
    apply (matches_cat _ _ _ _ cap0 cap0); [constructor|].
    apply (matches_cat _ _ _ _ cap0 cap0);
      [constructor; [destruct ws; [done|cbn; lia]|done]|].
    apply (matches_cat _ _ _ _ cap0 cap0); [constructor; [lia|done]|].
    apply (matches_cat _ _ _ _ cap0 cap0); [constructor|].
    apply (matches_cat _ _ _ _ cap0 (Some t)); [|constructor].
    apply (matches_grp _ _ cap0 cap0). constructor; [lia|done].
Qed.

Lemma findall_anchor (s t : string) : t ∈ findall href_pattern s → anchor_in s t.
Proof.
  intros (pre & w & post & cap & -> & Hm & ->)%findall_loop_sound.
  apply matches_href in Hm as (ws & mid & t & -> & -> & Hne & Hws & Hmid & Ht).
  exists pre, ws, mid, post. split_and!; [|done..].
  cbn [default]. f_equal. rewrite !append_assoc. reflexivity.
Qed.

(** Every target [re.findall] returns for the pattern of [crawl] stands in
    the text inside an anchor: after an opening [<a], white space and
    characters other than [>], as the quoted value of [href=], and it holds
    no double quote itself. *)
Theorem findall_href_sound (s t : string) :
  t ∈ findall href_pattern s → anchor_in s t.
Proof. apply findall_anchor. Qed.

(** The theorem on the first page of the sample site. *)
Lemma findall_href_sound_witness :
  "2.html" ∈ findall href_pattern (anchor "2.html" +:+ anchor "1.html" +:+ anchor "x.html")
  ∧ anchor_in (anchor "2.html" +:+ anchor "1.html" +:+ anchor "x.html") "2.html".
Proof.
  assert (H : "2.html"
    ∈ findall href_pattern (anchor "2.html" +:+ anchor "1.html" +:+ anchor "x.html"))
    by decide_by_eval.
  split; [exact H|exact (findall_href_sound _ _ H)].
Defined.

(** [re.findall] finds a target exactly in the texts that hold an anchor:
    the list it returns is empty if and only if no part of the text has the
    shape [<a], white space, characters other than [>], [href=] and a
    quoted value. *)
Theorem findall_href_nonempty (s : string) :
  findall href_pattern s ≠ [] ↔ ∃ t, anchor_in s t.
Proof.
  split.
  - destruct (findall href_pattern s) as [|t l] eqn:Hfind; [done|]. intros _.
    exists t. apply findall_anchor. rewrite Hfind. left.
  - intros (t & pre & ws & mid & post & -> & Hne & Hws & Hmid & Ht).
    set (w := "<a" +:+ ws +:+ mid +:+ "href=" +:+ String.String quote t
                +:+ String.String quote "").
    assert (Hm : matches href_pattern w None (Some t)).
    { apply matches_href. by exists ws, mid, t. }
    replace (pre +:+ _) with (pre +:+ w +:+ post).
    + unfold findall. apply (findall_loop_complete _ _ _ _ _ None (Some t)); [|done].
      rewrite length_append. lia.
    + unfold w. f_equal. rewrite !append_assoc. reflexivity.
Qed.

(** *** The loader with the pattern *)

(** Every link of the corpus [crawl] returns is backed by the directory:
    the page is a file of the listing whose text holds an anchor with the
    link as its target, and the link is another page of the corpus. *)
Theorem crawl_links_anchored (listing : list (string * file)) corpus p links l :
  crawl listing = Loaded corpus → (p, links) ∈ corpus → l ∈ links →
  l ≠ p ∧ l ∈ keys corpus
  ∧ ∃ contents, (p, Text contents) ∈ listing ∧ anchor_in contents l.
Proof.
  intros Hrun Hp Hl.
  destruct (crawl_spec listing (crawl_loaded_readable _ _ Hrun))
    as (corpus' & Hrun' & Hdict & _ & Hget).
  rewrite Hrun in Hrun'. injection Hrun' as <-.
  apply (dict_get_elem _ _ _ Hdict) in Hp. rewrite Hget in Hp.
  destruct (recorded listing p) as [l0|] eqn:Hrec; [|done]. injection Hp as <-.
  apply elem_of_filter in Hl as [Hkey Hl].
  apply recorded_inv in Hrec as (_ & contents & Hin & ->).
  apply elem_of_difference in Hl as [Hl Hne]. split_and!; [|done|].
  - intros ->. by apply Hne, elem_of_singleton.
  - exists contents. split; [done|]. apply findall_anchor.
    by apply elem_of_list_to_set in Hl.
Qed.

(** The theorem on the sample site: the first page links to the second. *)
Lemma crawl_links_anchored_witness :
  "2.html" ≠ "1.html" ∧ "2.html" ∈ keys [("1.html", {["2.html"]} : gset string); ("2.html", {["1.html"]})]
  ∧ ∃ contents, ("1.html", Text contents) ∈ site_sample ∧ anchor_in contents "2.html".
Proof.
  apply (crawl_links_anchored site_sample
           [("1.html", {["2.html"]}); ("2.html", {["1.html"]})] "1.html" {["2.html"]} "2.html").
  - vm_compute. reflexivity.
  - left.
  - by apply elem_of_singleton.
Defined.

(** The theorem of the links on the sample site. *)
Lemma crawl_links_witness :
  ∃ corpus,
    crawl site_sample = Loaded corpus
    ∧ keys corpus = filter (fun name => endswith name ".html" = true) site_sample.*1
    ∧ ∀ p contents, (p, Text contents) ∈ site_sample → endswith p ".html" = true →
        ∃ links, (p, links) ∈ corpus
          ∧ ∀ l, l ∈ links ↔
                 l ∈ findall href_pattern contents ∧ l ≠ p ∧ l ∈ keys corpus.
Proof.
  apply (crawl_links site_sample); decide_by_eval.
Defined.

(** *** The weighted draw as the inverse of the cumulative weights *)

Lemma ltb_Qc (x y : Qc) : ltb x y = bool_decide (x < y).
Proof. apply (gtb_Qc y x). Qed.

Lemma nth_accumulate_from (acc : Qc) ws i :
  (i < length ws)%nat →
  nth i (accumulate_from Qcplus acc ws) 0 = acc + sumQc (take (S i) ws).
Proof.
  revert acc i. induction ws as [|w ws IH]; intros acc i Hi; cbn in Hi; [lia|].
  cbn [accumulate_from]. destruct i as [|i].
  - cbn. destruct ws; cbn; ring.
  - cbn [nth]. rewrite IH by lia. cbn [take sumQc]. ring.
Qed.

Lemma nth_accumulate (ws : list Qc) i :
  (i < length ws)%nat → nth i (accumulate Qcplus ws) 0 = sumQc (take (S i) ws).
Proof.
  destruct ws as [|w ws]; cbn [length]; [lia|]. intros Hi. cbn [accumulate].
  destruct i as [|i].
  - cbn. destruct ws; cbn; ring.
  - cbn [nth]. rewrite nth_accumulate_from by lia. done.
Qed.

Lemma sumQc_take_mono (ws : list Qc) i j :
  (∀ w, w ∈ ws → 0 ≤ w) → (i ≤ j)%nat → sumQc (take i ws) ≤ sumQc (take j ws).
Proof.
  revert i j. induction ws as [|w ws IH]; intros i j Hpos Hij.
  - rewrite !take_nil. apply Qcle_refl.
  - assert (Hw : 0 ≤ w) by (apply Hpos; left).
    assert (Hws : ∀ w', w' ∈ ws → 0 ≤ w') by (intros w' Hw'; apply Hpos; by right).
    destruct i as [|i]; destruct j as [|j]; try lia; cbn [take sumQc].
    + apply Qcle_refl.
    + replace 0 with (0 + 0) by ring. apply Qcplus_le_compat; [done|].
      apply (IH 0%nat j Hws). lia.
    + apply Qcplus_le_compat; [apply Qcle_refl|]. apply (IH i j Hws). lia.
Qed.

(** [bisect_right] on a non-decreasing list: the index returned splits the
    list into the entries at most [x] and the entries above [x]. *)
Lemma bisect_loop_spec fuel (a : list Qc) (x : Qc) lo hi :
  (∀ i j, (i ≤ j < length a)%nat → nth i a 0 ≤ nth j a 0) →
  (lo ≤ hi ≤ length a)%nat → (hi - lo ≤ fuel)%nat →
  (∀ j, (j < lo)%nat → nth j a 0 ≤ x) →
  (∀ j, (hi ≤ j < length a)%nat → x < nth j a 0) →
  (lo ≤ bisect_loop fuel a x lo hi ≤ hi)%nat
  ∧ (∀ j, (j < bisect_loop fuel a x lo hi)%nat → nth j a 0 ≤ x)
  ∧ (∀ j, (bisect_loop fuel a x lo hi ≤ j < length a)%nat → x < nth j a 0).
Proof.
  intros Hsorted. revert lo hi.
  induction fuel as [|fuel IH]; intros lo hi Hle Hfuel Hlow Hhigh; cbn [bisect_loop].
  - assert (lo = hi) as -> by lia. split; [lia|split; [exact Hlow|exact Hhigh]].
  - destruct (lo <? hi)%nat eqn:Hlt.
    2: { apply Nat.ltb_ge in Hlt. assert (lo = hi) as -> by lia.
         split; [lia|split; [exact Hlow|exact Hhigh]]. }
    apply Nat.ltb_lt in Hlt.
    assert (Hmid : (lo ≤ (lo + hi) / 2 < hi)%nat).
    { pose proof (Nat.div_mod_eq (lo + hi) 2) as Hdiv.
      pose proof (Nat.mod_upper_bound (lo + hi) 2) as Hmod. lia. }
    set (mid := ((lo + hi) / 2)%nat) in *.
    change (of_nat 0) with (Qc_of_Z 0). rewrite Z2Qc_inj_0.
    rewrite ltb_Qc. case_bool_decide as Hx.
    + destruct (IH lo mid) as (Hr & Hl & Hh); [lia|lia|done| |].
      * intros j Hj. apply (Qclt_le_trans _ _ _ Hx). apply Hsorted. lia.
      * split; [lia|split; [exact Hl|exact Hh]].
    + destruct (IH (mid + 1)%nat hi) as (Hr & Hl & Hh); [lia|lia| |done|].
      * intros j Hj. apply Qcnot_lt_le in Hx.
        apply (Qcle_trans _ (nth mid a 0)); [|done]. apply Hsorted. lia.
      * split; [lia|split; [exact Hl|exact Hh]].
Qed.

Lemma py_index_nat {A} (l : list A) (i : nat) x :
  l !! i = Some x → py_index l (Z.of_nat i) = Ok x.
Proof.
  intros Hx. unfold py_index.
  rewrite (proj2 (Z.ltb_ge (Z.of_nat i) 0)) by lia.
  rewrite (proj2 (Z.ltb_ge (Z.of_nat i) 0)) by lia.
  by rewrite Nat2Z.id, Hx.
Qed.

Lemma choices_weighted_index (population : list string) (weights : list Qc) (u : Qc) :
  population ≠ [] → length weights = length population → 0 < sumQc weights →
  choices_weighted population weights u =
  py_index population
    (Z.of_nat (bisect (accumulate Qcplus weights) (u * sumQc weights) 0
                 (length population - 1))).
Proof.
  intros Hne Hlen Hpos. unfold choices_weighted.
  assert (Hw : weights ≠ []) by (intros ->; destruct population; done).
  destruct (accumulate_total weights Hw) as [Hlen' Hlast].
  cbn [add Qc_num]. rewrite Hlen', Hlen, Nat.eqb_refl. cbn [negb].
  rewrite Hlast. cbn -[py_index bisect].
  fold (Qc_of_nat 0). rewrite Qc_of_nat_0, Qcplus_0_r.
  apply Qcgt_alt in Hpos. by rewrite Hpos.
Qed.

(** The index the weighted draw bisects to, with what it satisfies. *)
Lemma bisect_interval (weights : list Qc) (u : Qc) :
  weights ≠ [] → (∀ w, w ∈ weights → 0 ≤ w) → 0 < sumQc weights → 0 ≤ u < 1 →
  let i := bisect (accumulate Qcplus weights) (u * sumQc weights) 0 (length weights - 1) in
  (i < length weights)%nat
  ∧ sumQc (take i weights) ≤ u * sumQc weights < sumQc (take (S i) weights).
Proof.
  intros Hne Hnonneg Hpos [Hu0 Hu1]. cbn zeta. unfold bisect.
  destruct (accumulate_total weights Hne) as [Hlen _].
  assert (Hn : (0 < length weights)%nat) by (destruct weights; [done|cbn; lia]).
  destruct (bisect_loop_spec (length weights - 1 - 0) (accumulate Qcplus weights)
              (u * sumQc weights) 0 (length weights - 1)) as (Hr & Hlow & Hhigh).
  - intros i j Hij. rewrite Hlen in Hij. rewrite !nth_accumulate by lia.
    apply sumQc_take_mono; [done|lia].
  - rewrite Hlen. lia.
  - lia.
  - intros j Hj. lia.
  - intros j Hj. rewrite Hlen in Hj. assert (j = (length weights - 1)%nat) as -> by lia.
    rewrite nth_accumulate by lia.
    replace (S (length weights - 1)) with (length weights) by lia.
    rewrite firstn_all. rewrite <-(Qcmult_1_l (sumQc weights)) at 2.
    by apply Qcmult_lt_compat_r.
  - set (i := bisect_loop _ _ _ _ _) in *. split; [lia|]. split.
    + destruct i as [|i].
      * cbn. apply Qcmult_nonneg_nonneg; [done|by apply Qclt_le_weak].
      * rewrite <-nth_accumulate by lia. apply Hlow. lia.
    + rewrite <-nth_accumulate by lia. apply Hhigh. rewrite Hlen. lia.
Qed.

(** [random.choices] with weights inverts the cumulative weights: for
    non-negative weights of positive total and a variate [u] in [[0, 1)],
    the member returned is the one whose stretch of the cumulative weights
    holds [u * total], the stretch of the [i]-th member running from the
    sum of the weights before it to that sum plus its own weight. So each
    member is drawn on a set of variates of measure [weight / total], and a
    member of weight zero never. Exact rational arithmetic. *)
Theorem weighted_draw_interval (population : list string) (weights : list Qc) (u : Qc) :
  population ≠ [] → length weights = length population →
  (∀ w, w ∈ weights → 0 ≤ w) → 0 < sumQc weights → 0 ≤ u < 1 →
  (∃ i page, choices_weighted population weights u = Ok page
     ∧ population !! i = Some page
     ∧ sumQc (take i weights) ≤ u * sumQc weights < sumQc (take (S i) weights))
  ∧ (∀ i page, population !! i = Some page →
       sumQc (take i weights) ≤ u * sumQc weights < sumQc (take (S i) weights) →
       choices_weighted population weights u = Ok page).
Proof.
  intros Hne Hlen Hnonneg Hpos Hu.
  assert (Hw : weights ≠ []) by (intros ->; destruct population; done).
  rewrite choices_weighted_index by done. rewrite <-Hlen.
  destruct (bisect_interval weights u Hw Hnonneg Hpos Hu) as (Hr & Hlo & Hhi).
  set (r := bisect _ _ _ _) in *.
  destruct (lookup_lt_is_Some_2 population r) as [page Hpage]; [lia|].
  split.
  - exists r, page. by rewrite (py_index_nat _ _ _ Hpage).
  - intros i page' Hi [Hlo' Hhi'].
    assert (i = r) as ->; [|rewrite (py_index_nat _ _ _ Hpage); congruence].
    destruct (Nat.lt_trichotomy i r) as [Hlt|[->|Hgt]]; [|done|]; exfalso.
    + apply (Qclt_not_le _ _ Hhi'). apply (Qcle_trans _ (sumQc (take r weights))); [|done].
      apply sumQc_take_mono; [done|lia].
    + apply (Qclt_not_le _ _ Hhi). apply (Qcle_trans _ (sumQc (take i weights))); [|done].
      apply sumQc_take_mono; [done|lia].
Qed.

(** The theorem on two members of weights 1/4 and 3/4 at the variate 1/2:
    the second member is drawn. *)
Lemma weighted_draw_interval_witness :
  (∃ i page, choices_weighted ["A"; "B"] [Q2Qc (1 # 4); Q2Qc (3 # 4)] (Q2Qc (1 # 2)) = Ok page
     ∧ ["A"; "B"] !! i = Some page
     ∧ sumQc (take i [Q2Qc (1 # 4); Q2Qc (3 # 4)])
         ≤ Q2Qc (1 # 2) * sumQc [Q2Qc (1 # 4); Q2Qc (3 # 4)]
         < sumQc (take (S i) [Q2Qc (1 # 4); Q2Qc (3 # 4)]))
  ∧ (∀ i page, ["A"; "B"] !! i = Some page →
       sumQc (take i [Q2Qc (1 # 4); Q2Qc (3 # 4)])
         ≤ Q2Qc (1 # 2) * sumQc [Q2Qc (1 # 4); Q2Qc (3 # 4)]
         < sumQc (take (S i) [Q2Qc (1 # 4); Q2Qc (3 # 4)]) →
       choices_weighted ["A"; "B"] [Q2Qc (1 # 4); Q2Qc (3 # 4)] (Q2Qc (1 # 2)) = Ok page).
Proof.
  apply (weighted_draw_interval ["A"; "B"] [Q2Qc (1 # 4); Q2Qc (3 # 4)] (Q2Qc (1 # 2))).
  - discriminate.
  - reflexivity.
  - intros w Hw.
    repeat (apply elem_of_cons in Hw as [->|Hw]; [discriminate|]).
    by apply elem_of_nil in Hw.
  - reflexivity.
  - split; [discriminate|reflexivity].
Defined.

(** The checks of [random.choices] in binary64: as many weights as
    members, a total above zero, a finite total; and a draw that passes
    them. *)
Example choices_weighted_float :
  choices_weighted ["A"; "B"] [1%float] 0.5%float = Raise ValueError
  ∧ choices_weighted ["A"; "B"] [0%float; 0%float] 0.5%float = Raise ValueError
  ∧ choices_weighted ["A"; "B"] [infinity; 1%float] 0.5%float = Raise ValueError
  ∧ choices_weighted ["A"; "B"] [nan; 1%float] 0.5%float = Raise ValueError
  ∧ choices_weighted ["A"; "B"] [0.25%float; 0.75%float] 0.5%float = Ok "B".
Proof. split_and!; vm_compute; reflexivity. Qed.

(** *** What the iteration returns against the PageRank equation *)

Lemma link_sum_shift (corpus : corpus_t) (x : string → Qc) (c : Qc) p :
  link_sum corpus (fun q => x q + c) p
  = link_sum corpus x p + c * link_sum corpus (fun _ => 1) p.
Proof.
  unfold link_sum. induction corpus as [|[q links] corpus IH]; cbn [map sumQc]; [ring|].
  rewrite IH. case_bool_decide; unfold Qcdiv; ring.
Qed.

(** What [iterate_pagerank] returns solves the PageRank equation of the
    code up to the threshold: for every page, the rank returned differs
    from [(1 - d)/N + d * sum of rank(q)/links(q) over the pages q linking
    to it] by at most [d * 0.001 * sum of 1/links(q)] over those pages. The
    pages the in-place sweep had already updated enter with no error at
    all, the others moved by at most [0.001] in the last sweep. Exact
    rational arithmetic. *)
Theorem iterate_pagerank_fixed_point (corpus : corpus_t) (damping : Qc) fuel dist :
  is_dict corpus → corpus ≠ [] → 0 ≤ damping < 1 →
  iterate_pagerank fuel corpus damping = Some (Ok dist) →
  ∀ p, p ∈ keys corpus →
    Qcabs (val dist p
           - (base_mass corpus damping + damping * link_sum corpus (val dist) p))
    ≤ damping * eps * link_sum corpus (fun _ => 1) p.
Proof.
  intros Hdict Hne Hd. rewrite iterate_pagerank_start by done.
  intros (k & prev & Hprev & Hlast)%iterate_loop_last p Hp.
  destruct (initial_invariant corpus Hne) as [Hk0 _].
  pose proof (sweeps_keys k corpus damping _ prev Hdict Hk0 Hprev) as Hkprev.
  destruct (last_sweep_bounds corpus damping prev dist Hdict Hkprev (proj1 Hd) Hlast)
    as [_ Hbounds].
  destruct (Hbounds p Hp) as [Hlo Hhi].
  change (fun q => val dist q - eps) with (fun q => val dist q + - eps) in Hlo.
  rewrite link_sum_shift in Hlo. rewrite link_sum_shift in Hhi.
  set (A := link_sum corpus (val dist) p) in *.
  set (L := link_sum corpus (fun _ => 1) p) in *.
  replace (damping * (A + - eps * L)) with (damping * A - damping * eps * L) in Hlo by ring.
  replace (damping * (A + eps * L)) with (damping * A + damping * eps * L) in Hhi by ring.
  apply Qcabs_diff_Qcle_condition.
  generalize dependent (damping * A). generalize dependent (damping * eps * L).
  intros e a Hlo Hhi. split; qc_to_q; lra.
Qed.

(** The theorem at the page [B] of [{A: {B}, B: {}}], damping 0.85, at what
    the iteration returns after two sweeps. *)
Lemma iterate_pagerank_fixed_point_witness :
  Qcabs (val (("A", Q2Qc (3 # 40)) :: ("B", Q2Qc (111 # 800)) :: nil) "B"
         - (base_mass corpus_AB damping_Q + damping_Q *
              link_sum corpus_AB
                (val (("A", Q2Qc (3 # 40)) :: ("B", Q2Qc (111 # 800)) :: nil)) "B"))
  ≤ damping_Q * eps * link_sum corpus_AB (fun _ => 1) "B".
Proof.
  apply (iterate_pagerank_fixed_point corpus_AB damping_Q 2).
  - decide_by_eval.
  - discriminate.
  - split; [discriminate|reflexivity].
  - apply outcome_Q_inj. vm_compute. reflexivity.
  - decide_by_eval.
Defined.

(** *** The command line *)

#[local] Instance str_le_total : Total str_le.
Proof. intros a b. apply String.leb_total. Qed.

Lemma print_ranks_ok (pages : list string) (ranks : dict Qc) (out : list string) :
  (∀ p, p ∈ pages → p ∈ keys ranks) →
  print_ranks pages ranks out
  = (out ++ map (fun page => rank_line page (val ranks page)) pages, Returned).
Proof.
  revert out. induction pages as [|page pages IH]; intros out Hsub; cbn [print_ranks map].
  - by rewrite app_nil_r.
  - rewrite dict_get_val by (apply Hsub; left).
    rewrite IH by (intros p Hp; apply Hsub; by right).
    by rewrite <-app_assoc.
Qed.

Lemma sorted_elem_of (l : list string) p : p ∈ sorted l ↔ p ∈ l.
Proof. unfold sorted. by rewrite merge_sort_Permutation. Qed.

Lemma crawl_no_pages (listing : list (string * file)) :
  (∀ name, name ∈ listing.*1 → endswith name ".html" = false) → crawl listing = Loaded [].
Proof.
  intros Hnone.
  assert (Hread : readable listing).
  { apply Forall_forall. intros [name f] Hin. unfold opens. cbn. destruct f; [done|].
    rewrite (Hnone name); [done|]. apply list_elem_of_fmap. by exists (name, Unreadable e). }
  destruct (crawl_spec listing Hread) as (corpus & -> & _ & Hkeys & _).
  f_equal. destruct corpus as [|[p links] corpus]; [done|].
  assert (Hp : p ∈ keys ((p, links) :: corpus)) by left.
  rewrite Hkeys, elem_of_dedup_fold, list_elem_of_filter in Hp.
  destruct Hp as [Hp|[Hhtml Hp]]; [by apply elem_of_nil in Hp|].
  by rewrite (Hnone p Hp) in Hhtml.
Qed.

Lemma crawl_some_page (listing : list (string * file)) name :
  readable listing → name ∈ listing.*1 → endswith name ".html" = true →
  ∃ corpus, crawl listing = Loaded corpus ∧ is_dict corpus ∧ closed corpus ∧ corpus ≠ [].
Proof.
  intros Hread Hname Hhtml.
  destruct (crawl_spec listing Hread) as (corpus & Hrun & Hdict & Hkeys & Hget).
  exists corpus. split_and!; [done..| |].
  - intros p links Hp q Hq. apply (dict_get_elem _ _ _ Hdict) in Hp.
    rewrite Hget in Hp. destruct (recorded listing p); [|done]. simplify_eq.
    by apply elem_of_filter in Hq as [Hq _].
  - intros ->. assert (Hin : name ∈ keys ([] : corpus_t)); [|by apply elem_of_nil in Hin].
    rewrite Hkeys, elem_of_dedup_fold, list_elem_of_filter. by right.
Qed.

(** [main] fails before it has printed anything in two cases: called with
    other than one argument it exits with the usage message, without
    reading any directory; and on a directory that holds no [.html] file
    the crawl succeeds with an empty corpus and the run dies of the
    [IndexError] of the first random draw, in any arithmetic. *)
Theorem main_fails_silently (R : Type) (num : PyNum R) (text : PyText R)
    (argv : list string) (listdir : string → list (string * file))
    (u : nat → R) (fuel : nat) :
  (length argv ≠ 2%nat → main argv listdir u fuel = Some ([], SystemExit usage))
  ∧ (∀ script directory, argv = [script; directory] →
       (∀ name, name ∈ (listdir directory).*1 → endswith name ".html" = false) →
       main argv listdir u fuel = Some ([], Uncaught IndexError)).
Proof.
  split.
  - intros Hlen. unfold main. by rewrite (proj2 (Nat.eqb_neq _ _) Hlen).
  - intros script directory -> Hnone. unfold main. cbn [length Nat.eqb negb].
    change (py_index [script; directory] 1) with (Ok directory : result string).
    cbv beta iota. rewrite (crawl_no_pages _ Hnone).
    by rewrite (proj1 empty_corpus_faults_aux).
Qed.

(** The two cases in binary64, and a third way to fail before anything is
    printed: an entry named [d.html] that is a directory. *)
Example main_fails_silently_float :
  main ["pagerank.py"] (fun _ => site_sample) (fun _ => 0.5%float) 10
  = Some ([], SystemExit "Usage: python pagerank.py corpus")
  ∧ main ["pagerank.py"; "corpus"]
      (fun _ => [("notes.txt", Text (anchor "1.html")); ("images", Unreadable IsADirectoryError)])
      (fun _ => 0.5%float) 10
    = Some ([], Uncaught IndexError)
  ∧ main ["pagerank.py"; "corpus"] (fun _ => site_broken) (fun _ => 0.5%float) 10
    = Some ([], UncaughtRead "d.html" IsADirectoryError).
Proof. split_and!; vm_compute; reflexivity. Qed.

Lemma iterate_pagerank_keys (corpus : corpus_t) (damping : Qc) fuel dist :
  is_dict corpus → corpus ≠ [] → 0 ≤ damping < 1 →
  iterate_pagerank fuel corpus damping = Some (Ok dist) → keys dist = keys corpus.
Proof.
  intros Hdict Hne Hd. rewrite iterate_pagerank_start by done.
  intros (k & _ & Hrun)%iterate_loop_sweeps.
  destruct (initial_invariant corpus Hne) as [Hk0 _].
  by apply (sweeps_keys k corpus damping _ dist Hdict Hk0).
Qed.

(** On a directory with at least one [.html] file, [main] ends in one of
    two ways in exact rational arithmetic, whatever the random draws. If
    every [.html] entry can be read, it runs to the end: the crawl, the
    sampling and the iteration all succeed, and what is printed is the
    sampling heading, one line for every page of the corpus with its
    sampled rank, the iteration heading, and one line for every page with
    its iterated rank, the pages in ascending order both times. If not, it
    dies of the exception of the first [.html] entry that cannot be read,
    nothing printed. *)
Theorem main_prints (script directory : string)
    (listdir : string → list (string * file)) (u : nat → Qc) :
  (∃ name, name ∈ (listdir directory).*1 ∧ endswith name ".html" = true) →
  (0 ≤ u 0%nat < 1)%Qc →
  (readable (listdir directory)
   ∧ ∃ corpus sampled iterated fuel,
       crawl (listdir directory) = Loaded corpus
       ∧ sample_pagerank corpus damping_Q SAMPLES u = Ok sampled
       ∧ iterate_pagerank fuel corpus damping_Q = Some (Ok iterated)
       ∧ sorted (keys corpus) ≡ₚ keys corpus
       ∧ Sorted str_le (sorted (keys corpus))
       ∧ ∀ fuel', (fuel ≤ fuel')%nat →
           main [script; directory] listdir u fuel'
           = Some (sampling_heading
                     :: map (fun page => rank_line page (val sampled page))
                          (sorted (keys corpus))
                     ++ iteration_heading
                     :: map (fun page => rank_line page (val iterated page))
                          (sorted (keys corpus)),
                   Returned))
  ∨ (∃ pre name e post,
       listdir directory = pre ++ (name, Unreadable e) :: post
       ∧ readable pre ∧ endswith name ".html" = true
       ∧ ∀ fuel, main [script; directory] listdir u fuel
                 = Some ([], UncaughtRead name e)).
Proof.
  intros (name & Hname & Hhtml) Hu.
  destruct (readable_or_not (listdir directory))
    as [Hread|(pre & bad & e & post & Heq & Hpre & Hbad)].
  2: { right. exists pre, bad, e, post. split_and!; [done..|]. intros fuel.
       unfold main. cbn [length Nat.eqb negb].
       change (py_index [script; directory] 1) with (Ok directory : result string).
       cbv beta iota. by rewrite Heq, crawl_fails. }
  left. split; [done|].
  destruct (crawl_some_page _ _ Hread Hname Hhtml)
    as (corpus & Hcrawl & Hdict & Hclosed & Hne).
  assert (Hd : (0 < damping_Q < 1)%Qc) by (split; reflexivity).
  assert (Hd' : (0 ≤ damping_Q < 1)%Qc) by (split; [discriminate|reflexivity]).
  destruct (sample_pagerank_ok corpus damping_Q SAMPLES u)
    as (sampled & Hsample & Hks & _); [done..|unfold SAMPLES; lia|].
  destruct (iterate_pagerank_terminates corpus damping_Q) as (fuel & iterated & Hiter);
    [done..|].
  pose proof (iterate_pagerank_keys _ _ _ _ Hdict Hne Hd' Hiter) as Hki.
  exists corpus, sampled, iterated, fuel.
  split_and!; [done..|apply merge_sort_Permutation|apply (Sorted_merge_sort str_le)|].
  intros fuel' Hle.
  assert (Hiter' : iterate_pagerank fuel' corpus damping_Q = Some (Ok iterated)).
  { rewrite iterate_pagerank_start in * by done. by apply (iterate_loop_mono fuel fuel'). }
  unfold main. cbn [length Nat.eqb negb].
  change (py_index [script; directory] 1) with (Ok directory : result string).
  cbv beta iota. rewrite Hcrawl. change (@lit_0_85 Qc _) with damping_Q. rewrite Hsample.
  rewrite print_ranks_ok by (intros p Hp; exact (proj1 (sorted_elem_of _ _) Hp)).
  rewrite Hiter'. rewrite print_ranks_ok by (intros p Hp; exact (proj1 (sorted_elem_of _ _) Hp)).
  rewrite Hks, Hki. f_equal. f_equal. cbn [app]. f_equal. by rewrite <-app_assoc.
Qed.

(** The theorem on the sample site. *)
Lemma main_prints_witness :
  (readable site_sample
   ∧ ∃ corpus sampled iterated fuel,
       crawl site_sample = Loaded corpus
       ∧ sample_pagerank corpus damping_Q SAMPLES draws = Ok sampled
       ∧ iterate_pagerank fuel corpus damping_Q = Some (Ok iterated)
       ∧ sorted (keys corpus) ≡ₚ keys corpus
       ∧ Sorted str_le (sorted (keys corpus))
       ∧ ∀ fuel', (fuel ≤ fuel')%nat →
           main ["pagerank.py"; "corpus"] (fun _ => site_sample) draws fuel'
           = Some (sampling_heading
                     :: map (fun page => rank_line page (val sampled page))
                          (sorted (keys corpus))
                     ++ iteration_heading
                     :: map (fun page => rank_line page (val iterated page))
                          (sorted (keys corpus)),
                   Returned))
  ∨ (∃ pre name e post,
       site_sample = pre ++ (name, Unreadable e) :: post
       ∧ readable pre ∧ endswith name ".html" = true
       ∧ ∀ fuel, main ["pagerank.py"; "corpus"] (fun _ => site_sample) draws fuel
                 = Some ([], UncaughtRead name e)).
Proof.
  apply (main_prints "pagerank.py" "corpus" (fun _ => site_sample) draws).
  - exists "1.html". split; [decide_by_eval|reflexivity].
  - split; [discriminate|reflexivity].
Defined.

(** The lines of a ranking in binary64, as Python prints them: sorted by
    page, the ranks correctly rounded to four decimals, ties to even. *)
Example print_ranks_float :
  print_ranks (sorted ["b.html"; "a.html"; "10.html"; "2.html"])
    [("b.html", 0.03125%float); ("a.html", 0.64166666666666672%float);
     ("10.html", 0.12345%float); ("2.html", 0.2%float)]
    [iteration_heading]
  = (["PageRank Results from Iteration";
      "  10.html: 0.1235";
      "  2.html: 0.2000";
      "  a.html: 0.6417";
      "  b.html: 0.0312"], Returned).
Proof. vm_compute. reflexivity. Qed.
